(** * MobWrite SimpleDiffer (src/js/simple_differ.js)

    A shallow embedding of [mobwrite.SimpleDiffer]: the recorder that turns a
    series of inserts and deletes against a base string into a simplified
    diff whose actions are expressed in offsets of the original document.

    Modelling conventions.
    - A JavaScript number is a [num]: an integer, [Infinity], [-Infinity] or
      [NaN].  Integers are exact (the offsets of a document stay far below
      2^53, where a double stops being exact).
    - The array [this.chunks_] is a [list Chunk]; [splice] is written out
      with [take] and [drop].
    - A string is a [string], its characters standing for the code units;
      [substr] and [substring] are written out with their clamping.
    - A reference to an object that sits in an array ([prevInsert],
      [prevDelete]) is the index of that object in the array.
    - A thrown [TypeError] (a property read on [undefined]) is [None]. *)

From Stdlib Require Import ZArith Lia.
From stdpp Require Import base option list strings sorting gmap.

(** ** Numbers *)

Inductive num : Type :=
  | Fin (z : Z)
  | PInf
  | NInf
  | NaN.

Definition num_neg (a : num) : num :=
  match a with
  | Fin z => Fin (- z)
  | PInf => NInf
  | NInf => PInf
  | NaN => NaN
  end.

(** [a + b].  On integers the sum is exact, as the code's is while it stays
    within [Number.MAX_SAFE_INTEGER]; the properties are stated where it
    does. *)
Definition num_add (a b : num) : num :=
  match a, b with
  | NaN, _ | _, NaN => NaN
  | Fin x, Fin y => Fin (x + y)
  | PInf, NInf | NInf, PInf => NaN
  | PInf, _ | _, PInf => PInf
  | NInf, _ | _, NInf => NInf
  end.

(** [a - b] *)
Definition num_sub (a b : num) : num := num_add a (num_neg b).

(** [a > b]: false as soon as one side is [NaN]. *)
Definition num_gt (a b : num) : bool :=
  match a, b with
  | NaN, _ | _, NaN => false
  | Fin x, Fin y => (y <? x)%Z
  | PInf, PInf => false
  | PInf, _ => true
  | _, PInf => false
  | NInf, _ => false
  | Fin _, NInf => true
  end.

(** [a == b] on numbers: [NaN] equals nothing. *)
Definition num_eq (a b : num) : bool :=
  match a, b with
  | Fin x, Fin y => (x =? y)%Z
  | PInf, PInf | NInf, NInf => true
  | _, _ => false
  end.

(** [Number.MAX_SAFE_INTEGER]: up to it the integers are numbers, and sums
    and differences that stay below it are exact. *)
Definition MAX_SAFE_INTEGER : Z := (2 ^ 53 - 1)%Z.

(** ** Strings *)

(** [text.length] *)
Definition str_length (text : string) : num := Fin (Z.of_nat (String.length text)).

(** ToIntegerOrInfinity clamped to [0 .. size], as [substr] and [substring]
    do with a length or an end position. *)
Definition clamp_index (size : nat) (n : num) : nat :=
  match n with
  | Fin z => Z.to_nat (Z.min (Z.max z 0) (Z.of_nat size))
  | PInf => size
  | NInf | NaN => 0
  end.

(** The start position of [substr]: a negative start counts from the end. *)
Definition substr_start (size : nat) (n : num) : nat :=
  match n with
  | Fin z =>
      if (z <? 0)%Z then Z.to_nat (Z.max (Z.of_nat size + z) 0)
      else Z.to_nat (Z.min z (Z.of_nat size))
  | PInf => size
  | NInf | NaN => 0
  end.

(** [text.substr(start)] and [text.substr(start, length)] *)
Definition substr (text : string) (start : num) (len : option num) : string :=
  let size := String.length text in
  let from := substr_start size start in
  match len with
  | None => String.substring from (size - from) text
  | Some l => String.substring from (Nat.min (clamp_index size l) (size - from)) text
  end.

(** [text.substring(from)] and [text.substring(from, to)] *)
Definition js_substring (text : string) (from : num) (to : option num) : string :=
  let size := String.length text in
  let a := clamp_index size from in
  let b := match to with None => size | Some t => clamp_index size t end in
  String.substring (Nat.min a b) (Nat.max a b - Nat.min a b) text.

(** ** Chunks and actions *)

(** A chunk object: [{type: 'copy', start, length}] or
    [{type: 'insert', text, length}]. *)
Inductive Chunk : Type :=
  | CopyChunk (start length : num)
  | InsertChunk (text : string) (length : num).

Definition chunk_length (chunk : Chunk) : num :=
  match chunk with
  | CopyChunk _ length => length
  | InsertChunk _ length => length
  end.

(** An action of the simple diff: [{type: 'delete', start, end}] or
    [{type: 'insert', start, text}]. *)
Inductive Action : Type :=
  | DeleteAction (start end_ : num)
  | InsertAction (start : num) (text : string).

(** [array.splice(start, deleteCount, items...)], the array after the call.
    A [start] past the end is the end; so it is with [take] and [drop]. *)
Definition splice {A} (l : list A) (start deleteCount : nat) (items : list A) : list A :=
  take start l ++ items ++ drop (start + deleteCount) l.

(** After [splice(i, 1)] the object that sat at index [p] sits at
    [shift_removed i p] (it is not the removed one). *)
Definition shift_removed (i p : nat) : nat :=
  if decide (i < p) then p - 1 else p.

(** ** The recorder *)

(** [new mobwrite.SimpleDiffer()]: the initial [chunks_]. *)
Definition SimpleDiffer : list Chunk := [CopyChunk (Fin 0) PInf].

(** The loop of [findChunk_]; [rest] is [chunks_] from index [i] on, and an
    index past the end reads [undefined], which ends the loop. *)
Fixpoint findChunk_loop (rest : list Chunk) (i : nat)
    (currentCharIndex targetCharIndex : num) : option (nat * num) :=
  match rest with
  | [] => None
  | chunk :: rest' =>
      if num_gt (num_add currentCharIndex (chunk_length chunk)) targetCharIndex
      then Some (i, num_sub targetCharIndex currentCharIndex)
      else findChunk_loop rest' (S i)
             (num_add currentCharIndex (chunk_length chunk)) targetCharIndex
  end.

(** [findChunk_]: [None] is the [undefined] of falling off the loop. *)
Definition findChunk_ (chunks_ : list Chunk) (targetCharIndex : num)
    : option (nat * num) :=
  findChunk_loop chunks_ 0 (Fin 0) targetCharIndex.

(** The two halves [splitChunk_] makes of [chunk]. *)
Definition split_halves (chunk : Chunk) (splitAt : num) : Chunk * Chunk :=
  match chunk with
  | InsertChunk text length =>
      (InsertChunk (substr text (Fin 0) (Some splitAt)) splitAt,
       InsertChunk (substr text splitAt None) (num_sub length splitAt))
  | CopyChunk start length =>
      (CopyChunk start splitAt,
       CopyChunk (num_add start splitAt) (num_sub length splitAt))
  end.

Definition splitChunk_ (chunks_ : list Chunk) (chunkIndex : nat) (splitAt : num)
    : option (list Chunk) :=
  chunk ← chunks_ !! chunkIndex;
  let '(chunk', newChunk) := split_halves chunk splitAt in
  Some (splice (<[chunkIndex := chunk']> chunks_) (chunkIndex + 1) 0 [newChunk]).

Definition applyInsert (index : num) (text : string) (chunks_ : list Chunk)
    : option (list Chunk) :=
  '(chunkIndex, splitOffset) ← findChunk_ chunks_ index;
  chunks1 ← splitChunk_ chunks_ chunkIndex splitOffset;
  let insertAtIndex := chunkIndex + 1 in
  let newChunk := InsertChunk text (str_length text) in
  Some (splice chunks1 insertAtIndex 0 [newChunk]).

Definition applyDelete (startIndex endIndex : num) (chunks_ : list Chunk)
    : option (list Chunk) :=
  if num_eq startIndex endIndex then Some chunks_
  else
    '(startChunkIndex, startOffset) ← findChunk_ chunks_ startIndex;
    chunks1 ← splitChunk_ chunks_ startChunkIndex startOffset;
    let deleteStartIndex := startChunkIndex + 1 in
    '(endChunkIndex, endOffset) ← findChunk_ chunks1 endIndex;
    chunks2 ← splitChunk_ chunks1 endChunkIndex endOffset;
    let deleteEndIndex := endChunkIndex + 1 in
    Some (splice chunks2 deleteStartIndex (deleteEndIndex - deleteStartIndex) []).

(** [prevInsert.text += text; prevInsert.length += length] on the object at
    index [p].  [prevInsert] is only ever assigned an insert chunk; anything
    else at [p] is [None]. *)
Definition append_to_insert (chunks_ : list Chunk) (p : nat) (text : string)
    (length : num) : option (list Chunk) :=
  match chunks_ !! p with
  | Some (InsertChunk ptext plength) =>
      Some (<[p := InsertChunk (ptext +:+ text) (num_add plength length)]> chunks_)
  | _ => None
  end.

(** The loop of [mergeInserts_].  Every turn makes [length chunks_ - i]
    smaller, so [fuel] only has to be that large; [None] when it runs out
    (it never does: [mergeInserts_loop_total]). *)
Fixpoint mergeInserts_loop (fuel : nat) (chunks_ : list Chunk) (i : nat)
    (prevInsert : option nat) : option (list Chunk) :=
  if decide (i < length chunks_) then
    match fuel with
    | 0 => None
    | S fuel' =>
        match chunks_ !! i with
        | None => None
        | Some (InsertChunk text length) =>
            if String.eqb text "" then
              mergeInserts_loop fuel' (splice chunks_ i 1 []) (i + 1)
                (shift_removed i <$> prevInsert)
            else
              match prevInsert with
              | Some p =>
                  chunks1 ← append_to_insert chunks_ p text length;
                  mergeInserts_loop fuel' (splice chunks1 i 1 []) i
                    (Some (shift_removed i p))
              | None => mergeInserts_loop fuel' chunks_ (i + 1) (Some i)
              end
        | Some (CopyChunk _ _) => mergeInserts_loop fuel' chunks_ (i + 1) None
        end
    end
  else Some chunks_.

Definition mergeInserts_ (chunks_ : list Chunk) : option (list Chunk) :=
  mergeInserts_loop (length chunks_) chunks_ 0 None.

(** One turn of the first loop of [getSimpleDiff], on the pair
    [(lastCopyCharIndex, simpleDiff)]. *)
Definition diff_step (st : num * list Action) (chunk : Chunk) : num * list Action :=
  let '(lastCopyCharIndex, simpleDiff) := st in
  match chunk with
  | CopyChunk start length =>
      let deletedChars := num_sub lastCopyCharIndex (num_add start length) in
      (start,
       if num_gt deletedChars (Fin 0)
       then simpleDiff ++ [DeleteAction (num_add start length)
                             (num_add (num_add start length) deletedChars)]
       else simpleDiff)
  | InsertChunk text _ =>
      (lastCopyCharIndex, simpleDiff ++ [InsertAction lastCopyCharIndex text])
  end.

(** The first loop of [getSimpleDiff]: [chunks_] from the last to the
    first; [lastCopyCharIndex] and [simpleDiff] when it ends. *)
Definition diff_state (chunks_ : list Chunk) : num * list Action :=
  foldl diff_step (PInf, []) (reverse chunks_).

Definition diff_chunks (chunks_ : list Chunk) : list Action :=
  (diff_state chunks_).2.

(** The second loop of [getSimpleDiff], at [i = n - 1] ([n = 0]: the loop is
    over).  [prevDelete.end] of an object that has no [end] is [undefined],
    which equals no number. *)
Fixpoint mergeDeletes_loop (n : nat) (simpleDiff : list Action)
    (prevDelete : option nat) : option (list Action) :=
  match n with
  | 0 => Some simpleDiff
  | S i =>
      match simpleDiff !! i with
      | None => None
      | Some (DeleteAction start end_) =>
          match prevDelete with
          | Some p =>
              match simpleDiff !! p with
              | None => None
              | Some (DeleteAction pstart pend) =>
                  if num_eq pend start then
                    mergeDeletes_loop i
                      (splice (<[p := DeleteAction pstart end_]> simpleDiff) i 1 [])
                      (Some (shift_removed i p))
                  else mergeDeletes_loop i simpleDiff (Some i)
              | Some (InsertAction _ _) => mergeDeletes_loop i simpleDiff (Some i)
              end
          | None => mergeDeletes_loop i simpleDiff (Some i)
          end
      | Some (InsertAction _ _) => mergeDeletes_loop i simpleDiff None
      end
  end.

(** [getSimpleDiff]: the [chunks_] it leaves behind and the array it
    returns. *)
Definition getSimpleDiff (chunks_ : list Chunk) : option (list Chunk * list Action) :=
  chunks1 ← mergeInserts_ chunks_;
  let simpleDiff := diff_chunks chunks1 in
  simpleDiff' ← mergeDeletes_loop (length simpleDiff) simpleDiff None;
  Some (chunks1, simpleDiff').

(** ** Edit sequences *)

(** One call on the recorder, with the arguments the caller passes. *)
Inductive Edit : Type :=
  | InsertEdit (index : Z) (text : string)
  | DeleteEdit (startIndex endIndex : Z).

Definition record (chunks_ : list Chunk) (edit : Edit) : option (list Chunk) :=
  match edit with
  | InsertEdit index text => applyInsert (Fin index) text chunks_
  | DeleteEdit startIndex endIndex => applyDelete (Fin startIndex) (Fin endIndex) chunks_
  end.

Fixpoint record_all (chunks_ : list Chunk) (edits : list Edit) : option (list Chunk) :=
  match edits with
  | [] => Some chunks_
  | edit :: edits' => chunks1 ← record chunks_ edit; record_all chunks1 edits'
  end.

(** The diff of a fresh recorder after [edits]. *)
Definition diff_of (edits : list Edit) : option (list Action) :=
  chunks_ ← record_all SimpleDiffer edits;
  snd <$> getSimpleDiff chunks_.

(** The offsets of an edit are offsets of the virtual document, which for
    the recorder has no end: an insert needs [0 <= index], a delete
    [0 <= startIndex <= endIndex]. *)
Definition well_formed (edit : Edit) : Prop :=
  match edit with
  | InsertEdit index _ => (0 ≤ index)%Z
  | DeleteEdit startIndex endIndex => (0 ≤ startIndex ≤ endIndex)%Z
  end.

(** The edit applied to a text itself, the way the caller of the recorder
    does it ([patch_apply_]): [text.substring(0, i) + t + text.substring(i)]
    and [text.substring(0, s) + text.substring(e)]. *)
Definition edit_text (text : string) (edit : Edit) : string :=
  match edit with
  | InsertEdit index t =>
      js_substring text (Fin 0) (Some (Fin index)) +:+ t
        +:+ js_substring text (Fin index) None
  | DeleteEdit startIndex endIndex =>
      js_substring text (Fin 0) (Some (Fin startIndex))
        +:+ js_substring text (Fin endIndex) None
  end.

Definition edit_all (text : string) (edits : list Edit) : string :=
  foldl edit_text text edits.

(** An edit whose offsets lie within a text of [size] characters. *)
Definition in_range (size : nat) (edit : Edit) : bool :=
  match edit with
  | InsertEdit index _ => (0 <=? index)%Z && (index <=? Z.of_nat size)%Z
  | DeleteEdit startIndex endIndex =>
      (0 <=? startIndex)%Z && (startIndex <=? endIndex)%Z
        && (endIndex <=? Z.of_nat size)%Z
  end.

(** Every edit is within the text as it is when the edit is made. *)
Fixpoint all_in_range (text : string) (edits : list Edit) : bool :=
  match edits with
  | [] => true
  | edit :: edits' =>
      in_range (String.length text) edit && all_in_range (edit_text text edit) edits'
  end.

(** One action of a simple diff carried out on a text: a delete removes
    [[start, end)], an insert puts its text at [start]. *)
Definition replay_action (text : string) (action : Action) : string :=
  match action with
  | DeleteAction start end_ =>
      js_substring text (Fin 0) (Some start) +:+ js_substring text end_ None
  | InsertAction start t =>
      js_substring text (Fin 0) (Some start) +:+ t +:+ js_substring text start None
  end.

(** The actions carried out in the order of the array. *)
Definition replay (text : string) (simpleDiff : list Action) : string :=
  foldl replay_action text simpleDiff.

(** * Vocabulary of the properties *)

(** ** The invariant of [chunks_] *)

(** [ordered lo chunks_]: the sequence ends in the copy chunk of unbounded
    length and every other chunk has a finite length that is not negative;
    an insert chunk's length is the length of its text; the copy chunks,
    read from the first to the last, cover spans of the original document
    that start at [lo] or later, do not overlap and go upward. *)
Inductive ordered : Z → list Chunk → Prop :=
  | ordered_tail lo start :
      (lo ≤ start)%Z →
      ordered lo [CopyChunk (Fin start) PInf]
  | ordered_copy lo start length rest :
      (lo ≤ start)%Z → (0 ≤ length)%Z →
      ordered (start + length) rest →
      ordered lo (CopyChunk (Fin start) (Fin length) :: rest)
  | ordered_insert lo text rest :
      ordered lo rest →
      ordered lo (InsertChunk text (str_length text) :: rest).

(** A chunk of finite length, and the length of a run of such chunks. *)
Definition finite_length (chunk : Chunk) : Z :=
  match chunk_length chunk with
  | Fin l => l
  | _ => 0
  end.

Definition finite_chunk (chunk : Chunk) : Prop :=
  chunk_length chunk = Fin (finite_length chunk) ∧ (0 ≤ finite_length chunk)%Z.

Definition total_length (chunks_ : list Chunk) : Z :=
  foldr (λ chunk acc, finite_length chunk + acc)%Z 0%Z chunks_.

(** [off] is an offset into the chunk, short of its end. *)
Definition inside (off : Z) (chunk : Chunk) : Prop :=
  match chunk_length chunk with
  | Fin l => (off < l)%Z
  | PInf => True
  | _ => False
  end.

(** ** The actions of the diff *)

(** An action with finite offsets; a delete that removes something. *)
Definition finite_action (action : Action) : Prop :=
  match action with
  | DeleteAction (Fin start) (Fin end_) => (start < end_)%Z
  | InsertAction (Fin start) _ => True
  | _ => False
  end.

(** The span of the original document an action is about: [[start, end)]
    for a delete, the point [start] for an insert. *)
Definition span (action : Action) : num * num :=
  match action with
  | DeleteAction start end_ => (start, end_)
  | InsertAction start _ => (start, start)
  end.

(** Two spans overlap when each starts before the other ends.  A point
    overlaps a span it lies strictly inside of, and no other point. *)
Definition overlaps (a b : Action) : bool :=
  num_gt (span a).2 (span b).1 && num_gt (span b).2 (span a).1.

(** Two deletes are adjacent when one ends where the other starts. *)
Definition adjacent (a b : Action) : bool :=
  match a, b with
  | DeleteAction start1 end1, DeleteAction start2 end2 =>
      num_eq end1 start2 || num_eq end2 start1
  | _, _ => false
  end.

Definition action_lo (action : Action) : Z :=
  match (span action).1 with Fin z => z | _ => 0%Z end.

Definition action_hi (action : Action) : Z :=
  match (span action).2 with Fin z => z | _ => 0%Z end.

(** [b] ends at or before the start of [a]. *)
Definition below (a b : Action) : Prop := (action_hi b ≤ action_lo a)%Z.

(** [a] is a delete that starts where the delete [b] ends. *)
Definition touching (a b : Action) : Prop :=
  match a, b with
  | DeleteAction start1 _, DeleteAction _ end2 => end2 = start1
  | _, _ => False
  end.

(** No delete starts where the delete that follows it in the list ends. *)
Fixpoint separated (simpleDiff : list Action) : Prop :=
  match simpleDiff with
  | a :: simpleDiff' =>
      match simpleDiff' with
      | b :: _ => ¬ touching a b
      | [] => True
      end ∧ separated simpleDiff'
  | [] => True
  end.

(** What [prevDelete] is when the second loop of [getSimpleDiff] is at the
    index before [n], [back] being the array from [n] on. *)
Definition prevDelete_ok (prevDelete : option nat) (n : nat) (back : list Action) : Prop :=
  match prevDelete with
  | Some p => p = n ∧ ∃ start end_ rest, back = DeleteAction start end_ :: rest
  | None => match back with DeleteAction _ _ :: _ => False | _ => True end
  end.

(** ** Overlap and adjacency *)




(** ** The inputs of the scenarios *)

(** Three inserts after which [mergeInserts_] steps over a chunk. *)
Definition skipping_edits : list Edit :=
  [InsertEdit 0 "AB"; InsertEdit 1 "X"; InsertEdit 1 "Y"].

(** The same, and the "Y" deleted again: no call has an empty text. *)
Definition emptying_edits : list Edit :=
  [InsertEdit 0 "AB"; InsertEdit 1 "X"; InsertEdit 1 "Y"; DeleteEdit 1 2].

(** Two deletes that meet at offset 3, and an insert there. *)
Definition meeting_edits : list Edit :=
  [DeleteEdit 2 3; InsertEdit 2 "X"; DeleteEdit 3 5].

(** The scenario of the specification: [insert(3, "XY")], [delete(0, 1)]. *)
Definition scenario_edits : list Edit :=
  [InsertEdit 3 "XY"; DeleteEdit 0 1].

(** What [splitChunk_] leaves at [chunkIndex] when it splits at offset 0. *)
Definition empty_half (chunk : Chunk) : Chunk :=
  match chunk with
  | CopyChunk start _ => CopyChunk start (Fin 0)
  | InsertChunk _ _ => InsertChunk "" (Fin 0)
  end.

(** [chunk.length == 0] *)
Definition zero_length (chunk : Chunk) : bool :=
  num_eq (chunk_length chunk) (Fin 0).

(** ** The text a chunk sequence stands for *)

(** What a chunk adds to the new text: a copy chunk the characters
    [[start, start + length)] of the original document, an insert chunk its
    text. *)
Definition chunk_text (base : string) (chunk : Chunk) : string :=
  match chunk with
  | CopyChunk start length => js_substring base start (Some (num_add start length))
  | InsertChunk text _ => text
  end.

(** The new text: what the chunks add, one after the other. *)
Definition render (base : string) (chunks_ : list Chunk) : string :=
  foldr (λ chunk acc, chunk_text base chunk +:+ acc) "" chunks_.

(** A copy chunk that lies within an original document of [size]
    characters. *)
Definition fits (size : Z) (chunk : Chunk) : Prop :=
  match chunk with
  | CopyChunk (Fin start) (Fin length) => (start + length ≤ size)%Z
  | CopyChunk (Fin start) PInf => (start ≤ size)%Z
  | _ => True
  end.

(** The sequence starts with a copy chunk at offset 0. *)
Definition anchored (chunks_ : list Chunk) : Prop :=
  ∃ length rest, chunks_ = CopyChunk (Fin 0) length :: rest.

(** [chunk.type == 'insert' && chunk.text == ''] *)
Definition empty_insert (chunk : Chunk) : bool :=
  match chunk with
  | InsertChunk text _ => String.eqb text ""
  | CopyChunk _ _ => false
  end.

(** The characters of a string. *)
Definition chars (s : string) : list Ascii.ascii := String.list_ascii_of_string s.

(** A chunk as the recorder makes them, within an original document of
    [size] characters: offsets and lengths that are not negative, a copy
    chunk inside the document, an insert chunk with the length of its
    text. *)
Definition sound (size : Z) (chunk : Chunk) : Prop :=
  match chunk with
  | CopyChunk (Fin start) (Fin length) =>
      (0 ≤ start)%Z ∧ (0 ≤ length)%Z ∧ (start + length ≤ size)%Z
  | CopyChunk (Fin start) PInf => (0 ≤ start ≤ size)%Z
  | InsertChunk text length => length = str_length text
  | _ => False
  end.

(** The characters of [chunk_text], on the characters of the original
    document. *)
Definition chunk_chars (base : list Ascii.ascii) (chunk : Chunk) : list Ascii.ascii :=
  match chunk with
  | CopyChunk (Fin start) (Fin length) =>
      take (Z.to_nat length) (drop (Z.to_nat start) base)
  | CopyChunk (Fin start) _ => drop (Z.to_nat start) base
  | CopyChunk _ _ => []
  | InsertChunk text _ => chars text
  end.

Definition render_chars (base : list Ascii.ascii) (chunks_ : list Chunk)
    : list Ascii.ascii :=
  foldr (λ chunk acc, chunk_chars base chunk ++ acc) [] chunks_.

(** The state of a recorder whose original document is [base]: the
    sequence is ordered from offset 0, starts with a copy chunk at offset 0,
    and its copy chunks lie within [base]. *)
Definition consistent (base : string) (chunks_ : list Chunk) : Prop :=
  ordered 0 chunks_ ∧
  Forall (fits (Z.of_nat (String.length base))) chunks_ ∧
  anchored chunks_.

(** [replay_action] on the characters of the text, for finite offsets. *)
Definition replay_chars (l : list Ascii.ascii) (action : Action) : list Ascii.ascii :=
  match action with
  | DeleteAction (Fin start) (Fin end_) =>
      take (Z.to_nat start) l ++ drop (Z.to_nat end_) l
  | InsertAction (Fin start) text =>
      take (Z.to_nat start) l ++ chars text ++ drop (Z.to_nat start) l
  | _ => l
  end.

(** [chunk.type == 'insert'] *)
Definition is_insert (chunk : Chunk) : bool :=
  match chunk with
  | InsertChunk _ _ => true
  | CopyChunk _ _ => false
  end.

(** No two chunks that are neighbours in the sequence are both insert
    chunks. *)
Fixpoint no_insert_neighbours (chunks_ : list Chunk) : Prop :=
  match chunks_ with
  | a :: chunks' =>
      match chunks' with
      | b :: _ => is_insert a && is_insert b = false
      | [] => True
      end ∧ no_insert_neighbours chunks'
  | [] => True
  end.

(** What [prevInsert] is when the loop of [mergeInserts_] has no empty
    insert chunk to remove, [done] being the sequence before index [i]: the
    last chunk of [done] if that is an insert chunk, and [null] if not. *)
Definition prevInsert_ok (prevInsert : option nat) (done : list Chunk) : Prop :=
  match prevInsert with
  | Some p => ∃ done0 text len, done = done0 ++ [InsertChunk text len] ∧ p = length done0
  | None => ∀ chunk, last done = Some chunk → is_insert chunk = false
  end.

(** The characters of the text of a sequence, chunk by chunk. *)
Definition text_chars (base : string) (chunks_ : list Chunk) : list Ascii.ascii :=
  chunks_ ≫= (λ chunk, chars (chunk_text base chunk)).

(** A series of edits that goes upward through the text: every edit is at
    or after the place where the one before it ended, and no insert has an
    empty text. *)
Fixpoint ascending (pos : Z) (edits : list Edit) : Prop :=
  match edits with
  | [] => True
  | InsertEdit index text :: edits' =>
      (pos ≤ index)%Z ∧ String.eqb text "" = false ∧
      ascending (index + Z.of_nat (String.length text)) edits'
  | DeleteEdit startIndex endIndex :: edits' =>
      (pos ≤ startIndex ≤ endIndex)%Z ∧ ascending startIndex edits'
  end.

(** The state of a recorder that has been given an ascending series of
    edits, the last of which ended at [pos]: the insert chunks are not
    empty and end at or before [pos], where only copy chunks follow. *)
Definition settled (pos : Z) (chunks_ : list Chunk) : Prop :=
  ordered 0 chunks_ ∧
  Forall (λ c, empty_insert c = false) chunks_ ∧
  ∃ pre post,
    chunks_ = pre ++ post ∧ Forall finite_chunk pre ∧
    (total_length pre ≤ pos)%Z ∧ Forall (λ c, is_insert c = false) post.

(** An action with offsets inside an original document of [size]
    characters. *)
Definition within_document (size : Z) (action : Action) : Prop :=
  match action with
  | DeleteAction (Fin start) (Fin end_) => (0 ≤ start < end_)%Z ∧ (end_ ≤ size)%Z
  | InsertAction (Fin start) _ => (0 ≤ start ≤ size)%Z
  | _ => False
  end.

(** [action.type == 'insert' && action.text == ''] *)
Definition empty_insert_action (action : Action) : bool :=
  match action with
  | InsertAction _ text => String.eqb text ""
  | DeleteAction _ _ => false
  end.

(** ** Positions in the editor (src/js/mobwrite_codemirror_uncompressed.js) *)

(** The line feed, ['\n']. *)
Definition newline : Ascii.ascii := Ascii.ascii_of_nat 10.

(** The search of [lastIndexOf] downward from the position before [n]. *)
Fixpoint last_newline_before (text : string) (n : nat) : Z :=
  match n with
  | 0 => (-1)%Z
  | S k =>
      match String.get k text with
      | Some c => if Ascii.eqb c newline then Z.of_nat k else last_newline_before text k
      | None => last_newline_before text k
      end
  end.

(** [text.lastIndexOf('\n', position)]: the search starts at [position]
    clamped to [0 .. text.length - 1], and gives -1 when it finds nothing. *)
Definition lastIndexOf_newline (text : string) (position : Z) : Z :=
  let start := Z.min (Z.max position 0) (Z.of_nat (String.length text) - 1) in
  last_newline_before text (Z.to_nat (start + 1)).

(** The entry [{node, offset}] of [brOffsets]; [node] is [null] or a [br]
    element. *)
Definition BrOffset (Node : Type) : Type := option Node * Z.

(** The inner loop of [getBrOffsets_].  [stack] is [charIndexes] read from
    its end, where [pop] takes; on the empty array the last element is
    [undefined], which nothing is less than.  The difference
    [targetCharIndex - newlineCharIndex - 1] is exact, as the code's is for
    a character index within [Number.MAX_SAFE_INTEGER]. *)
Fixpoint pop_loop {Node} (newlineCharIndex : Z) (brElement : option Node)
    (stack : list Z) (brOffsets : gmap Z (BrOffset Node))
    : list Z * gmap Z (BrOffset Node) :=
  match stack with
  | [] => ([], brOffsets)
  | targetCharIndex :: stack' =>
      if (newlineCharIndex <? targetCharIndex)%Z then
        let offset :=
          match brElement with
          | Some _ => (targetCharIndex - newlineCharIndex - 1)%Z
          | None => targetCharIndex
          end in
        pop_loop newlineCharIndex brElement stack'
          (<[targetCharIndex := (brElement, offset)]> brOffsets)
      else (stack, brOffsets)
  end.

(** The outer loop of [getBrOffsets_]; [remaining] is [brIndex + 1], which
    every turn but the last makes smaller. *)
Fixpoint br_loop {Node} (editorText : string) (brElements : list Node)
    (remaining : nat) (newlineCharIndex : Z)
    (stack : list Z) (brOffsets : gmap Z (BrOffset Node))
    : list Z * gmap Z (BrOffset Node) :=
  let newlineCharIndex' := lastIndexOf_newline editorText (newlineCharIndex - 1) in
  let brElement :=
    match remaining with
    | 0 => None
    | S brIndex => brElements !! brIndex
    end in
  let '(stack', brOffsets') := pop_loop newlineCharIndex' brElement stack brOffsets in
  if (0 <=? newlineCharIndex')%Z then
    match remaining with
    | 0 => (stack', brOffsets')
    | S brIndex => br_loop editorText brElements brIndex newlineCharIndex' stack' brOffsets'
    end
  else (stack', brOffsets').

(** [getBrOffsets_], on the [br] elements of the editor; [None] is the
    thrown ['Missing character indexes']. *)
Definition getBrOffsets_ {Node} (brElements : list Node) (editorText : string)
    (charIndexes : list Z) : option (gmap Z (BrOffset Node)) :=
  let sorted := merge_sort Z.le charIndexes in
  let '(stack, brOffsets) :=
    br_loop editorText brElements (length brElements)
      (Z.of_nat (String.length editorText)) (reverse sorted) ∅ in
  match stack with
  | [] => Some brOffsets
  | last :: _ =>
      if (last =? 0)%Z then Some (<[0%Z := (None, 0%Z)]> brOffsets) else None
  end.

(** The first loop of [patchClientText] over the diff: the offsets it asks
    [getBrOffsets_] for.  (The offsets of the diff are integers.) *)
Definition offsetsNeeded (simpleDiff : list Action) : list num :=
  simpleDiff ≫= (λ mutation,
    match mutation with
    | InsertAction start _ => [start]
    | DeleteAction start end_ => [start; end_]
    end).

(** The number of characters between the start of the line that the
    character index [c] is in and [c]: the last newline before [c] is the
    end of the line before. *)
Definition column (text : string) (c : Z) : Z :=
  (c - last_newline_before text (Z.to_nat c) - 1)%Z.

(** An entry of [brOffsets] for the character index [c]: with a [br]
    element the offset is the column of [c], without one it is [c]. *)
Definition entry_ok {Node} (text : string) (c : Z) (entry : BrOffset Node) : Prop :=
  entry.2 = match entry.1 with Some _ => column text c | None => c end.

(** No newline of the text at the positions from [from] up to, not
    including, [c]. *)
Definition no_newline_between (text : string) (from c : Z) : Prop :=
  ∀ k : nat, (from ≤ Z.of_nat k < c)%Z → String.get k text ≠ Some newline.

(** The number of newlines of the text at the positions before [n]. *)
Fixpoint count_newlines (text : string) (n : nat) : nat :=
  match n with
  | 0 => 0
  | S k =>
      (if decide (String.get k text = Some newline) then 1 else 0)
      + count_newlines text k
  end.

(** The [br] element of the line that the character index [c] is in: that
    of the last newline before [c]; [null] on the first line. *)
Definition line_break {Node} (brElements : list Node) (text : string) (c : Z)
    : option Node :=
  match count_newlines text (Z.to_nat c) with
  | 0 => None
  | S j => brElements !! j
  end.

(** An entry of [brOffsets] that has the [br] element of the line. *)
Definition node_ok {Node} (brElements : list Node) (text : string) (c : Z)
    (entry : BrOffset Node) : Prop :=
  entry.1 = line_break brElements text c.

(** The character indexes that [patchClientText] gives to [getBrOffsets_]
    and uses as keys of [brOffsets]; the finite numbers among the offsets
    of a simple diff are integers. *)
Definition finite_indexes (offsets : list num) : option (list Z) :=
  mapM (λ n, match n with Fin z => Some z | _ => None end) offsets.

(** The lookups [brOffsets[mutation.start]] and [brOffsets[mutation.end]] of
    the second loop of [patchClientText] find an entry. *)
Definition positions_found {Node} (brOffsets : gmap Z (BrOffset Node))
    (mutation : Action) : Prop :=
  match mutation with
  | InsertAction (Fin start) _ => is_Some (brOffsets !! start)
  | DeleteAction (Fin start) (Fin end_) =>
      is_Some (brOffsets !! start) ∧ is_Some (brOffsets !! end_)
  | _ => False
  end.

(** Inputs of the examples: the state of a recorder on "abcdef" after
    [applyInsert(3, "XY")], a series of edits on "abcdefgh" that goes up
    through the text, and a text of two lines. *)
Definition recorded_chunks : list Chunk :=
  [CopyChunk (Fin 0) (Fin 3); InsertChunk "XY" (Fin 2); CopyChunk (Fin 3) PInf].

Definition unmerged_chunks : list Chunk :=
  [CopyChunk (Fin 0) (Fin 1); InsertChunk "a" (Fin 1); InsertChunk "b" (Fin 1);
   CopyChunk (Fin 1) PInf].

Definition ascending_edits : list Edit :=
  [DeleteEdit 0 1; InsertEdit 2 "XY"; DeleteEdit 5 6].

Definition two_lines : string := "ab" +:+ String newline "cd".

(** * Properties *)

(** ** Numbers and strings *)

Lemma num_add_0_r a : num_add a (Fin 0) = a.
Proof. destruct a; simpl; try reflexivity. f_equal; lia. Qed.

Lemma num_sub_0_r a : num_sub a (Fin 0) = a.
Proof. apply num_add_0_r. Qed.

Lemma num_eq_refl_fin z : num_eq (Fin z) (Fin z) = true.
Proof. simpl. apply Z.eqb_refl. Qed.

(** [Infinity - Infinity] is [NaN], and [NaN > 0] is false. *)
Example infinity_minus_infinity :
  num_sub PInf (num_add (Fin 7) PInf) = NaN ∧ num_gt NaN (Fin 0) = false.
Proof. split; reflexivity. Qed.

Example substr_examples :
  substr "abcdef" (Fin 2) None = "cdef" ∧
  substr "abcdef" (Fin 0) (Some (Fin 2)) = "ab" ∧
  substr "abcdef" (Fin (-2)) None = "ef" ∧
  js_substring "abcdef" (Fin 4) (Some (Fin 1)) = "bcd".
Proof. repeat split; reflexivity. Qed.

Lemma substring_0_0 s : String.substring 0 0 s = "".
Proof. destruct s; reflexivity. Qed.

Lemma substring_0_length s : String.substring 0 (String.length s) s = s.
Proof. induction s as [|c s IH]; simpl; [reflexivity | by rewrite IH]. Qed.

Lemma length_substring s : ∀ n m,
  n + m ≤ String.length s → String.length (String.substring n m s) = m.
Proof.
  induction s as [|c s IH]; intros n m Hle; simpl in *.
  - assert (n = 0 ∧ m = 0) as [-> ->] by lia. reflexivity.
  - destruct n as [|n].
    + destruct m as [|m]; simpl; [reflexivity|]. rewrite IH; lia.
    + apply IH. lia.
Qed.

Lemma length_append s1 s2 :
  String.length (s1 +:+ s2) = String.length s1 + String.length s2.
Proof. induction s1 as [|c s1 IH]; simpl; [reflexivity | by rewrite IH]. Qed.

Lemma str_length_append s1 s2 :
  num_add (str_length s1) (str_length s2) = str_length (s1 +:+ s2).
Proof. unfold str_length. simpl. rewrite length_append. f_equal. lia. Qed.

(** The two halves of a text cut at [off], when [off] is within it. *)
Lemma str_length_substr_left text off :
  (0 ≤ off ≤ Z.of_nat (String.length text))%Z →
  str_length (substr text (Fin 0) (Some (Fin off))) = Fin off.
Proof.
  intros Hoff. unfold str_length, substr, substr_start, clamp_index. simpl.
  rewrite length_substring by lia. f_equal. lia.
Qed.

Lemma str_length_substr_right text off :
  (0 ≤ off ≤ Z.of_nat (String.length text))%Z →
  str_length (substr text (Fin off) None)
  = num_sub (str_length text) (Fin off).
Proof.
  intros Hoff. unfold str_length, substr, substr_start. simpl.
  destruct (Z.ltb_spec off 0); [lia|].
  rewrite length_substring by lia. f_equal. lia.
Qed.

(** ** Splices on a sequence cut at an index *)

Section splice.
Context {A : Type}.
Implicit Types (pre post mid items : list A) (x y : A).

Lemma splice_insert_at pre post items :
  splice (pre ++ post) (length pre) 0 items = pre ++ items ++ post.
Proof.
  unfold splice. rewrite Nat.add_0_r, take_app_length, drop_app_length.
  reflexivity.
Qed.

Lemma splice_remove_at pre mid post :
  splice (pre ++ mid ++ post) (length pre) (length mid) [] = pre ++ post.
Proof.
  unfold splice. rewrite take_app_length. simpl.
  rewrite drop_app_ge by lia.
  replace (length pre + length mid - length pre) with (length mid) by lia.
  by rewrite drop_app_length.
Qed.

Lemma splice_remove_one pre x post :
  splice (pre ++ x :: post) (length pre) 1 [] = pre ++ post.
Proof. apply (splice_remove_at pre [x] post). Qed.

Lemma insert_middle pre x y post :
  <[length pre := y]> (pre ++ x :: post) = pre ++ y :: post.
Proof.
  rewrite <-(Nat.add_0_r (length pre)), insert_app_r. reflexivity.
Qed.

(** A sequence cut at an index that holds an element. *)
Lemma lookup_cut (l : list A) i x :
  l !! i = Some x →
  l = take i l ++ x :: drop (S i) l ∧ length (take i l) = i.
Proof.
  intros Hi. split.
  - by rewrite take_drop_middle.
  - apply length_take_le. apply lookup_lt_Some in Hi. lia.
Qed.
End splice.

(** ** Ordered sequences *)


Lemma ordered_weaken lo lo' chunks_ :
  ordered lo chunks_ → (lo' ≤ lo)%Z → ordered lo' chunks_.
Proof.
  intros H; revert lo'. induction H; intros lo' Hle.
  - apply ordered_tail; lia.
  - apply ordered_copy; [lia | lia | assumption].
  - apply ordered_insert; auto.
Qed.

Lemma total_length_nonneg chunks_ :
  Forall finite_chunk chunks_ → (0 ≤ total_length chunks_)%Z.
Proof.
  induction 1 as [|c cs [_ Hc] _ IH]; simpl; lia.
Qed.

Lemma total_length_app pre post :
  total_length (pre ++ post) = (total_length pre + total_length post)%Z.
Proof. induction pre as [|c pre IH]; simpl; lia. Qed.

(** What stands before a cut of an ordered sequence is finite, what stands
    after it is ordered from some later offset, and may be exchanged for
    anything else that is ordered from there. *)
Lemma ordered_app_inv pre : ∀ lo rest,
  rest ≠ [] → ordered lo (pre ++ rest) →
  Forall finite_chunk pre ∧
  ∃ hi, (lo ≤ hi)%Z ∧ ordered hi rest ∧
        ∀ rest', ordered hi rest' → ordered lo (pre ++ rest').
Proof.
  induction pre as [|c pre IH]; intros lo rest Hne H; simpl in *.
  - split; [constructor|]. exists lo. split; [lia|]. split; auto.
  - inversion H as [lo0 start Hlo Heq | lo0 start len rest0 Hlo Hlen Hrest
                    | lo0 text rest0 Hrest]; subst.
    + destruct pre; simpl in *; congruence.
    + destruct (IH _ _ Hne Hrest) as (Hfin & hi & Hhi & Hord & Hctx).
      split.
      { constructor; [|assumption]. split; [reflexivity | exact Hlen]. }
      exists hi. split; [lia|]. split; [assumption|].
      intros rest' Hrest'. apply ordered_copy; auto.
    + destruct (IH _ _ Hne Hrest) as (Hfin & hi & Hhi & Hord & Hctx).
      split.
      { constructor; [|assumption].
        split; [reflexivity | unfold finite_length; simpl; lia]. }
      exists hi. split; [lia|]. split; [assumption|].
      intros rest' Hrest'. apply ordered_insert; auto.
Qed.

(** ** [findChunk_] on an ordered sequence *)

(** The walk finds a chunk: it stops at the first chunk that reaches past
    the target, [off] characters into it. *)
Lemma findChunk_loop_ordered lo rest :
  ordered lo rest → ∀ i cur t, (0 ≤ cur ≤ t)%Z →
  ∃ pre chunk post off,
    rest = pre ++ chunk :: post ∧
    findChunk_loop rest i (Fin cur) (Fin t) = Some (i + length pre, Fin off) ∧
    Forall finite_chunk pre ∧
    (0 ≤ off)%Z ∧ (cur + total_length pre + off = t)%Z ∧ inside off chunk.
Proof.
  induction 1 as [lo start Hlo | lo start len rest Hlo Hlen Hrest IH
                  | lo text rest Hrest IH]; intros i cur t Hcur.
  - exists [], (CopyChunk (Fin start) PInf), [], (t - cur)%Z. simpl.
    rewrite Nat.add_0_r. repeat split; try constructor; lia.
  - simpl. destruct (Z.ltb_spec t (cur + len)) as [Hlt | Hge].
    + exists [], (CopyChunk (Fin start) (Fin len)), rest, (t - cur)%Z. simpl.
      rewrite Nat.add_0_r. repeat split; try constructor; try lia.
      unfold inside; simpl; lia.
    + destruct (IH (S i) (cur + len)%Z t) as
        (pre & chunk & post & off & -> & Hfind & Hfin & Hoff & Hsum & Hin);
        [lia|].
      exists (CopyChunk (Fin start) (Fin len) :: pre), chunk, post, off. simpl.
      rewrite Hfind. replace (S i + length pre) with (i + S (length pre)) by lia.
      repeat split; try assumption.
      * constructor; [split; [reflexivity | exact Hlen] | assumption].
      * unfold finite_length at 1; simpl. lia.
  - simpl.
    destruct (Z.ltb_spec t (cur + Z.of_nat (String.length text))) as [Hlt | Hge].
    + exists [], (InsertChunk text (str_length text)), rest, (t - cur)%Z. simpl.
      rewrite Nat.add_0_r. repeat split; try constructor; try lia.
      unfold inside; simpl; lia.
    + destruct (IH (S i) (cur + Z.of_nat (String.length text))%Z t) as
        (pre & chunk & post & off & -> & Hfind & Hfin & Hoff & Hsum & Hin);
        [lia|].
      exists (InsertChunk text (str_length text) :: pre), chunk, post, off. simpl.
      rewrite Hfind. replace (S i + length pre) with (i + S (length pre)) by lia.
      repeat split; try assumption.
      * constructor; [|assumption].
        split; [reflexivity | unfold finite_length; simpl; lia].
      * unfold finite_length at 1; simpl. lia.
Qed.

(** The walk passes over a run of finite chunks that ends at or before the
    target. *)
Lemma findChunk_loop_skip pre : ∀ rest i cur t,
  Forall finite_chunk pre → (cur + total_length pre ≤ t)%Z →
  findChunk_loop (pre ++ rest) i (Fin cur) (Fin t)
  = findChunk_loop rest (i + length pre) (Fin (cur + total_length pre)) (Fin t).
Proof.
  induction pre as [|c pre IH]; intros rest i cur t Hfin Hle; simpl in *.
  - rewrite Nat.add_0_r, Z.add_0_r. reflexivity.
  - inversion Hfin as [|c0 pre0 [Hc Hpos] Hfin']; subst.
    pose proof (total_length_nonneg _ Hfin') as Hnn.
    rewrite Hc. simpl.
    destruct (Z.ltb_spec t (cur + finite_length c)) as [Hlt | Hge]; [lia|].
    rewrite IH by (assumption || lia).
    replace (S i + length pre) with (i + S (length pre)) by lia.
    do 2 f_equal. lia.
Qed.

(** ** [splitChunk_] *)

Lemma splitChunk_cut pre chunk post splitAt :
  splitChunk_ (pre ++ chunk :: post) (length pre) splitAt
  = Some (pre ++ (split_halves chunk splitAt).1
              :: (split_halves chunk splitAt).2 :: post).
Proof.
  unfold splitChunk_. rewrite list_lookup_middle by reflexivity. simpl.
  destruct (split_halves chunk splitAt) as [c1 c2]. simpl.
  rewrite insert_middle.
  replace (pre ++ c1 :: post) with ((pre ++ [c1]) ++ post)
    by (by rewrite <-app_assoc).
  replace (length pre + 1) with (length (pre ++ [c1]))
    by (rewrite length_app; reflexivity).
  rewrite splice_insert_at, <-app_assoc. reflexivity.
Qed.

(** A chunk cut inside (or at its start) leaves the sequence ordered; the
    first half has the length of the cut. *)
Lemma split_halves_ordered hi chunk post off :
  ordered hi (chunk :: post) → (0 ≤ off)%Z → inside off chunk →
  ordered hi ((split_halves chunk (Fin off)).1
              :: (split_halves chunk (Fin off)).2 :: post) ∧
  finite_chunk (split_halves chunk (Fin off)).1 ∧
  finite_length (split_halves chunk (Fin off)).1 = off.
Proof.
  intros Hord Hoff Hin.
  inversion Hord as [lo0 start Hlo | lo0 start len rest0 Hlo Hlen Hrest
                     | lo0 text rest0 Hrest]; subst; cbn [split_halves fst snd].
  - split; [|split; [split; [reflexivity | exact Hoff] | reflexivity]].
    apply ordered_copy; [lia | lia |]. apply ordered_tail. lia.
  - unfold inside in Hin; simpl in Hin.
    split; [|split; [split; [reflexivity | exact Hoff] | reflexivity]].
    apply ordered_copy; [lia | lia |].
    apply ordered_copy; [lia | lia |].
    replace (start + off + (len + - off))%Z with (start + len)%Z by lia.
    assumption.
  - unfold inside in Hin; simpl in Hin.
    split; [|split; [split; [reflexivity | exact Hoff] | reflexivity]].
    rewrite <-(str_length_substr_right text off) by lia.
    pose proof (str_length_substr_left text off ltac:(lia)) as Hleft.
    rewrite <-Hleft at 2.
    apply ordered_insert, ordered_insert. assumption.
Qed.

(** ** The recorder keeps its sequence ordered *)

Lemma ordered_insert_second hi c1 c2 post text :
  ordered hi (c1 :: c2 :: post) →
  ordered hi (c1 :: InsertChunk text (str_length text) :: c2 :: post).
Proof.
  inversion 1; subst.
  - apply ordered_copy; [assumption..|]. by apply ordered_insert.
  - by do 2 apply ordered_insert.
Qed.

Lemma ordered_drop_head lo c rest :
  rest ≠ [] → ordered lo (c :: rest) → ordered lo rest.
Proof.
  intros Hne H.
  inversion H; subst;
    [congruence | eapply ordered_weaken; [eassumption | lia] | assumption].
Qed.

Lemma applyInsert_ordered lo chunks_ index text :
  ordered lo chunks_ → (0 ≤ index)%Z →
  ∃ chunks', applyInsert (Fin index) text chunks_ = Some chunks' ∧
             ordered lo chunks'.
Proof.
  intros Hord Hidx.
  destruct (findChunk_loop_ordered _ _ Hord 0 0%Z index ltac:(lia))
    as (pre & chunk & post & off & -> & Hfind & _ & Hoff & _ & Hin).
  destruct (ordered_app_inv pre lo (chunk :: post) ltac:(done) Hord)
    as (_ & hi & _ & Hrest & Hctx).
  destruct (split_halves_ordered _ _ _ _ Hrest Hoff Hin) as (Hsplit & _ & _).
  unfold applyInsert, findChunk_. rewrite Hfind. simpl.
  rewrite splitChunk_cut. simpl.
  set (c1 := (split_halves chunk (Fin off)).1) in *.
  set (c2 := (split_halves chunk (Fin off)).2) in *.
  eexists. split; [reflexivity|].
  replace (pre ++ c1 :: c2 :: post) with ((pre ++ [c1]) ++ c2 :: post)
    by (by rewrite <-app_assoc).
  replace (length pre + 1) with (length (pre ++ [c1]))
    by (rewrite length_app; reflexivity).
  rewrite splice_insert_at, <-app_assoc. simpl.
  apply Hctx. by apply ordered_insert_second.
Qed.

Lemma applyDelete_ordered lo chunks_ startIndex endIndex :
  ordered lo chunks_ → (0 ≤ startIndex ≤ endIndex)%Z →
  ∃ chunks', applyDelete (Fin startIndex) (Fin endIndex) chunks_ = Some chunks' ∧
             ordered lo chunks'.
Proof.
  intros Hord Hidx. unfold applyDelete. simpl.
  destruct (Z.eqb_spec startIndex endIndex) as [Heq | Hne]; [by eauto|].
  (* the cut at [startIndex] *)
  destruct (findChunk_loop_ordered _ _ Hord 0 0%Z startIndex ltac:(lia))
    as (pre & chunk & post & off & -> & Hfind & Hpre & Hoff & Hsum & Hin).
  destruct (ordered_app_inv pre lo (chunk :: post) ltac:(done) Hord)
    as (_ & hi & _ & Hrest & Hctx).
  destruct (split_halves_ordered _ _ _ _ Hrest Hoff Hin)
    as (Hsplit & Hc1 & Hc1len).
  unfold findChunk_. rewrite Hfind. simpl.
  rewrite splitChunk_cut. simpl.
  set (c1 := (split_halves chunk (Fin off)).1) in *.
  set (c2 := (split_halves chunk (Fin off)).2) in *.
  (* the cut at [endIndex] lies after the first half *)
  assert (Hpre1 : Forall finite_chunk (pre ++ [c1])).
  { apply Forall_app. split; [assumption | by constructor]. }
  assert (Hlen1 : total_length (pre ++ [c1]) = startIndex).
  { rewrite total_length_app. simpl. lia. }
  destruct (ordered_app_inv [c1] hi (c2 :: post) ltac:(done) Hsplit)
    as (_ & hi1 & _ & Htail & Hctx1).
  destruct (findChunk_loop_ordered _ _ Htail (0 + length (pre ++ [c1]))
              (0 + total_length (pre ++ [c1]))%Z endIndex ltac:(lia))
    as (mid & d & post2 & off2 & Hcut & Hfind2 & _ & Hoff2 & _ & Hin2).
  replace (pre ++ c1 :: c2 :: post) with ((pre ++ [c1]) ++ c2 :: post)
    by (by rewrite <-app_assoc).
  rewrite findChunk_loop_skip by (assumption || lia).
  rewrite Hfind2. simpl. rewrite Hcut.
  replace ((pre ++ [c1]) ++ mid ++ d :: post2)
    with (((pre ++ [c1]) ++ mid) ++ d :: post2) by (by rewrite <-app_assoc).
  replace (length (pre ++ [c1]) + length mid)
    with (length ((pre ++ [c1]) ++ mid)) by (by rewrite length_app).
  rewrite splitChunk_cut. simpl.
  set (d1 := (split_halves d (Fin off2)).1) in *.
  set (d2 := (split_halves d (Fin off2)).2) in *.
  eexists. split; [reflexivity|].
  (* what is removed is [mid] and the first half of the second cut *)
  replace (((pre ++ [c1]) ++ mid) ++ d1 :: d2 :: post2)
    with ((pre ++ [c1]) ++ (mid ++ [d1]) ++ d2 :: post2)
    by (by rewrite <-!app_assoc).
  replace (length pre + 1) with (length (pre ++ [c1]))
    by (rewrite length_app; reflexivity).
  replace (length ((pre ++ [c1]) ++ mid) + 1 - length (pre ++ [c1]))
    with (length (mid ++ [d1])) by (rewrite !length_app; simpl; lia).
  rewrite splice_remove_at, <-app_assoc. simpl.
  apply Hctx.
  rewrite Hcut in Htail.
  destruct (ordered_app_inv mid hi1 (d :: post2) ltac:(done) Htail)
    as (_ & hi2 & Hhi2 & Hd & _).
  destruct (split_halves_ordered _ _ _ _ Hd Hoff2 Hin2) as (Hsplit2 & _ & _).
  fold d1 d2 in Hsplit2.
  apply ordered_drop_head in Hsplit2; [|done].
  apply Hctx1. eapply ordered_weaken; [exact Hsplit2 | lia].
Qed.

Lemma record_ordered lo chunks_ edit :
  ordered lo chunks_ → well_formed edit →
  ∃ chunks', record chunks_ edit = Some chunks' ∧ ordered lo chunks'.
Proof.
  intros Hord Hwf. destruct edit as [index text | startIndex endIndex]; simpl in *.
  - by apply applyInsert_ordered.
  - by apply applyDelete_ordered.
Qed.

Lemma record_all_ordered lo edits : ∀ chunks_,
  ordered lo chunks_ → Forall well_formed edits →
  ∃ chunks', record_all chunks_ edits = Some chunks' ∧ ordered lo chunks'.
Proof.
  induction edits as [|edit edits IH]; intros chunks_ Hord Hwf; simpl.
  - eauto.
  - inversion Hwf as [|e es Hedit Hedits]; subst.
    destruct (record_ordered _ _ _ Hord Hedit) as (chunks1 & -> & Hord1). simpl.
    by apply IH.
Qed.

Lemma SimpleDiffer_ordered : ordered 0 SimpleDiffer.
Proof. apply ordered_tail. lia. Qed.

(** ** [mergeInserts_] *)

(** An insert chunk of an ordered sequence has the length of its text; it
    may be given another text, or be taken out. *)
Lemma ordered_at_insert lo chunks_ p text len :
  ordered lo chunks_ → chunks_ !! p = Some (InsertChunk text len) →
  len = str_length text ∧
  (∀ text', ordered lo (<[p := InsertChunk text' (str_length text')]> chunks_)) ∧
  ordered lo (splice chunks_ p 1 []).
Proof.
  intros Hord Hp. destruct (lookup_cut _ _ _ Hp) as [Hcut Hlen].
  remember (take p chunks_) as pre eqn:Hpre.
  remember (drop (S p) chunks_) as post eqn:Hpost.
  clear Hpre Hpost Hp. subst chunks_ p.
  destruct (ordered_app_inv pre lo (InsertChunk text len :: post)
              ltac:(done) Hord) as (_ & hi & _ & Hrest & Hctx).
  inversion Hrest as [| | lo0 text0 rest0 Hpost]; subst.
  split; [reflexivity|]. split.
  - intros text'. rewrite insert_middle. by apply Hctx, ordered_insert.
  - rewrite splice_remove_one. by apply Hctx.
Qed.

Lemma splice_remove_lookup_lt {A} (l : list A) i p :
  p < i → splice l i 1 [] !! p = l !! p.
Proof.
  intros Hlt. unfold splice. simpl.
  destruct (decide (p < length l)) as [Hin | Hout].
  - rewrite lookup_app_l by (rewrite length_take; lia).
    by apply lookup_take_lt.
  - rewrite (lookup_ge_None_2 l) by lia. apply lookup_ge_None_2.
    rewrite length_app, length_take, length_drop. lia.
Qed.

Lemma splice_remove_length {A} (l : list A) i :
  i < length l → length (splice l i 1 []) = length l - 1.
Proof.
  intros Hlt. unfold splice. simpl.
  rewrite length_app, length_take, length_drop. lia.
Qed.

(** The loop ends before its fuel does, and leaves the sequence ordered.
    [prevInsert] refers to an insert chunk before [i]. *)
Lemma mergeInserts_loop_ordered lo fuel : ∀ chunks_ i prevInsert,
  ordered lo chunks_ → length chunks_ - i ≤ fuel →
  (∀ p, prevInsert = Some p →
        p < i ∧ ∃ text len, chunks_ !! p = Some (InsertChunk text len)) →
  ∃ chunks', mergeInserts_loop fuel chunks_ i prevInsert = Some chunks' ∧
             ordered lo chunks'.
Proof.
  induction fuel as [|fuel IH]; intros chunks_ i prevInsert Hord Hfuel Hprev.
  - simpl. destruct (decide (i < length chunks_)); [lia | eauto].
  - simpl. destruct (decide (i < length chunks_)) as [Hi | Hi]; [|eauto].
    destruct (lookup_lt_is_Some_2 chunks_ i Hi) as [chunk Hchunk].
    rewrite Hchunk. destruct chunk as [start len | text len].
    { (* a copy chunk *)
      apply IH; [assumption | lia | discriminate]. }
    destruct (ordered_at_insert _ _ _ _ _ Hord Hchunk) as (-> & Hset & Hdel).
    destruct (String.eqb text "") eqn:Hempty.
    { (* an empty insert chunk is taken out; [i] moves on all the same *)
      apply IH; [assumption | rewrite splice_remove_length by done; lia |].
      intros p' Hp'. destruct prevInsert as [p|]; [|discriminate].
      destruct (Hprev p eq_refl) as (Hlt & ptext & plength & Hp).
      simpl in Hp'. injection Hp' as <-.
      unfold shift_removed. destruct (decide (i < p)); [lia|].
      split; [lia|]. exists ptext, plength.
      by rewrite splice_remove_lookup_lt. }
    destruct prevInsert as [p|].
    + (* merged into [prevInsert] *)
      destruct (Hprev p eq_refl) as (Hlt & ptext & plength & Hp).
      destruct (ordered_at_insert _ _ _ _ _ Hord Hp) as (-> & Hset' & _).
      unfold append_to_insert. rewrite Hp. simpl.
      change (Fin (Z.of_nat (String.length ptext) + Z.of_nat (String.length text)))
        with (num_add (str_length ptext) (str_length text)).
      rewrite str_length_append.
      set (chunks1 := <[p:=InsertChunk (ptext +:+ text) _]> chunks_).
      assert (Hchunk1 : chunks1 !! i = Some (InsertChunk text (str_length text))).
      { unfold chunks1. rewrite list_lookup_insert_ne by lia. assumption. }
      destruct (ordered_at_insert _ _ _ _ _ (Hset' (ptext +:+ text)) Hchunk1)
        as (_ & _ & Hdel1).
      assert (Hlen1 : length chunks1 = length chunks_)
        by apply length_insert.
      apply IH; [assumption | rewrite splice_remove_length by lia; lia |].
      intros p' [= <-].
      unfold shift_removed. destruct (decide (i < p)); [lia|].
      split; [lia|]. eexists _, _.
      rewrite splice_remove_lookup_lt by lia.
      unfold chunks1. apply list_lookup_insert_eq. lia.
    + (* the first insert chunk of a run *)
      apply IH; [assumption | lia |].
      intros p' [= <-]. split; [lia | eauto].
Qed.

Lemma mergeInserts_ordered lo chunks_ :
  ordered lo chunks_ →
  ∃ chunks', mergeInserts_ chunks_ = Some chunks' ∧ ordered lo chunks'.
Proof.
  intros Hord. apply mergeInserts_loop_ordered; [assumption | lia | discriminate].
Qed.

(** ** The first loop of [getSimpleDiff] *)

Lemma diff_state_cons chunk chunks_ :
  diff_state (chunk :: chunks_) = diff_step (diff_state chunks_) chunk.
Proof. unfold diff_state. by rewrite reverse_cons, foldl_app. Qed.

(** The first loop leaves a finite [lastCopyCharIndex], and actions that are
    finite, start at or after it, and go downward. *)
Lemma diff_state_ordered lo chunks_ :
  ordered lo chunks_ →
  ∃ last simpleDiff,
    diff_state chunks_ = (Fin last, simpleDiff) ∧ (lo ≤ last)%Z ∧
    Forall finite_action simpleDiff ∧
    Forall (λ a, last ≤ action_lo a)%Z simpleDiff ∧
    StronglySorted below simpleDiff.
Proof.
  induction 1 as [lo start Hlo | lo start len rest Hlo Hlen Hrest IH
                  | lo text rest Hrest IH].
  - exists start, []. repeat split; try constructor. exact Hlo.
  - destruct IH as (last & diff & Hst & Hlast & Hfin & Hlow & Hsort).
    rewrite diff_state_cons, Hst. simpl.
    destruct (Z.ltb_spec 0 (last + - (start + len))) as [Hgap | Hgap].
    + eexists start, _. split; [reflexivity|]. split; [exact Hlo|].
      split; [|split].
      * apply Forall_app. split; [assumption|].
        constructor; [simpl; lia | constructor].
      * apply Forall_app. split.
        -- eapply Forall_impl; [exact Hlow|]. simpl. intros; lia.
        -- constructor; [unfold action_lo; simpl; lia | constructor].
      * apply StronglySorted_app. split; [|split; [assumption|]].
        -- intros x1 x2 Hx1 Hx2. apply list_elem_of_singleton in Hx2 as ->.
           rewrite Forall_forall in Hlow. specialize (Hlow _ Hx1).
           unfold below, action_hi. simpl. lia.
        -- repeat constructor.
    + exists start, diff. split; [reflexivity|]. split; [exact Hlo|].
      split; [assumption|]. split; [|assumption].
      eapply Forall_impl; [exact Hlow|]. simpl. intros; lia.
  - destruct IH as (last & diff & Hst & Hlast & Hfin & Hlow & Hsort).
    rewrite diff_state_cons, Hst. simpl.
    eexists last, _. split; [reflexivity|]. split; [exact Hlast|].
    split; [|split].
    * apply Forall_app. split; [assumption|]. by repeat constructor.
    * apply Forall_app. split; [assumption|].
      constructor; [unfold action_lo; simpl; lia | constructor].
    * apply StronglySorted_app. split; [|split; [assumption|]].
      -- intros x1 x2 Hx1 Hx2. apply list_elem_of_singleton in Hx2 as ->.
         rewrite Forall_forall in Hlow. specialize (Hlow _ Hx1).
         unfold below, action_hi. simpl. lia.
      -- repeat constructor.
Qed.

(** ** The second loop of [getSimpleDiff] *)

Lemma num_eq_fin_true x y : num_eq (Fin x) (Fin y) = true → x = y.
Proof. simpl. apply Z.eqb_eq. Qed.

Lemma num_eq_fin_false x y : num_eq (Fin x) (Fin y) = false → Fin x ≠ Fin y.
Proof. simpl. intros H%Z.eqb_neq. congruence. Qed.

Lemma finite_delete_inv start end_ :
  finite_action (DeleteAction start end_) →
  ∃ s e, start = Fin s ∧ end_ = Fin e ∧ (s < e)%Z.
Proof. destruct start, end_; simpl; try tauto. eauto. Qed.

(** With [front] still to be visited and [back] done, the loop ends with a
    list that is finite, goes downward, and in which no delete starts where
    the one after it ends. *)
Lemma mergeDeletes_loop_sorted front : ∀ back prevDelete,
  Forall finite_action (front ++ back) →
  StronglySorted below (front ++ back) →
  separated back →
  prevDelete_ok prevDelete (length front) back →
  ∃ out, mergeDeletes_loop (length front) (front ++ back) prevDelete = Some out ∧
         Forall finite_action out ∧ StronglySorted below out ∧ separated out.
Proof.
  induction front as [|a front IH] using rev_ind;
    intros back prevDelete Hfin Hsort Hsep Hprev.
  { simpl. eauto. }
  rewrite length_app, Nat.add_1_r in Hprev |- *. cbn [mergeDeletes_loop].
  rewrite <-app_assoc in *. cbn [app] in *.
  rewrite list_lookup_middle by reflexivity.
  assert (Hkeep : ∀ prev', prevDelete_ok prev' (length front) (a :: back) →
            separated (a :: back) →
            ∃ out, mergeDeletes_loop (length front) (front ++ a :: back) prev'
                   = Some out ∧
              Forall finite_action out ∧ StronglySorted below out ∧ separated out).
  { intros prev' Hprev' Hsep'. by apply IH. }
  destruct a as [start end_ | start text].
  2: { (* an insert: [prevDelete] is forgotten *)
    apply Hkeep; [exact I|]. split; [|assumption].
    destruct back; simpl; tauto. }
  assert (Hnew : prevDelete_ok (Some (length front)) (length front)
                   (DeleteAction start end_ :: back)).
  { split; [reflexivity | eauto]. }
  destruct prevDelete as [p|].
  2: { (* no [prevDelete]: this delete becomes it *)
    apply Hkeep; [exact Hnew|]. split; [|assumption].
    destruct back as [|[]]; simpl in *; tauto. }
  destruct Hprev as (-> & pstart & pend & rest & ->).
  replace (front ++ DeleteAction start end_ :: DeleteAction pstart pend :: rest)
    with ((front ++ [DeleteAction start end_]) ++ DeleteAction pstart pend :: rest)
    by (by rewrite <-app_assoc).
  assert (Hlen : S (length front) = length (front ++ [DeleteAction start end_]))
    by (rewrite length_app; simpl; lia).
  rewrite (list_lookup_middle _ _ _ _ Hlen).
  (* the offsets are finite *)
  apply Forall_app in Hfin as [Hfront Hfin].
  apply Forall_cons in Hfin as [Ha Hfin].
  apply Forall_cons in Hfin as [Hp Hrest].
  destruct (finite_delete_inv _ _ Ha) as (s & e & -> & -> & Hse).
  destruct (finite_delete_inv _ _ Hp) as (ps & pe & -> & -> & Hpse).
  destruct (num_eq (Fin pe) (Fin s)) eqn:Heq.
  - (* merged into [prevDelete], and taken out *)
    apply num_eq_fin_true in Heq as ->.
    assert (Hset : ∀ y, <[S (length front) := y]>
               ((front ++ [DeleteAction (Fin s) (Fin e)])
                  ++ DeleteAction (Fin ps) (Fin s) :: rest)
             = (front ++ [DeleteAction (Fin s) (Fin e)]) ++ y :: rest)
      by (intros y; rewrite Hlen; apply insert_middle).
    rewrite Hset, <-app_assoc. cbn [app].
    rewrite splice_remove_one.
    unfold shift_removed. destruct (decide (length front < S (length front)));
      [|lia].
    replace (S (length front) - 1) with (length front) by lia.
    apply IH.
    + apply Forall_app. split; [assumption|].
      constructor; [simpl; lia | assumption].
    + apply StronglySorted_app in Hsort as (Hcross & Hsf & Hsb).
      apply StronglySorted_cons in Hsb as (Hab & Hsb).
      apply StronglySorted_cons in Hsb as (Hpb & Hsb).
      apply StronglySorted_app. split; [|split; [assumption|]].
      * intros x1 x2 Hx1 Hx2. apply elem_of_cons in Hx2 as [-> | Hx2].
        -- specialize (Hcross x1 (DeleteAction (Fin s) (Fin e)) Hx1
                         ltac:(by left)).
           unfold below, action_hi in *. simpl in *. lia.
        -- apply Hcross; [assumption|]. by do 2 right.
      * apply StronglySorted_cons. split; [|assumption].
        eapply Forall_impl; [exact Hpb|]. intros y. unfold below, action_lo.
        simpl. lia.
    + destruct Hsep as [Hadj Hsep]. split; [|assumption].
      destruct rest as [|[]]; simpl in *; tauto.
    + split; [reflexivity | eauto].
  - (* kept: it does not start where [prevDelete] ends *)
    rewrite <-app_assoc. cbn [app].
    apply Hkeep; [exact Hnew|]. split; [|assumption].
    simpl. intros Hcontra. by apply num_eq_fin_false in Heq.
Qed.

Lemma mergeDeletes_sorted simpleDiff :
  Forall finite_action simpleDiff → StronglySorted below simpleDiff →
  ∃ out, mergeDeletes_loop (length simpleDiff) simpleDiff None = Some out ∧
         Forall finite_action out ∧ StronglySorted below out ∧ separated out.
Proof.
  intros Hfin Hsort.
  destruct (mergeDeletes_loop_sorted simpleDiff [] None) as (out & Hout & H);
    rewrite ?app_nil_r; try done.
  rewrite app_nil_r in Hout. eauto.
Qed.

(** ** [getSimpleDiff] always returns *)

(** On any sequence whatever the loop of [mergeInserts_] ends before its
    fuel does, and what [prevInsert] refers to is an insert chunk. *)
Lemma mergeInserts_loop_total fuel : ∀ chunks_ i prevInsert,
  length chunks_ - i ≤ fuel →
  (∀ p, prevInsert = Some p →
        p < i ∧ ∃ text len, chunks_ !! p = Some (InsertChunk text len)) →
  is_Some (mergeInserts_loop fuel chunks_ i prevInsert).
Proof.
  induction fuel as [|fuel IH]; intros chunks_ i prevInsert Hfuel Hprev.
  - simpl. destruct (decide (i < length chunks_)); [lia | eauto].
  - simpl. destruct (decide (i < length chunks_)) as [Hi | Hi]; [|eauto].
    destruct (lookup_lt_is_Some_2 chunks_ i Hi) as [chunk Hchunk].
    rewrite Hchunk. destruct chunk as [start len | text len].
    { apply IH; [lia | discriminate]. }
    destruct (String.eqb text "").
    { apply IH; [rewrite splice_remove_length by done; lia |].
      intros p' Hp'. destruct prevInsert as [p|]; [|discriminate].
      destruct (Hprev p eq_refl) as (Hlt & ptext & plen & Hp).
      simpl in Hp'. injection Hp' as <-.
      unfold shift_removed. destruct (decide (i < p)); [lia|].
      split; [lia|]. exists ptext, plen. by rewrite splice_remove_lookup_lt. }
    destruct prevInsert as [p|].
    + destruct (Hprev p eq_refl) as (Hlt & ptext & plen & Hp).
      unfold append_to_insert. rewrite Hp. simpl.
      apply IH.
      * rewrite splice_remove_length by (rewrite length_insert; lia).
        rewrite length_insert. lia.
      * intros p' [= <-].
        unfold shift_removed. destruct (decide (i < p)); [lia|].
        split; [lia|]. eexists _, _.
        rewrite splice_remove_lookup_lt by lia.
        apply list_lookup_insert_eq. lia.
    + apply IH; [lia|]. intros p' [= <-]. split; [lia | eauto].
Qed.

(** The second loop reads only indices that are in the array. *)
Lemma mergeDeletes_loop_total n : ∀ simpleDiff prevDelete,
  n ≤ length simpleDiff →
  (∀ p, prevDelete = Some p → p = n ∧ n < length simpleDiff) →
  is_Some (mergeDeletes_loop n simpleDiff prevDelete).
Proof.
  induction n as [|i IH]; intros simpleDiff prevDelete Hn Hprev; simpl; [eauto|].
  destruct (lookup_lt_is_Some_2 simpleDiff i ltac:(lia)) as [action Haction].
  rewrite Haction.
  assert (Hkeep : is_Some (mergeDeletes_loop i simpleDiff (Some i))).
  { apply IH; [lia|]. intros p [= <-]. split; [reflexivity | lia]. }
  destruct action as [start end_ | start text].
  2: { apply IH; [lia | discriminate]. }
  destruct prevDelete as [p|]; [|exact Hkeep].
  destruct (Hprev p eq_refl) as [-> Hp].
  destruct (lookup_lt_is_Some_2 simpleDiff (S i) Hp) as [prev Hlook].
  rewrite Hlook. destruct prev as [pstart pend | pstart ptext]; [|exact Hkeep].
  destruct (num_eq pend start); [|exact Hkeep].
  apply IH.
  - rewrite splice_remove_length by (rewrite length_insert; lia).
    rewrite length_insert. lia.
  - intros p [= <-]. unfold shift_removed.
    destruct (decide (i < S i)); [|lia]. split; [lia|].
    rewrite splice_remove_length by (rewrite length_insert; lia).
    rewrite length_insert. lia.
Qed.

Lemma getSimpleDiff_total chunks_ : is_Some (getSimpleDiff chunks_).
Proof.
  unfold getSimpleDiff.
  destruct (mergeInserts_loop_total (length chunks_) chunks_ 0 None)
    as [chunks1 Hmerge]; [lia | discriminate |].
  unfold mergeInserts_. rewrite Hmerge. simpl.
  destruct (mergeDeletes_loop_total (length (diff_chunks chunks1))
              (diff_chunks chunks1) None) as [diff Hdiff];
    [lia | discriminate |].
  rewrite Hdiff. simpl. eauto.
Qed.

(** ** [getSimpleDiff] on an ordered sequence *)

Lemma getSimpleDiff_ordered lo chunks_ :
  ordered lo chunks_ →
  ∃ chunks' simpleDiff,
    getSimpleDiff chunks_ = Some (chunks', simpleDiff) ∧
    ordered lo chunks' ∧
    Forall finite_action simpleDiff ∧ StronglySorted below simpleDiff ∧
    separated simpleDiff.
Proof.
  intros Hord. unfold getSimpleDiff.
  destruct (mergeInserts_ordered _ _ Hord) as (chunks1 & -> & Hord1). simpl.
  destruct (diff_state_ordered _ _ Hord1) as (last & diff & Hst & _ & Hfin & _ & Hsort).
  unfold diff_chunks. rewrite Hst. simpl.
  destruct (mergeDeletes_sorted _ Hfin Hsort) as (out & -> & Hfin' & Hsort' & Hsep).
  simpl. eauto 10.
Qed.

(** A well-formed series of calls on a fresh recorder has a diff. *)
Lemma diff_of_well_formed edits :
  Forall well_formed edits →
  ∃ simpleDiff,
    diff_of edits = Some simpleDiff ∧
    Forall finite_action simpleDiff ∧ StronglySorted below simpleDiff ∧
    separated simpleDiff.
Proof.
  intros Hwf. unfold diff_of.
  destruct (record_all_ordered _ _ _ SimpleDiffer_ordered Hwf)
    as (chunks_ & -> & Hord). simpl.
  destruct (getSimpleDiff_ordered _ _ Hord)
    as (chunks' & diff & -> & _ & Hfin & Hsort & Hsep).
  simpl. eauto.
Qed.

(** ** Overlap and adjacency in a list that goes downward *)

(** A point overlaps the span it lies strictly inside of; it does not
    overlap a span that starts or ends at it, nor another point. *)
Example overlaps_examples :
  overlaps (InsertAction (Fin 3) "X") (DeleteAction (Fin 2) (Fin 5)) = true ∧
  overlaps (DeleteAction (Fin 2) (Fin 5)) (DeleteAction (Fin 4) (Fin 7)) = true ∧
  overlaps (InsertAction (Fin 3) "X") (DeleteAction (Fin 3) (Fin 5)) = false ∧
  overlaps (InsertAction (Fin 3) "X") (DeleteAction (Fin 2) (Fin 3)) = false ∧
  overlaps (InsertAction (Fin 3) "X") (InsertAction (Fin 3) "Y") = false ∧
  adjacent (DeleteAction (Fin 3) (Fin 5)) (DeleteAction (Fin 2) (Fin 3)) = true.
Proof. repeat split; reflexivity. Qed.





(** ** Boundary cases *)


(** After well-formed calls [findChunk_] never reports the end of a chunk:
    the offset is short of the chunk's length, so the only chunk boundary a
    split is asked for is offset 0. *)
Lemma findChunk_offset_inside edits :
  Forall well_formed edits →
  ∃ chunks_,
    record_all SimpleDiffer edits = Some chunks_ ∧
    ∀ target, (0 ≤ target)%Z →
      ∃ i off chunk,
        findChunk_ chunks_ (Fin target) = Some (i, Fin off) ∧
        chunks_ !! i = Some chunk ∧ (0 ≤ off)%Z ∧ inside off chunk.
Proof.
  intros Hwf.
  destruct (record_all_ordered _ _ _ SimpleDiffer_ordered Hwf)
    as (chunks_ & Hrec & Hord).
  exists chunks_. split; [assumption|]. intros target Htarget.
  destruct (findChunk_loop_ordered _ _ Hord 0 0%Z target ltac:(lia))
    as (pre & chunk & post & off & -> & Hfind & _ & Hoff & _ & Hin).
  exists (length pre), off, chunk.
  split; [exact Hfind|]. split; [by apply list_lookup_middle | done].
Qed.

Lemma applyDelete_same chunks_ i : applyDelete (Fin i) (Fin i) chunks_ = Some chunks_.
Proof. unfold applyDelete. by rewrite num_eq_refl_fin. Qed.

Lemma split_halves_0 chunk :
  split_halves chunk (Fin 0)
  = (match chunk with
     | CopyChunk start _ => CopyChunk start (Fin 0)
     | InsertChunk _ _ => InsertChunk "" (Fin 0)
     end, chunk).
Proof.
  destruct chunk as [start len | text len]; unfold split_halves.
  - by rewrite num_add_0_r, num_sub_0_r.
  - rewrite num_sub_0_r. unfold substr, substr_start, clamp_index. simpl.
    replace (Z.to_nat (0 `min` Z.of_nat (String.length text))) with 0 by lia.
    replace (Z.to_nat ((0 `max` 0) `min` Z.of_nat (String.length text)))
      with 0 by lia.
    by rewrite Nat.min_0_l, substring_0_0, Nat.sub_0_r, substring_0_length.
Qed.

(** Edits that are within the text as it is when they are made are
    well-formed. *)
Lemma all_in_range_well_formed edits : ∀ base,
  all_in_range base edits = true → Forall well_formed edits.
Proof.
  induction edits as [|edit edits IH]; intros base Hrange; [constructor|].
  simpl in Hrange. apply andb_prop in Hrange as [Hedit Hrange].
  constructor; [|by eapply IH].
  destruct edit as [index text | startIndex endIndex]; simpl in *.
  - apply andb_prop in Hedit as [H0 _]. lia.
  - apply andb_prop in Hedit as [Hedit _].
    apply andb_prop in Hedit as [H0 H1]. lia.
Qed.


(** * The claims *)

(** C1: the round trip, replaying the diff on the base against making the
    edits on the base directly, evaluated where the code breaks it.  The
    three inserts are within the text "abcdef" as it grows.  The third one
    lands at the start of the insert chunk "X", so the split leaves an empty
    insert chunk behind "A".  [mergeInserts_] removes the empty chunk without
    stepping back, passes over "Y", and appends "X" and "B" to "A": the diff
    puts "Y" after "AXB", the edits put it after "A". *)
Theorem round_trip_broken_by_skipped_chunk :
  all_in_range "abcdef" skipping_edits = true ∧
  record_all SimpleDiffer skipping_edits
  = Some [CopyChunk (Fin 0) (Fin 0); InsertChunk "A" (Fin 1);
          InsertChunk "" (Fin 0); InsertChunk "Y" (Fin 1);
          InsertChunk "X" (Fin 1); InsertChunk "B" (Fin 1);
          CopyChunk (Fin 0) PInf] ∧
  mergeInserts_
    [CopyChunk (Fin 0) (Fin 0); InsertChunk "A" (Fin 1);
     InsertChunk "" (Fin 0); InsertChunk "Y" (Fin 1);
     InsertChunk "X" (Fin 1); InsertChunk "B" (Fin 1);
     CopyChunk (Fin 0) PInf]
  = Some [CopyChunk (Fin 0) (Fin 0); InsertChunk "AXB" (Fin 3);
          InsertChunk "Y" (Fin 1); CopyChunk (Fin 0) PInf] ∧
  diff_of skipping_edits
  = Some [InsertAction (Fin 0) "Y"; InsertAction (Fin 0) "AXB"] ∧
  replay "abcdef" [InsertAction (Fin 0) "Y"; InsertAction (Fin 0) "AXB"]
  = "AXBYabcdef" ∧
  edit_all "abcdef" skipping_edits = "AYXBabcdef".
Proof. repeat split; vm_compute; reflexivity. Qed.




(** C3, as stated, fails: the first [applyInsert(0, "a")] on a fresh recorder
    asks for a split at offset 0 of chunk 0, a chunk boundary; [splitChunk_]
    changes the sequence, and a chunk of length zero is in it afterwards. *)
Lemma boundary_split_changes_sequence :
  findChunk_ SimpleDiffer (Fin 0) = Some (0, Fin 0) ∧
  splitChunk_ SimpleDiffer 0 (Fin 0)
  = Some [CopyChunk (Fin 0) (Fin 0); CopyChunk (Fin 0) PInf] ∧
  splitChunk_ SimpleDiffer 0 (Fin 0) ≠ Some SimpleDiffer ∧
  applyInsert (Fin 0) "a" SimpleDiffer
  = Some [CopyChunk (Fin 0) (Fin 0); InsertChunk "a" (Fin 1);
          CopyChunk (Fin 0) PInf] ∧
  existsb zero_length
    [CopyChunk (Fin 0) (Fin 0); InsertChunk "a" (Fin 1); CopyChunk (Fin 0) PInf]
  = true.
Proof. repeat split; try (vm_compute; reflexivity). discriminate. Qed.

(** C3, amended: a split at offset 0 of a chunk is not a no-op.  The chunk
    at [chunkIndex] becomes a chunk of the same type and of length zero (with
    the empty text, for an insert chunk), the chunk after it is the chunk as
    it was, and the rest of the sequence is unchanged. *)
Theorem splitChunk_at_boundary chunks_ chunkIndex chunk :
  chunks_ !! chunkIndex = Some chunk →
  splitChunk_ chunks_ chunkIndex (Fin 0)
  = Some (take chunkIndex chunks_ ++ empty_half chunk :: chunk
            :: drop (S chunkIndex) chunks_) ∧
  zero_length (empty_half chunk) = true.
Proof.
  intros Hchunk. split; [|by destruct chunk].
  destruct (lookup_cut _ _ _ Hchunk) as [Hcut Hlen].
  pose proof (splitChunk_cut (take chunkIndex chunks_) chunk
                (drop (S chunkIndex) chunks_) (Fin 0)) as Hsplit.
  rewrite split_halves_0, <-Hcut, Hlen in Hsplit. exact Hsplit.
Qed.

Lemma splitChunk_at_boundary_witness :
  SimpleDiffer !! 0 = Some (CopyChunk (Fin 0) PInf) ∧
  splitChunk_ SimpleDiffer 0 (Fin 0)
  = Some (take 0 SimpleDiffer ++ empty_half (CopyChunk (Fin 0) PInf)
            :: CopyChunk (Fin 0) PInf :: drop 1 SimpleDiffer) ∧
  zero_length (empty_half (CopyChunk (Fin 0) PInf)) = true.
Proof.
  split; [reflexivity|].
  exact (splitChunk_at_boundary SimpleDiffer 0 (CopyChunk (Fin 0) PInf) eq_refl).
Defined.

(** C4: on a fresh recorder, [applyDelete(2, 3)] and then [applyDelete(2, 4)]
    (the span [[3, 5)] of the original) make [getSimpleDiff] return the one
    delete [{start: 2, end: 5}]. *)
Theorem delete_merge_scenario :
  diff_of [DeleteEdit 2 3; DeleteEdit 2 4] = Some [DeleteAction (Fin 2) (Fin 5)].
Proof. vm_compute; reflexivity. Qed.

(** C5, as stated, fails: replaying the diff of the scenario on "abcdef"
    does not give "bcdXYef". *)
Lemma scenario_text_differs :
  ∃ simpleDiff,
    diff_of scenario_edits = Some simpleDiff ∧
    replay "abcdef" simpleDiff ≠ "bcdXYef".
Proof. eexists. split; [vm_compute; reflexivity | vm_compute; discriminate]. Qed.

(** C5, amended: after [applyInsert(3, "XY")] and [applyDelete(0, 1)] on a
    fresh recorder, [getSimpleDiff] returns the insert of "XY" at 3 and then
    the delete of [[0, 1)]; replayed in that order on "abcdef" they give
    "bcXYdef", which is also what the two edits give on "abcdef". *)
Theorem scenario_diff_and_text :
  diff_of scenario_edits
  = Some [InsertAction (Fin 3) "XY"; DeleteAction (Fin 0) (Fin 1)] ∧
  replay "abcdef" [InsertAction (Fin 3) "XY"; DeleteAction (Fin 0) (Fin 1)]
  = "bcXYdef" ∧
  edit_all "abcdef" scenario_edits = "bcXYdef".
Proof. repeat split; vm_compute; reflexivity. Qed.

(** C6, evaluated where the code breaks it: after [applyInsert(0, "A")] and
    [applyInsert(0, "")] two empty insert chunks stand side by side;
    [mergeInserts_] removes the first and steps over the second, and the
    diff holds an insert with the empty text.  So it does after calls none
    of which has an empty text, when two splits at the start of an insert
    chunk leave two empty chunks side by side. *)
Theorem empty_insert_in_diff :
  record_all SimpleDiffer [InsertEdit 0 "A"; InsertEdit 0 ""]
  = Some [CopyChunk (Fin 0) (Fin 0); InsertChunk "" (Fin 0);
          InsertChunk "" (Fin 0); InsertChunk "A" (Fin 1);
          CopyChunk (Fin 0) PInf] ∧
  diff_of [InsertEdit 0 "A"; InsertEdit 0 ""]
  = Some [InsertAction (Fin 0) "A"; InsertAction (Fin 0) ""] ∧
  record_all SimpleDiffer emptying_edits
  = Some [CopyChunk (Fin 0) (Fin 0); InsertChunk "A" (Fin 1);
          InsertChunk "" (Fin 0); InsertChunk "" (Fin 0);
          InsertChunk "X" (Fin 1); InsertChunk "B" (Fin 1);
          CopyChunk (Fin 0) PInf] ∧
  diff_of emptying_edits
  = Some [InsertAction (Fin 0) ""; InsertAction (Fin 0) "AXB"].
Proof. repeat split; vm_compute; reflexivity. Qed.

(** C7: [applyDelete(i, i)] leaves [chunks_], all there is of the recorder's
    state, as it was, whatever the state and the index. *)
Theorem applyDelete_equal_bounds (chunks_ : list Chunk) (i : Z) :
  applyDelete (Fin i) (Fin i) chunks_ = Some chunks_.
Proof. apply applyDelete_same. Qed.



(** C9: for every series of calls whose offsets are within the text as it
    is when the call is made, [getSimpleDiff] returns, and every action it
    returns has finite offsets: a delete has a finite [start] and a finite
    [end] with [start < end], an insert a finite [start].  (For the last
    chunk the gap is [Infinity - Infinity], which is [NaN] and not greater
    than 0.) *)
Theorem diff_offsets_finite base edits :
  all_in_range base edits = true →
  ∃ simpleDiff, diff_of edits = Some simpleDiff ∧ Forall finite_action simpleDiff.
Proof.
  intros Hwf%all_in_range_well_formed.
  destruct (diff_of_well_formed edits Hwf) as (diff & Hdiff & Hfin & _).
  eauto.
Qed.

Lemma diff_offsets_finite_witness :
  all_in_range "abcdef" scenario_edits = true ∧
  ∃ simpleDiff,
    diff_of scenario_edits = Some simpleDiff ∧ Forall finite_action simpleDiff.
Proof.
  split; [reflexivity|].
  exact (diff_offsets_finite "abcdef" scenario_edits eq_refl).
Defined.

(** C10: [getSimpleDiff] on a fresh recorder returns the empty list, and so
    it does after any number of [applyDelete] calls with equal bounds. *)
Theorem untouched_recorder_empty_diff :
  getSimpleDiff SimpleDiffer = Some (SimpleDiffer, []) ∧
  ∀ indices : list Z,
    diff_of ((λ i, DeleteEdit i i) <$> indices) = Some [].
Proof.
  split; [reflexivity|]. intros indices. unfold diff_of.
  assert (Hrec : ∀ chunks_,
            record_all chunks_ ((λ i, DeleteEdit i i) <$> indices) = Some chunks_).
  { induction indices as [|i indices IH]; intros chunks_; simpl; [reflexivity|].
    unfold applyDelete. simpl. rewrite Z.eqb_refl. simpl. apply IH. }
  rewrite Hrec. reflexivity.
Qed.

(** * Further properties *)

(** ** Strings as lists of characters *)

Lemma chars_inj s1 s2 : chars s1 = chars s2 → s1 = s2.
Proof.
  intros H. rewrite <-(String.string_of_list_ascii_of_string s1),
    <-(String.string_of_list_ascii_of_string s2).
  unfold chars in H. by rewrite H.
Qed.

Lemma chars_append s1 s2 : chars (s1 +:+ s2) = chars s1 ++ chars s2.
Proof. induction s1 as [|c s1 IH]; simpl; [reflexivity | by rewrite IH]. Qed.

Lemma length_chars s : length (chars s) = String.length s.
Proof. induction s as [|c s IH]; simpl; [reflexivity | by rewrite IH]. Qed.

Lemma chars_substring s : ∀ n m,
  chars (String.substring n m s) = take m (drop n (chars s)).
Proof.
  induction s as [|c s IH]; intros n m; simpl.
  - by destruct n, m.
  - destruct n as [|n]; simpl.
    + destruct m as [|m]; simpl; [reflexivity|].
      f_equal. rewrite IH. by rewrite drop_0.
    + apply IH.
Qed.

(** [text.substring(a)], [text.substring(0, b)] and [text.substring(a, b)];
    an offset that is negative counts as 0. *)
Lemma chars_substring_from s a :
  chars (js_substring s (Fin a) None) = drop (Z.to_nat a) (chars s).
Proof.
  unfold js_substring, clamp_index. rewrite chars_substring.
  set (size := String.length s).
  destruct (decide (a ≤ Z.of_nat size)%Z) as [Hle | Hgt].
  - replace (Z.to_nat ((a `max` 0) `min` Z.of_nat size)) with (Z.to_nat a) by lia.
    replace (Z.to_nat a `min` size) with (Z.to_nat a) by lia.
    replace (Z.to_nat a `max` size - Z.to_nat a) with (size - Z.to_nat a) by lia.
    apply take_ge. rewrite length_drop, length_chars. fold size. lia.
  - replace (Z.to_nat ((a `max` 0) `min` Z.of_nat size)) with size by lia.
    rewrite Nat.min_id, Nat.max_id, Nat.sub_diag, take_0.
    symmetry. apply drop_ge. rewrite length_chars. fold size. lia.
Qed.

Lemma chars_substring_range s a b :
  (0 ≤ a ≤ b)%Z →
  chars (js_substring s (Fin a) (Some (Fin b)))
  = take (Z.to_nat b - Z.to_nat a) (drop (Z.to_nat a) (chars s)).
Proof.
  intros Hab. unfold js_substring, clamp_index. rewrite chars_substring.
  set (size := String.length s).
  set (a' := Z.to_nat ((a `max` 0) `min` Z.of_nat size)).
  set (b' := Z.to_nat ((b `max` 0) `min` Z.of_nat size)).
  assert (Ha' : a' = Z.to_nat a `min` size) by lia.
  assert (Hb' : b' = Z.to_nat b `min` size) by lia.
  replace (a' `min` b') with a' by lia.
  replace (a' `max` b' - a') with (b' - a') by lia.
  assert (Hlen : length (chars s) = size) by apply length_chars.
  apply list_eq. intros i.
  rewrite !lookup_take, !lookup_drop.
  destruct (decide (i < b' - a')) as [Hi | Hi].
  - destruct (decide (i < Z.to_nat b - Z.to_nat a)); [|lia].
    f_equal. lia.
  - destruct (decide (i < Z.to_nat b - Z.to_nat a)); [|reflexivity].
    symmetry. apply lookup_ge_None_2. lia.
Qed.

Lemma chars_substring_to s b :
  chars (js_substring s (Fin 0) (Some (Fin b))) = take (Z.to_nat b) (chars s).
Proof.
  destruct (decide (0 ≤ b)%Z) as [Hb | Hb].
  - rewrite chars_substring_range by lia. simpl.
    by rewrite Nat.sub_0_r, drop_0.
  - unfold js_substring, clamp_index. rewrite chars_substring.
    replace (Z.to_nat ((b `max` 0) `min` Z.of_nat (String.length s)))
      with 0 by lia.
    replace (Z.to_nat b) with 0 by lia.
    replace (Z.to_nat ((0 `max` 0) `min` Z.of_nat (String.length s)))
      with 0 by lia.
    reflexivity.
Qed.

Lemma chars_substring_tail s a :
  chars (js_substring s (Fin a) (Some PInf)) = drop (Z.to_nat a) (chars s).
Proof. rewrite <-chars_substring_from. reflexivity. Qed.

(** The two halves [splitChunk_] makes of a text. *)
Lemma chars_substr_left text off :
  (0 ≤ off ≤ Z.of_nat (String.length text))%Z →
  chars (substr text (Fin 0) (Some (Fin off))) = take (Z.to_nat off) (chars text).
Proof.
  intros Hoff. unfold substr, substr_start, clamp_index.
  destruct (Z.ltb_spec 0 0); [lia|]. rewrite chars_substring.
  replace (Z.to_nat (0 `min` Z.of_nat (String.length text))) with 0 by lia.
  rewrite drop_0. f_equal. lia.
Qed.

Lemma chars_substr_right text off :
  (0 ≤ off ≤ Z.of_nat (String.length text))%Z →
  chars (substr text (Fin off) None) = drop (Z.to_nat off) (chars text).
Proof.
  intros Hoff. unfold substr, substr_start.
  destruct (Z.ltb_spec off 0); [lia|]. rewrite chars_substring.
  replace (Z.to_nat (off `min` Z.of_nat (String.length text)))
    with (Z.to_nat off) by lia.
  apply take_ge. rewrite length_drop, length_chars. lia.
Qed.

(** ** The text of a sound chunk sequence *)

Lemma ordered_sound size lo chunks_ :
  ordered lo chunks_ → (0 ≤ lo)%Z → Forall (fits size) chunks_ →
  Forall (sound size) chunks_.
Proof.
  induction 1 as [lo start Hlo | lo start len rest Hlo Hlen Hrest IH
                  | lo text rest Hrest IH]; intros Hpos Hfits;
    apply Forall_cons in Hfits as [Hfit Hfits]; simpl in Hfit.
  - repeat constructor; simpl; lia.
  - constructor; [simpl; lia | apply IH; [lia | assumption]].
  - constructor; [reflexivity | by apply IH].
Qed.

Lemma sound_fits size chunk : sound size chunk → fits size chunk.
Proof. destruct chunk as [[] []|]; simpl; try tauto; lia. Qed.

Lemma chars_chunk_text base chunk :
  sound (Z.of_nat (String.length base)) chunk →
  chars (chunk_text base chunk) = chunk_chars (chars base) chunk.
Proof.
  destruct chunk as [[start| | |] [len| | |]|text len]; simpl; try tauto.
  - intros (Hstart & Hlen & Hfit).
    rewrite chars_substring_range by lia. f_equal. lia.
  - intros Hstart. by rewrite chars_substring_tail.
Qed.

Lemma chars_render base chunks_ :
  Forall (sound (Z.of_nat (String.length base))) chunks_ →
  chars (render base chunks_) = render_chars (chars base) chunks_.
Proof.
  induction 1 as [|chunk chunks_ Hchunk _ IH]; simpl; [reflexivity|].
  by rewrite chars_append, chars_chunk_text, IH.
Qed.

Lemma render_chars_app base pre post :
  render_chars base (pre ++ post) = render_chars base pre ++ render_chars base post.
Proof.
  induction pre as [|c pre IH]; simpl; [reflexivity|].
  by rewrite IH, app_assoc.
Qed.

(** A finite sound chunk gives as many characters as its length says. *)
Lemma length_chunk_chars base chunk :
  sound (Z.of_nat (length base)) chunk → finite_chunk chunk →
  length (chunk_chars base chunk) = Z.to_nat (finite_length chunk).
Proof.
  destruct chunk as [[start| | |] [len| | |]|text len]; simpl; try tauto;
    unfold finite_chunk, finite_length; simpl.
  - intros (Hstart & Hlen & Hfit) _. rewrite length_take, length_drop. lia.
  - intros _ [Hinf _]. discriminate.
  - intros -> _. simpl. rewrite length_chars. lia.
Qed.

Lemma length_render_chars base pre :
  Forall (sound (Z.of_nat (length base))) pre → Forall finite_chunk pre →
  length (render_chars base pre) = Z.to_nat (total_length pre).
Proof.
  induction 1 as [|c pre Hc _ IH]; intros Hfin; simpl; [reflexivity|].
  apply Forall_cons in Hfin as [Hcfin Hfin].
  rewrite length_app, IH, length_chunk_chars by assumption.
  pose proof (total_length_nonneg _ Hfin). destruct Hcfin as [_ ?]. lia.
Qed.

(** The two halves of a chunk give the characters of the chunk, the first
    half as many as the cut says. *)
Lemma split_halves_chars base chunk off :
  sound (Z.of_nat (length base)) chunk → (0 ≤ off)%Z → inside off chunk →
  (off ≤ Z.of_nat (length (chunk_chars base chunk)))%Z →
  sound (Z.of_nat (length base)) (split_halves chunk (Fin off)).1 ∧
  sound (Z.of_nat (length base)) (split_halves chunk (Fin off)).2 ∧
  chunk_chars base chunk
  = chunk_chars base (split_halves chunk (Fin off)).1
      ++ chunk_chars base (split_halves chunk (Fin off)).2 ∧
  length (chunk_chars base (split_halves chunk (Fin off)).1) = Z.to_nat off.
Proof.
  destruct chunk as [[start| | |] [len| | |]|text len];
    unfold inside;
    cbn [split_halves fst snd sound chunk_chars chunk_length num_add num_sub
         num_neg];
    try tauto.
  - intros (Hstart & Hlen & Hfit) Hoff Hin _.
    repeat split; try lia.
    + rewrite <-(take_drop (Z.to_nat off)
                   (take (Z.to_nat len) (drop (Z.to_nat start) base))) at 1.
      rewrite take_take. f_equal; [f_equal; lia|].
      replace (Z.to_nat len) with (Z.to_nat off + Z.to_nat (len + - off)) at 1
        by lia.
      rewrite <-take_drop_commute, drop_drop. do 2 f_equal. lia.
    + rewrite length_take, length_drop. lia.
  - intros Hstart Hoff _ Hlen. rewrite length_drop in Hlen.
    repeat split; try lia.
    + rewrite <-(take_drop (Z.to_nat off) (drop (Z.to_nat start) base)) at 1.
      rewrite drop_drop. do 2 f_equal. lia.
    + rewrite length_take, length_drop. lia.
  - intros -> Hoff Hin _. unfold str_length in Hin.
    assert (Hrange : (0 ≤ off ≤ Z.of_nat (String.length text))%Z) by lia.
    split; [by rewrite str_length_substr_left|].
    split; [by rewrite str_length_substr_right|].
    rewrite chars_substr_left, chars_substr_right by lia.
    split; [by rewrite take_drop|].
    rewrite length_take, length_chars. lia.
Qed.

(** ** What [applyInsert] and [applyDelete] make of the sequence *)

(** [applyInsert] cuts the chunk that [findChunk_] finds and puts the new
    chunk between the halves. *)
Lemma applyInsert_shape lo chunks_ index text :
  ordered lo chunks_ → (0 ≤ index)%Z →
  ∃ pre chunk post off,
    chunks_ = pre ++ chunk :: post ∧
    Forall finite_chunk pre ∧ (total_length pre + off = index)%Z ∧
    (0 ≤ off)%Z ∧ inside off chunk ∧
    applyInsert (Fin index) text chunks_
    = Some (pre ++ (split_halves chunk (Fin off)).1
                :: InsertChunk text (str_length text)
                :: (split_halves chunk (Fin off)).2 :: post).
Proof.
  intros Hord Hidx.
  destruct (findChunk_loop_ordered _ _ Hord 0 0%Z index ltac:(lia))
    as (pre & chunk & post & off & -> & Hfind & Hpre & Hoff & Hsum & Hin).
  exists pre, chunk, post, off.
  split; [reflexivity|]. split; [assumption|]. split; [lia|].
  split; [assumption|]. split; [assumption|].
  unfold applyInsert, findChunk_. rewrite Hfind. simpl.
  rewrite splitChunk_cut. simpl.
  set (c1 := (split_halves chunk (Fin off)).1).
  set (c2 := (split_halves chunk (Fin off)).2).
  replace (pre ++ c1 :: c2 :: post) with ((pre ++ [c1]) ++ c2 :: post)
    by (by rewrite <-app_assoc).
  replace (length pre + 1) with (length (pre ++ [c1]))
    by (rewrite length_app; reflexivity).
  by rewrite splice_insert_at, <-app_assoc.
Qed.

(** [applyDelete] cuts at [startIndex] and at [endIndex] and removes what is
    between the first half of the one cut and the second half of the
    other. *)
Lemma applyDelete_shape lo chunks_ startIndex endIndex :
  ordered lo chunks_ → (0 ≤ startIndex < endIndex)%Z →
  ∃ pre chunk post off mid d post2 off2,
    chunks_ = pre ++ chunk :: post ∧
    Forall finite_chunk pre ∧ (total_length pre + off = startIndex)%Z ∧
    (0 ≤ off)%Z ∧ inside off chunk ∧
    (split_halves chunk (Fin off)).2 :: post = mid ++ d :: post2 ∧
    Forall finite_chunk mid ∧ (startIndex + total_length mid + off2 = endIndex)%Z ∧
    (0 ≤ off2)%Z ∧ inside off2 d ∧
    applyDelete (Fin startIndex) (Fin endIndex) chunks_
    = Some (pre ++ (split_halves chunk (Fin off)).1
                :: (split_halves d (Fin off2)).2 :: post2).
Proof.
  intros Hord Hidx. unfold applyDelete. simpl.
  destruct (Z.eqb_spec startIndex endIndex) as [Heq | Hne]; [lia|].
  destruct (findChunk_loop_ordered _ _ Hord 0 0%Z startIndex ltac:(lia))
    as (pre & chunk & post & off & -> & Hfind & Hpre & Hoff & Hsum & Hin).
  destruct (ordered_app_inv pre lo (chunk :: post) ltac:(done) Hord)
    as (_ & hi & _ & Hrest & Hctx).
  destruct (split_halves_ordered _ _ _ _ Hrest Hoff Hin)
    as (Hsplit & Hc1 & Hc1len).
  unfold findChunk_. rewrite Hfind. simpl.
  rewrite splitChunk_cut. simpl.
  set (c1 := (split_halves chunk (Fin off)).1) in *.
  set (c2 := (split_halves chunk (Fin off)).2) in *.
  assert (Hpre1 : Forall finite_chunk (pre ++ [c1])).
  { apply Forall_app. split; [assumption | by constructor]. }
  assert (Hlen1 : total_length (pre ++ [c1]) = startIndex).
  { rewrite total_length_app. simpl. lia. }
  destruct (ordered_app_inv [c1] hi (c2 :: post) ltac:(done) Hsplit)
    as (_ & hi1 & _ & Htail & Hctx1).
  destruct (findChunk_loop_ordered _ _ Htail (0 + length (pre ++ [c1]))
              (0 + total_length (pre ++ [c1]))%Z endIndex ltac:(lia))
    as (mid & d & post2 & off2 & Hcut & Hfind2 & Hmid & Hoff2 & Hsum2 & Hin2).
  exists pre, chunk, post, off, mid, d, post2, off2.
  fold c1 c2.
  split; [reflexivity|]. split; [assumption|]. split; [lia|].
  split; [assumption|]. split; [assumption|]. split; [assumption|].
  split; [assumption|]. split; [lia|]. split; [assumption|].
  split; [assumption|].
  replace (pre ++ c1 :: c2 :: post) with ((pre ++ [c1]) ++ c2 :: post)
    by (by rewrite <-app_assoc).
  rewrite findChunk_loop_skip by (assumption || lia).
  rewrite Hfind2. simpl. rewrite Hcut.
  replace ((pre ++ [c1]) ++ mid ++ d :: post2)
    with (((pre ++ [c1]) ++ mid) ++ d :: post2) by (by rewrite <-app_assoc).
  replace (length (pre ++ [c1]) + length mid)
    with (length ((pre ++ [c1]) ++ mid)) by (by rewrite length_app).
  rewrite splitChunk_cut. simpl.
  set (d1 := (split_halves d (Fin off2)).1).
  set (d2 := (split_halves d (Fin off2)).2).
  replace (((pre ++ [c1]) ++ mid) ++ d1 :: d2 :: post2)
    with ((pre ++ [c1]) ++ (mid ++ [d1]) ++ d2 :: post2)
    by (by rewrite <-!app_assoc).
  replace (length pre + 1) with (length (pre ++ [c1]))
    by (rewrite length_app; reflexivity).
  replace (length ((pre ++ [c1]) ++ mid) + 1 - length (pre ++ [c1]))
    with (length (mid ++ [d1])) by (rewrite !length_app; simpl; lia).
  by rewrite splice_remove_at, <-app_assoc.
Qed.

(** A cut at an offset of the text is a cut within the chunk: short of its
    end for a finite chunk, within the original document for the last
    chunk.  The halves give the same text, the part before the cut having
    [index] characters. *)
Lemma split_cut_sound base lo pre chunk post off index :
  ordered lo (pre ++ chunk :: post) →
  Forall (sound (Z.of_nat (length base))) (pre ++ chunk :: post) →
  Forall finite_chunk pre → (total_length pre + off = index)%Z →
  (0 ≤ off)%Z → inside off chunk →
  (index ≤ Z.of_nat (length (render_chars base (pre ++ chunk :: post))))%Z →
  ordered lo (pre ++ (split_halves chunk (Fin off)).1
                  :: (split_halves chunk (Fin off)).2 :: post) ∧
  Forall (sound (Z.of_nat (length base)))
    (pre ++ (split_halves chunk (Fin off)).1
         :: (split_halves chunk (Fin off)).2 :: post) ∧
  render_chars base (pre ++ (split_halves chunk (Fin off)).1
                         :: (split_halves chunk (Fin off)).2 :: post)
  = render_chars base (pre ++ chunk :: post) ∧
  length (render_chars base (pre ++ [(split_halves chunk (Fin off)).1]))
  = Z.to_nat index ∧
  Forall finite_chunk (pre ++ [(split_halves chunk (Fin off)).1]) ∧
  total_length (pre ++ [(split_halves chunk (Fin off)).1]) = index.
Proof.
  intros Hord Hsound Hpre Hsum Hoff Hin Hidx.
  destruct (ordered_app_inv pre lo (chunk :: post) ltac:(done) Hord)
    as (_ & hi & _ & Hrest & Hctx).
  destruct (split_halves_ordered _ _ _ _ Hrest Hoff Hin)
    as (Hsplit & Hc1 & Hc1len).
  apply Forall_app in Hsound as [Hspre Hsound].
  apply Forall_cons in Hsound as [Hschunk Hspost].
  pose proof (length_render_chars base pre Hspre Hpre) as Hlenpre.
  pose proof (total_length_nonneg _ Hpre) as Hnn.
  assert (Hwithin : (off ≤ Z.of_nat (length (chunk_chars base chunk)))%Z).
  { destruct (chunk_length chunk) as [l| | |] eqn:Hlen;
      unfold inside in Hin; rewrite Hlen in Hin; try tauto.
    - rewrite length_chunk_chars; [|assumption|].
      + unfold finite_length. rewrite Hlen. lia.
      + unfold finite_chunk, finite_length. rewrite Hlen. split; [done | lia].
    - (* the last chunk: nothing follows it *)
      assert (post = []) as ->.
      { inversion Hrest; subst; simpl in Hlen; try discriminate; reflexivity. }
      rewrite render_chars_app, length_app in Hidx. simpl in Hidx.
      rewrite app_nil_r in Hidx. lia. }
  destruct (split_halves_chars base chunk off Hschunk Hoff Hin Hwithin)
    as (Hs1 & Hs2 & Hchars & Hlen1).
  set (c1 := (split_halves chunk (Fin off)).1) in *.
  set (c2 := (split_halves chunk (Fin off)).2) in *.
  split; [by apply Hctx|]. split.
  { apply Forall_app. split; [assumption|]. by repeat constructor. }
  split.
  { rewrite !render_chars_app. simpl. by rewrite Hchars, <-app_assoc. }
  split.
  { rewrite render_chars_app, length_app. simpl.
    rewrite app_nil_r, Hlenpre, Hlen1. lia. }
  split.
  { apply Forall_app. split; [assumption | by constructor]. }
  rewrite total_length_app. simpl. lia.
Qed.

Lemma anchored_cut pre chunk c1 post rest :
  anchored (pre ++ chunk :: post) →
  (∀ len, chunk = CopyChunk (Fin 0) len → ∃ len', c1 = CopyChunk (Fin 0) len') →
  anchored (pre ++ c1 :: rest).
Proof.
  intros (len & tail & Heq) Hc1. destruct pre as [|c pre]; simpl in *.
  - injection Heq as -> _. destruct (Hc1 len eq_refl) as [len' ->].
    by eexists _, _.
  - injection Heq as -> _. by eexists _, _.
Qed.

Lemma split_halves_anchor chunk off len :
  chunk = CopyChunk (Fin 0) len →
  ∃ len', (split_halves chunk (Fin off)).1 = CopyChunk (Fin 0) len'.
Proof. intros ->. simpl. eauto. Qed.

Lemma consistent_sound base chunks_ :
  consistent base chunks_ →
  Forall (sound (Z.of_nat (length (chars base)))) chunks_.
Proof.
  intros (Hord & Hfits & _). rewrite length_chars.
  by apply (ordered_sound _ 0).
Qed.

Lemma sound_consistent base chunks_ :
  ordered 0 chunks_ → Forall (sound (Z.of_nat (length (chars base)))) chunks_ →
  anchored chunks_ → consistent base chunks_.
Proof.
  intros Hord Hsound Hanch. split; [assumption|]. split; [|assumption].
  rewrite length_chars in Hsound.
  eapply Forall_impl; [exact Hsound|]. apply sound_fits.
Qed.

Lemma chars_render_consistent base chunks_ :
  consistent base chunks_ →
  chars (render base chunks_) = render_chars (chars base) chunks_.
Proof.
  intros H. apply chars_render. apply consistent_sound in H.
  by rewrite length_chars in H.
Qed.

(** ** The sequence stands for the edited text *)

Lemma chars_edit_insert text index t :
  chars (edit_text text (InsertEdit index t))
  = take (Z.to_nat index) (chars text) ++ chars t
      ++ drop (Z.to_nat index) (chars text).
Proof.
  simpl. by rewrite !chars_append, chars_substring_to, chars_substring_from.
Qed.

Lemma chars_edit_delete text startIndex endIndex :
  chars (edit_text text (DeleteEdit startIndex endIndex))
  = take (Z.to_nat startIndex) (chars text)
      ++ drop (Z.to_nat endIndex) (chars text).
Proof.
  simpl. by rewrite chars_append, chars_substring_to, chars_substring_from.
Qed.

(** [applyInsert] on the state of a recorder, at an offset within the text
    the state stands for: afterwards the state stands for that text with
    the new text put in at the offset. *)
Lemma applyInsert_render base chunks_ index text :
  consistent base chunks_ →
  (0 ≤ index ≤ Z.of_nat (String.length (render base chunks_)))%Z →
  ∃ chunks',
    applyInsert (Fin index) text chunks_ = Some chunks' ∧
    consistent base chunks' ∧
    render base chunks' = edit_text (render base chunks_) (InsertEdit index text).
Proof.
  intros Hcons Hidx.
  pose proof (consistent_sound _ _ Hcons) as Hsound.
  pose proof (chars_render_consistent _ _ Hcons) as Hchars.
  destruct Hcons as (Hord & Hfits & Hanch).
  destruct (applyInsert_ordered 0 chunks_ index text Hord ltac:(lia))
    as (chunks' & Happ & Hord').
  destruct (applyInsert_shape 0 chunks_ index text Hord ltac:(lia))
    as (pre & chunk & post & off & -> & Hpre & Hsum & Hoff & Hin & Hshape).
  rewrite Hshape in Happ. injection Happ as <-.
  rewrite <-length_chars, Hchars in Hidx.
  destruct (split_cut_sound (chars base) 0 pre chunk post off index
              Hord Hsound Hpre Hsum Hoff Hin ltac:(lia))
    as (_ & Hsound' & Hsame & Hlen & _).
  set (c1 := (split_halves chunk (Fin off)).1) in *.
  set (c2 := (split_halves chunk (Fin off)).2) in *.
  assert (Hcons' : consistent base
            (pre ++ c1 :: InsertChunk text (str_length text) :: c2 :: post)).
  { apply sound_consistent; [assumption| |].
    - apply Forall_app in Hsound' as [Hp Hs].
      apply Forall_cons in Hs as [H1 Hs].
      apply Forall_app. split; [assumption|].
      constructor; [assumption|]. constructor; [reflexivity | assumption].
    - eapply anchored_cut; [exact Hanch|]. intros len. apply split_halves_anchor. }
  eexists. split; [exact Hshape|]. split; [exact Hcons'|].
  apply chars_inj.
  rewrite (chars_render_consistent _ _ Hcons'), chars_edit_insert.
  rewrite Hchars, <-Hsame.
  replace (pre ++ c1 :: InsertChunk text (str_length text) :: c2 :: post)
    with ((pre ++ [c1]) ++ InsertChunk text (str_length text) :: c2 :: post)
    by (by rewrite <-app_assoc).
  replace (pre ++ c1 :: c2 :: post) with ((pre ++ [c1]) ++ c2 :: post)
    by (by rewrite <-app_assoc).
  rewrite !(render_chars_app _ (pre ++ [c1])).
  rewrite take_app_length', drop_app_length' by done.
  reflexivity.
Qed.

(** [applyDelete] on the state of a recorder, for a span within the text
    the state stands for: afterwards the state stands for that text without
    the span. *)
Lemma applyDelete_render base chunks_ startIndex endIndex :
  consistent base chunks_ →
  (0 ≤ startIndex ≤ endIndex)%Z →
  (endIndex ≤ Z.of_nat (String.length (render base chunks_)))%Z →
  ∃ chunks',
    applyDelete (Fin startIndex) (Fin endIndex) chunks_ = Some chunks' ∧
    consistent base chunks' ∧
    render base chunks'
    = edit_text (render base chunks_) (DeleteEdit startIndex endIndex).
Proof.
  intros Hcons Hidx Hend.
  pose proof (chars_render_consistent _ _ Hcons) as Hchars.
  destruct (decide (startIndex = endIndex)) as [<- | Hne].
  { (* nothing to delete *)
    exists chunks_. split; [apply applyDelete_same|]. split; [assumption|].
    apply chars_inj. rewrite chars_edit_delete. by rewrite take_drop. }
  pose proof (consistent_sound _ _ Hcons) as Hsound.
  destruct Hcons as (Hord & Hfits & Hanch).
  destruct (applyDelete_ordered 0 chunks_ startIndex endIndex Hord Hidx)
    as (chunks' & Happ & Hord').
  destruct (applyDelete_shape 0 chunks_ startIndex endIndex Hord ltac:(lia))
    as (pre & chunk & post & off & mid & d & post2 & off2 & -> & Hpre & Hsum
        & Hoff & Hin & Hcut & Hmid & Hsum2 & Hoff2 & Hin2 & Hshape).
  rewrite Hshape in Happ. injection Happ as <-.
  rewrite <-length_chars, Hchars in Hend.
  (* the first cut *)
  destruct (split_cut_sound (chars base) 0 pre chunk post off startIndex
              Hord Hsound Hpre Hsum Hoff Hin ltac:(lia))
    as (Hord1 & Hsound1 & Hsame1 & Hlen1 & Hfin1 & Htot1).
  set (c1 := (split_halves chunk (Fin off)).1) in *.
  set (c2 := (split_halves chunk (Fin off)).2) in *.
  (* the second cut, in the sequence the first one leaves *)
  assert (Heq1 : pre ++ c1 :: c2 :: post = ((pre ++ [c1]) ++ mid) ++ d :: post2).
  { rewrite <-!app_assoc. simpl. by rewrite Hcut. }
  rewrite Heq1 in Hord1, Hsound1, Hsame1.
  destruct (split_cut_sound (chars base) 0 ((pre ++ [c1]) ++ mid) d post2 off2
              endIndex Hord1 Hsound1)
    as (_ & Hsound2 & Hsame2 & Hlen2 & _).
  { apply Forall_app. by split. }
  { rewrite total_length_app. lia. }
  { assumption. }
  { assumption. }
  { rewrite Hsame1. lia. }
  set (d1 := (split_halves d (Fin off2)).1) in *.
  set (d2 := (split_halves d (Fin off2)).2) in *.
  assert (Hcons' : consistent base (pre ++ c1 :: d2 :: post2)).
  { apply sound_consistent; [assumption| |].
    - apply Forall_app in Hsound2 as [Hp Hs].
      apply Forall_app in Hp as [Hp _].
      apply Forall_cons in Hs as [_ Hs].
      replace (pre ++ c1 :: d2 :: post2) with ((pre ++ [c1]) ++ d2 :: post2)
        by (by rewrite <-app_assoc).
      apply Forall_app. by split.
    - eapply anchored_cut; [exact Hanch|]. intros len. apply split_halves_anchor. }
  eexists. split; [exact Hshape|]. split; [exact Hcons'|].
  apply chars_inj.
  rewrite (chars_render_consistent _ _ Hcons'), chars_edit_delete.
  rewrite Hchars, <-Hsame1.
  replace (pre ++ c1 :: d2 :: post2) with ((pre ++ [c1]) ++ d2 :: post2)
    by (by rewrite <-app_assoc).
  rewrite (render_chars_app _ (pre ++ [c1])). f_equal.
  - rewrite <-app_assoc, (render_chars_app _ (pre ++ [c1])).
    by rewrite take_app_length'.
  - rewrite <-Hsame2.
    replace (((pre ++ [c1]) ++ mid) ++ d1 :: d2 :: post2)
      with ((((pre ++ [c1]) ++ mid) ++ [d1]) ++ d2 :: post2)
      by (by rewrite <-!app_assoc).
    rewrite (render_chars_app _ (((pre ++ [c1]) ++ mid) ++ [d1])).
    by rewrite drop_app_length'.
Qed.

Lemma SimpleDiffer_consistent base : consistent base SimpleDiffer.
Proof.
  split; [apply SimpleDiffer_ordered|]. split.
  - repeat constructor. simpl. lia.
  - by eexists _, _.
Qed.

Lemma render_SimpleDiffer base : render base SimpleDiffer = base.
Proof.
  apply chars_inj.
  rewrite (chars_render_consistent _ _ (SimpleDiffer_consistent base)). simpl.
  by rewrite app_nil_r.
Qed.

Lemma record_text base chunks_ edit :
  consistent base chunks_ →
  in_range (String.length (render base chunks_)) edit = true →
  ∃ chunks',
    record chunks_ edit = Some chunks' ∧ consistent base chunks' ∧
    render base chunks' = edit_text (render base chunks_) edit.
Proof.
  intros Hcons Hrange. destruct edit as [index text | startIndex endIndex];
    simpl in Hrange; rewrite ?andb_true_iff, ?Z.leb_le in Hrange.
  - apply applyInsert_render; [assumption | lia].
  - apply applyDelete_render; [assumption | lia | lia].
Qed.

Lemma record_all_text_from base edits : ∀ chunks_,
  consistent base chunks_ →
  all_in_range (render base chunks_) edits = true →
  ∃ chunks',
    record_all chunks_ edits = Some chunks' ∧ consistent base chunks' ∧
    render base chunks' = edit_all (render base chunks_) edits.
Proof.
  induction edits as [|edit edits IH]; intros chunks_ Hcons Hrange.
  - exists chunks_. split; [reflexivity|]. split; [assumption | reflexivity].
  - simpl in Hrange. apply andb_true_iff in Hrange as [Hedit Hedits].
    destruct (record_text _ _ _ Hcons Hedit) as (chunks1 & Hrec & Hcons1 & Htext).
    rewrite <-Htext in Hedits.
    destruct (IH _ Hcons1 Hedits) as (chunks' & Hall & Hcons' & Htext').
    exists chunks'. simpl. rewrite Hrec. simpl.
    split; [assumption|]. split; [assumption|].
    unfold edit_all in *. simpl. by rewrite <-Htext.
Qed.

(** The edits of a series, each within the text as it is when the edit is
    made, recorded on a fresh recorder: the state stands for the text the
    edits make of the original document. *)
Lemma record_all_render base edits :
  all_in_range base edits = true →
  ∃ chunks_,
    record_all SimpleDiffer edits = Some chunks_ ∧ consistent base chunks_ ∧
    render base chunks_ = edit_all base edits.
Proof.
  intros Hrange.
  destruct (record_all_text_from base edits SimpleDiffer
              (SimpleDiffer_consistent base)) as (chunks_ & H);
    rewrite render_SimpleDiffer in *; eauto.
Qed.

(** ** The diff stands for the text of the sequence *)

Lemma chars_replay_action text action :
  finite_action action →
  chars (replay_action text action) = replay_chars (chars text) action.
Proof.
  destruct action as [[] []|[]]; simpl; try tauto; intros _.
  - by rewrite chars_append, chars_substring_to, chars_substring_from.
  - by rewrite !chars_append, chars_substring_to, chars_substring_from.
Qed.

Lemma chars_replay simpleDiff : ∀ text,
  Forall finite_action simpleDiff →
  chars (replay text simpleDiff) = foldl replay_chars (chars text) simpleDiff.
Proof.
  induction simpleDiff as [|a diff IH]; intros text Hfin; [reflexivity|].
  apply Forall_cons in Hfin as [Ha Hfin]. unfold replay in *. simpl.
  by rewrite IH, chars_replay_action.
Qed.

(** The first loop, having come down to a chunk: the actions so far turn
    the original document, from [lastCopyCharIndex] on, into the text of the
    chunks visited, and leave what is before [lastCopyCharIndex]. *)
Lemma diff_state_text base lo chunks_ :
  ordered lo chunks_ → (0 ≤ lo)%Z →
  Forall (sound (Z.of_nat (length base))) chunks_ →
  ∃ last simpleDiff,
    diff_state chunks_ = (Fin last, simpleDiff) ∧
    (lo ≤ last ≤ Z.of_nat (length base))%Z ∧
    foldl replay_chars base simpleDiff
    = take (Z.to_nat last) base ++ render_chars base chunks_.
Proof.
  induction 1 as [lo start Hlo | lo start len rest Hlo Hlen Hrest IH
                  | lo text rest Hrest IH]; intros Hpos Hsound;
    apply Forall_cons in Hsound as [Hchunk Hsound]; simpl in Hchunk.
  - exists start, []. split; [reflexivity|]. split; [lia|]. simpl.
    by rewrite app_nil_r, take_drop.
  - destruct (IH ltac:(lia) Hsound) as (last & diff & Hst & Hlast & Htext).
    rewrite diff_state_cons, Hst. simpl.
    assert (Hcopy : take (Z.to_nat start) base
                      ++ take (Z.to_nat len) (drop (Z.to_nat start) base)
                    = take (Z.to_nat (start + len)) base).
    { rewrite take_take_drop. f_equal. lia. }
    destruct (Z.ltb_spec 0 (last + - (start + len))) as [Hgap | Hgap].
    + eexists start, _. split; [reflexivity|]. split; [lia|].
      rewrite foldl_app. simpl. rewrite Htext, app_assoc, Hcopy.
      f_equal.
      * rewrite take_app_le by (rewrite length_take; lia).
        rewrite take_take. f_equal. lia.
      * rewrite drop_app_length'; [reflexivity|]. rewrite length_take. lia.
    + exists start, diff. split; [reflexivity|]. split; [lia|].
      rewrite Htext, app_assoc, Hcopy. do 2 f_equal. lia.
  - destruct (IH Hpos Hsound) as (last & diff & Hst & Hlast & Htext).
    rewrite diff_state_cons, Hst. simpl.
    eexists last, _. split; [reflexivity|]. split; [lia|].
    rewrite foldl_app. simpl. rewrite Htext.
    rewrite take_app_length', drop_app_length' by (rewrite length_take; lia).
    reflexivity.
Qed.

Lemma diff_state_anchored chunks_ :
  anchored chunks_ → (diff_state chunks_).1 = Fin 0.
Proof.
  intros (len & rest & ->). rewrite diff_state_cons.
  by destruct (diff_state rest).
Qed.

(** Two deletes that meet, one after the other, are the one delete of both
    spans. *)
Lemma replay_chars_merge l pstart start end_ :
  (pstart ≤ start ≤ end_)%Z →
  replay_chars (replay_chars l (DeleteAction (Fin start) (Fin end_)))
    (DeleteAction (Fin pstart) (Fin start))
  = replay_chars l (DeleteAction (Fin pstart) (Fin end_)).
Proof.
  intros Hle. simpl.
  set (p := Z.to_nat pstart). set (s := Z.to_nat start). set (e := Z.to_nat end_).
  assert (p ≤ s ≤ e) by lia.
  destruct (decide (s ≤ length l)) as [Hs | Hs].
  - rewrite take_app_le by (rewrite length_take; lia).
    rewrite take_take, drop_app_length' by (rewrite length_take; lia).
    f_equal. f_equal. lia.
  - rewrite (take_ge l s), (drop_ge l e), app_nil_r by lia.
    rewrite (drop_ge l s) by lia. reflexivity.
Qed.

(** The second loop changes the list, not what it does to a text. *)
Lemma mergeDeletes_loop_replay front : ∀ back prevDelete out,
  Forall finite_action (front ++ back) →
  prevDelete_ok prevDelete (length front) back →
  mergeDeletes_loop (length front) (front ++ back) prevDelete = Some out →
  ∀ l, foldl replay_chars l out = foldl replay_chars l (front ++ back).
Proof.
  induction front as [|a front IH] using rev_ind;
    intros back prevDelete out Hfin Hprev Hout l.
  { simpl in Hout. by injection Hout as <-. }
  rewrite length_app, Nat.add_1_r in Hprev, Hout. cbn [mergeDeletes_loop] in Hout.
  rewrite <-app_assoc in *. cbn [app] in *.
  rewrite list_lookup_middle in Hout by reflexivity.
  assert (Hkeep : ∀ prev', prevDelete_ok prev' (length front) (a :: back) →
            mergeDeletes_loop (length front) (front ++ a :: back) prev' = Some out →
            foldl replay_chars l out = foldl replay_chars l (front ++ a :: back)).
  { intros prev' Hprev' Hout'. by eapply IH. }
  destruct a as [start end_ | start text].
  2: { by apply (Hkeep None). }
  assert (Hnew : prevDelete_ok (Some (length front)) (length front)
                   (DeleteAction start end_ :: back)).
  { split; [reflexivity | eauto]. }
  destruct prevDelete as [p|]; [|by apply (Hkeep (Some (length front)))].
  destruct Hprev as (-> & pstart & pend & rest & ->).
  assert (Hlen : S (length front) = length (front ++ [DeleteAction start end_]))
    by (rewrite length_app; simpl; lia).
  replace (front ++ DeleteAction start end_ :: DeleteAction pstart pend :: rest)
    with ((front ++ [DeleteAction start end_]) ++ DeleteAction pstart pend :: rest)
    in Hout by (by rewrite <-app_assoc).
  rewrite (list_lookup_middle _ _ _ _ Hlen) in Hout.
  apply Forall_app in Hfin as [Hfront Hfin].
  apply Forall_cons in Hfin as [Ha Hfin].
  apply Forall_cons in Hfin as [Hp Hrest].
  destruct (finite_delete_inv _ _ Ha) as (s & e & -> & -> & Hse).
  destruct (finite_delete_inv _ _ Hp) as (ps & pe & -> & -> & Hpse).
  destruct (num_eq (Fin pe) (Fin s)) eqn:Heq.
  - apply num_eq_fin_true in Heq as ->.
    assert (Hset : ∀ y, <[S (length front) := y]>
               ((front ++ [DeleteAction (Fin s) (Fin e)])
                  ++ DeleteAction (Fin ps) (Fin s) :: rest)
             = (front ++ [DeleteAction (Fin s) (Fin e)]) ++ y :: rest)
      by (intros y; rewrite Hlen; apply insert_middle).
    rewrite Hset, <-app_assoc in Hout. cbn [app] in Hout.
    rewrite splice_remove_one in Hout.
    unfold shift_removed in Hout.
    destruct (decide (length front < S (length front))); [|lia].
    replace (S (length front) - 1) with (length front) in Hout by lia.
    assert (Hfin' : Forall finite_action
                      (front ++ DeleteAction (Fin ps) (Fin e) :: rest)).
    { apply Forall_app. split; [assumption|].
      constructor; [simpl; lia | assumption]. }
    assert (Hprev' : prevDelete_ok (Some (length front)) (length front)
                       (DeleteAction (Fin ps) (Fin e) :: rest)).
    { split; [reflexivity | eauto]. }
    rewrite (IH _ _ _ Hfin' Hprev' Hout).
    rewrite !foldl_app. cbn [foldl]. by rewrite replay_chars_merge by lia.
  - rewrite <-app_assoc in Hout. cbn [app] in Hout.
    by apply (Hkeep (Some (length front))).
Qed.

(** What holds of the sequence when an insert chunk is taken out of it or
    given another text and length, holds after [mergeInserts_]. *)
Lemma mergeInserts_loop_preserves (P : list Chunk → Prop) :
  (∀ chunks_ i text len,
     chunks_ !! i = Some (InsertChunk text len) → P chunks_ →
     P (splice chunks_ i 1 [])) →
  (∀ chunks_ p text len text' len',
     chunks_ !! p = Some (InsertChunk text len) → P chunks_ →
     P (<[p := InsertChunk text' len']> chunks_)) →
  ∀ fuel chunks_ i prevInsert chunks',
    P chunks_ → mergeInserts_loop fuel chunks_ i prevInsert = Some chunks' →
    P chunks'.
Proof.
  intros Hremove Hupdate.
  induction fuel as [|fuel IH]; intros chunks_ i prevInsert chunks' HP Hloop;
    simpl in Hloop;
    destruct (decide (i < length chunks_)) as [Hi | Hi];
    try discriminate; try (by injection Hloop as <-).
  destruct (chunks_ !! i) as [[start len | text len]|] eqn:Hchunk;
    try discriminate.
  { by eapply IH. }
  destruct (String.eqb text "").
  { eapply IH; [|exact Hloop]. by eapply Hremove. }
  destruct prevInsert as [p|]; [|by eapply IH].
  unfold append_to_insert in Hloop.
  destruct (chunks_ !! p) as [[pstart plen | ptext plen]|] eqn:Hp;
    try discriminate.
  simpl in Hloop. eapply IH; [|exact Hloop].
  set (merged := InsertChunk (ptext +:+ text) (num_add plen len)) in *.
  assert (∃ text1 len1, <[p:=merged]> chunks_ !! i = Some (InsertChunk text1 len1))
    as (text1 & len1 & Hi1).
  { destruct (decide (p = i)) as [-> | Hne].
    - rewrite list_lookup_insert_eq by done. by eexists _, _.
    - rewrite list_lookup_insert_ne by done. eauto. }
  eapply Hremove; [exact Hi1|]. by eapply Hupdate.
Qed.

Lemma mergeInserts_consistent base chunks_ chunks' :
  consistent base chunks_ → mergeInserts_ chunks_ = Some chunks' →
  consistent base chunks'.
Proof.
  intros (Hord & Hfits & Hanch) Hmerge.
  destruct (mergeInserts_ordered _ _ Hord) as (chunks1 & Hmerge1 & Hord1).
  rewrite Hmerge in Hmerge1. injection Hmerge1 as <-.
  split; [assumption|]. split.
  - revert Hfits Hmerge. unfold mergeInserts_.
    apply mergeInserts_loop_preserves.
    + intros cs i text len _ H. unfold splice. simpl.
      apply Forall_app. split; [by apply Forall_take | by apply Forall_drop].
    + intros cs p text len text' len' _ H. by apply Forall_insert.
  - revert Hanch Hmerge. unfold mergeInserts_.
    apply mergeInserts_loop_preserves.
    + intros cs i text len Hi (len0 & rest & ->).
      destruct i as [|i]; [discriminate|]. by eexists _, _.
    + intros cs p text len text' len' Hp (len0 & rest & ->).
      destruct p as [|p]; [discriminate|]. by eexists _, _.
Qed.

(** [getSimpleDiff] on the state of a recorder returns, and the diff it
    returns, replayed on the original document, gives the text of the
    sequence [mergeInserts_] has left. *)
Lemma getSimpleDiff_replay base chunks_ :
  consistent base chunks_ →
  ∃ chunks' simpleDiff,
    getSimpleDiff chunks_ = Some (chunks', simpleDiff) ∧
    mergeInserts_ chunks_ = Some chunks' ∧
    consistent base chunks' ∧
    replay base simpleDiff = render base chunks'.
Proof.
  intros Hcons. unfold getSimpleDiff.
  destruct (mergeInserts_ordered 0 chunks_ ltac:(apply Hcons))
    as (chunks1 & Hmerge & Hord1).
  pose proof (mergeInserts_consistent _ _ _ Hcons Hmerge) as Hcons1.
  rewrite Hmerge. simpl.
  destruct (diff_state_ordered _ _ Hord1)
    as (last & diff & Hst & _ & Hfin & _ & Hsort).
  destruct (diff_state_text (chars base) 0 chunks1 Hord1 ltac:(lia)
              (consistent_sound _ _ Hcons1))
    as (last' & diff' & Hst' & _ & Htext).
  rewrite Hst in Hst'. injection Hst' as <- <-.
  pose proof (diff_state_anchored chunks1 ltac:(apply Hcons1)) as Hzero.
  rewrite Hst in Hzero. simpl in Hzero. injection Hzero as ->.
  unfold diff_chunks. rewrite Hst. simpl.
  destruct (mergeDeletes_sorted _ Hfin Hsort) as (out & Hout & Hfin' & _).
  rewrite Hout. simpl. exists chunks1, out.
  split; [reflexivity|]. split; [reflexivity|]. split; [assumption|].
  apply chars_inj.
  rewrite chars_replay, (chars_render_consistent _ _ Hcons1) by assumption.
  rewrite (mergeDeletes_loop_replay diff [] None out).
  - by rewrite app_nil_r, Htext.
  - by rewrite app_nil_r.
  - exact I.
  - by rewrite app_nil_r.
Qed.

(** ** [mergeInserts_] on a sequence without empty insert chunks *)

Lemma chars_render_text base chunks_ :
  chars (render base chunks_) = text_chars base chunks_.
Proof.
  unfold text_chars. induction chunks_ as [|c chunks_ IH]; [reflexivity|].
  simpl. by rewrite chars_append, IH.
Qed.

Lemma append_not_empty s1 s2 :
  String.eqb s1 "" = false → String.eqb (s1 +:+ s2) "" = false.
Proof. by destruct s1. Qed.

Lemma no_insert_neighbours_snoc done chunk :
  no_insert_neighbours done →
  (∀ c, last done = Some c → is_insert c && is_insert chunk = false) →
  no_insert_neighbours (done ++ [chunk]).
Proof.
  induction done as [|a done IH]; intros Hdone Hlast; simpl; [done|].
  destruct Hdone as [Ha Hdone]. split.
  - destruct done as [|b done]; simpl; [by apply Hlast | exact Ha].
  - apply IH; [assumption|]. intros c Hc. apply Hlast.
    destruct done; [discriminate | exact Hc].
Qed.

Lemma no_insert_neighbours_last done0 text len text' len' :
  no_insert_neighbours (done0 ++ [InsertChunk text len]) →
  no_insert_neighbours (done0 ++ [InsertChunk text' len']).
Proof.
  induction done0 as [|a done0 IH]; simpl; [done|].
  intros [Ha Hrest]. split; [|by apply IH].
  destruct done0 as [|b done0]; simpl in *; [|exact Ha]. exact Ha.
Qed.

(** With no empty insert chunk in the sequence the loop never steps over a
    chunk: it appends every insert chunk that follows an insert chunk to
    that one.  The text stays the same, no insert chunk is empty, and no two
    insert chunks are neighbours any more. *)
Lemma mergeInserts_loop_merges base fuel : ∀ done todo prevInsert chunks',
  Forall (λ c, empty_insert c = false) (done ++ todo) →
  no_insert_neighbours done →
  prevInsert_ok prevInsert done →
  mergeInserts_loop fuel (done ++ todo) (length done) prevInsert = Some chunks' →
  text_chars base chunks' = text_chars base (done ++ todo) ∧
  Forall (λ c, empty_insert c = false) chunks' ∧
  no_insert_neighbours chunks'.
Proof.
  induction fuel as [|fuel IH]; intros done todo prevInsert chunks'
    Hfull Hsep Hprev Hloop; simpl in Hloop;
    destruct (decide (length done < length (done ++ todo))) as [Hi | Hi];
    try discriminate.
  1,3: (injection Hloop as <-;
        assert (todo = []) as -> by
          (destruct todo; [done | rewrite length_app in Hi; simpl in Hi; lia]);
        by rewrite app_nil_r in * ).
  destruct todo as [|chunk todo]; [rewrite app_nil_r in Hi; lia|].
  rewrite list_lookup_middle in Hloop by reflexivity.
  assert (Hnext : done ++ chunk :: todo = (done ++ [chunk]) ++ todo)
    by (by rewrite <-app_assoc).
  assert (Hlen : length done + 1 = length (done ++ [chunk]))
    by (by rewrite length_app).
  destruct chunk as [start len | text len].
  { (* a copy chunk *)
    rewrite Hnext, Hlen in Hloop. rewrite Hnext.
    eapply IH; [by rewrite <-Hnext | | | exact Hloop].
    - apply no_insert_neighbours_snoc; [assumption|].
      intros c _. apply andb_false_r.
    - intros c Hc. rewrite last_snoc in Hc. by injection Hc as <-. }
  assert (Hnonempty : String.eqb text "" = false).
  { apply Forall_app in Hfull as [_ Hfull].
    by apply Forall_cons in Hfull as [? _]. }
  rewrite Hnonempty in Hloop.
  destruct prevInsert as [p|].
  - (* appended to [prevInsert], the chunk before it *)
    destruct Hprev as (done0 & ptext & plen & -> & ->).
    unfold append_to_insert in Hloop.
    rewrite <-app_assoc in Hloop. cbn [app] in Hloop.
    rewrite list_lookup_middle in Hloop by reflexivity. simpl in Hloop.
    rewrite insert_middle in Hloop.
    set (merged := InsertChunk (ptext +:+ text) (num_add plen len)) in *.
    replace (done0 ++ merged :: InsertChunk text len :: todo)
      with ((done0 ++ [merged]) ++ InsertChunk text len :: todo) in Hloop
      by (by rewrite <-app_assoc).
    replace (length (done0 ++ [InsertChunk ptext plen]))
      with (length (done0 ++ [merged])) in Hloop
      by (by rewrite !length_app).
    rewrite splice_remove_one in Hloop.
    unfold shift_removed in Hloop.
    destruct (decide (length (done0 ++ [merged]) < length done0)) as [Hlt | _];
      [rewrite length_app in Hlt; simpl in Hlt; lia|].
    apply Forall_app in Hfull as [Hdone Htodo].
    apply Forall_app in Hdone as [Hdone0 Hp].
    apply Forall_cons in Hp as [Hp _].
    apply Forall_cons in Htodo as [_ Htodo].
    destruct (IH (done0 ++ [merged]) todo (Some (length done0)) chunks')
      as (Htext & Hout); try assumption.
    + apply Forall_app. split; [|assumption].
      apply Forall_app. split; [assumption|].
      constructor; [|constructor]. simpl in *. by apply append_not_empty.
    + by eapply no_insert_neighbours_last.
    + by exists done0, (ptext +:+ text), (num_add plen len).
    + split; [|exact Hout]. rewrite Htext. unfold text_chars.
      rewrite !bind_app, !bind_cons. simpl.
      by rewrite chars_append, <-!app_assoc.
  - (* the first insert chunk of a run *)
    rewrite Hnext, Hlen in Hloop. rewrite Hnext.
    eapply IH; [by rewrite <-Hnext | | | exact Hloop].
    + apply no_insert_neighbours_snoc; [assumption|].
      intros c Hc. by rewrite (Hprev c Hc).
    + by exists done, text, len.
Qed.

(** [mergeInserts_] on a sequence without empty insert chunks returns a
    sequence with the same text, in which no insert chunk is empty and no
    two insert chunks are neighbours. *)
Lemma mergeInserts_render base chunks_ :
  Forall (λ c, empty_insert c = false) chunks_ →
  ∃ chunks',
    mergeInserts_ chunks_ = Some chunks' ∧
    render base chunks' = render base chunks_ ∧
    Forall (λ c, empty_insert c = false) chunks' ∧
    no_insert_neighbours chunks'.
Proof.
  intros Hfull.
  destruct (mergeInserts_loop_total (length chunks_) chunks_ 0 None)
    as [chunks' Hloop]; [lia | discriminate |].
  exists chunks'. split; [exact Hloop|].
  destruct (mergeInserts_loop_merges base (length chunks_) [] chunks_ None chunks')
    as (Htext & Hout); try done.
  split; [|exact Hout]. apply chars_inj. by rewrite !chars_render_text.
Qed.

(** ** The round trip *)

(** Replaying the diff on the original document gives the text the edits
    make of it, whenever the recorded sequence holds no empty insert
    chunk. *)
Lemma round_trip_from_chunks base edits chunks_ :
  all_in_range base edits = true →
  record_all SimpleDiffer edits = Some chunks_ →
  Forall (λ c, empty_insert c = false) chunks_ →
  ∃ simpleDiff,
    diff_of edits = Some simpleDiff ∧
    replay base simpleDiff = edit_all base edits.
Proof.
  intros Hrange Hrec Hfull.
  destruct (record_all_render base edits Hrange) as (chunks0 & Hrec0 & Hcons & Htext).
  rewrite Hrec in Hrec0. injection Hrec0 as <-.
  destruct (getSimpleDiff_replay base chunks_ Hcons)
    as (chunks1 & diff & Hdiff & Hmerge & _ & Hreplay).
  destruct (mergeInserts_render base chunks_ Hfull) as (chunks2 & Hmerge2 & Hsame & _).
  rewrite Hmerge in Hmerge2. injection Hmerge2 as <-.
  exists diff. unfold diff_of. rewrite Hrec. simpl. rewrite Hdiff. simpl.
  split; [reflexivity|]. by rewrite Hreplay, Hsame.
Qed.

(** ** Ascending series of edits *)

Lemma ordered_finite_prefix lo pre post :
  ordered lo (pre ++ post) → Forall finite_chunk pre → post ≠ [].
Proof.
  intros Hord Hfin ->. rewrite app_nil_r in Hord.
  induction Hord as [lo start Hlo | lo start len rest Hlo Hlen Hrest IH
                     | lo text rest Hrest IH];
    apply Forall_cons in Hfin as [[Hc _] Hfin]; [discriminate | auto..].
Qed.

(** [findChunk_] for a target at or after the end of a run of finite chunks
    at the start of the sequence finds a chunk after the run. *)
Lemma findChunk_after lo pre post target :
  ordered lo (pre ++ post) → Forall finite_chunk pre →
  (total_length pre ≤ target)%Z →
  ∃ mid chunk post0 off,
    post = mid ++ chunk :: post0 ∧
    findChunk_ (pre ++ post) (Fin target) = Some (length (pre ++ mid), Fin off) ∧
    Forall finite_chunk mid ∧ (0 ≤ off)%Z ∧
    (total_length pre + total_length mid + off = target)%Z ∧ inside off chunk.
Proof.
  intros Hord Hpre Hle.
  pose proof (ordered_finite_prefix _ _ _ Hord Hpre) as Hne.
  pose proof (total_length_nonneg _ Hpre) as Hnn.
  destruct (ordered_app_inv pre lo post Hne Hord) as (_ & hi & _ & Hpost & _).
  destruct (findChunk_loop_ordered _ _ Hpost (0 + length pre)
              (0 + total_length pre)%Z target ltac:(lia))
    as (mid & chunk & post0 & off & -> & Hfind & Hmid & Hoff & Hsum & Hin).
  exists mid, chunk, post0, off. split; [reflexivity|].
  split; [|repeat split; try assumption; lia].
  unfold findChunk_. rewrite findChunk_loop_skip by (assumption || lia).
  rewrite Hfind, length_app. reflexivity.
Qed.

(** [applyInsert] and [applyDelete], given what [findChunk_] returns. *)
Lemma applyInsert_cut pre chunk post off index text :
  findChunk_ (pre ++ chunk :: post) index = Some (length pre, off) →
  applyInsert index text (pre ++ chunk :: post)
  = Some (pre ++ (split_halves chunk off).1
              :: InsertChunk text (str_length text)
              :: (split_halves chunk off).2 :: post).
Proof.
  intros Hfind. unfold applyInsert. rewrite Hfind. simpl.
  rewrite splitChunk_cut. simpl.
  set (c1 := (split_halves chunk off).1).
  set (c2 := (split_halves chunk off).2).
  replace (pre ++ c1 :: c2 :: post) with ((pre ++ [c1]) ++ c2 :: post)
    by (by rewrite <-app_assoc).
  replace (length pre + 1) with (length (pre ++ [c1]))
    by (rewrite length_app; reflexivity).
  by rewrite splice_insert_at, <-app_assoc.
Qed.

Lemma applyDelete_cut pre chunk post off mid d post2 off2 startIndex endIndex :
  num_eq startIndex endIndex = false →
  findChunk_ (pre ++ chunk :: post) startIndex = Some (length pre, off) →
  (split_halves chunk off).2 :: post = mid ++ d :: post2 →
  findChunk_ (pre ++ (split_halves chunk off).1 :: (split_halves chunk off).2 :: post)
    endIndex
  = Some (length ((pre ++ [(split_halves chunk off).1]) ++ mid), off2) →
  applyDelete startIndex endIndex (pre ++ chunk :: post)
  = Some (pre ++ (split_halves chunk off).1 :: (split_halves d off2).2 :: post2).
Proof.
  intros Hne Hfind Hcut Hfind2. unfold applyDelete. rewrite Hne, Hfind. simpl.
  rewrite splitChunk_cut. simpl. rewrite Hfind2. simpl.
  set (c1 := (split_halves chunk off).1) in *.
  set (c2 := (split_halves chunk off).2) in *.
  replace (pre ++ c1 :: c2 :: post) with (((pre ++ [c1]) ++ mid) ++ d :: post2)
    by (rewrite Hcut, <-!app_assoc; reflexivity).
  rewrite splitChunk_cut. simpl.
  set (d1 := (split_halves d off2).1).
  set (d2 := (split_halves d off2).2).
  replace (((pre ++ [c1]) ++ mid) ++ d1 :: d2 :: post2)
    with ((pre ++ [c1]) ++ (mid ++ [d1]) ++ d2 :: post2)
    by (by rewrite <-!app_assoc).
  replace (length pre + 1) with (length (pre ++ [c1]))
    by (rewrite length_app; reflexivity).
  replace (length ((pre ++ [c1]) ++ mid) + 1 - length (pre ++ [c1]))
    with (length (mid ++ [d1])) by (rewrite !length_app; simpl; lia).
  by rewrite splice_remove_at, <-app_assoc.
Qed.

Lemma split_halves_copy chunk off :
  is_insert chunk = false →
  is_insert (split_halves chunk off).1 = false ∧
  is_insert (split_halves chunk off).2 = false.
Proof. by destruct chunk. Qed.

Lemma copy_not_empty_insert chunk :
  is_insert chunk = false → empty_insert chunk = false.
Proof. by destruct chunk. Qed.

Lemma applyInsert_settled pos chunks_ index text :
  settled pos chunks_ → (pos ≤ index)%Z → String.eqb text "" = false →
  ∃ chunks',
    applyInsert (Fin index) text chunks_ = Some chunks' ∧
    settled (index + Z.of_nat (String.length text)) chunks'.
Proof.
  intros (Hord & Hfull & pre & post & -> & Hpre & Hle & Hcopies) Hidx Htext.
  pose proof (total_length_nonneg _ Hpre) as Hnn.
  destruct (applyInsert_ordered 0 _ index text Hord ltac:(lia))
    as (chunks' & Happ & Hord').
  destruct (findChunk_after 0 pre post index Hord Hpre ltac:(lia))
    as (mid & chunk & post0 & off & -> & Hfind & Hmid & Hoff & Hsum & Hin).
  rewrite app_assoc in Hfind, Happ, Hord, Hfull |- *.
  pose proof (applyInsert_cut _ _ _ _ _ text Hfind) as Hshape.
  rewrite Hshape in Happ. injection Happ as <-.
  destruct (ordered_app_inv (pre ++ mid) 0 (chunk :: post0) ltac:(done) Hord)
    as (_ & hi & _ & Hrest & _).
  destruct (split_halves_ordered _ _ _ _ Hrest Hoff Hin) as (_ & Hc1 & Hc1len).
  apply Forall_app in Hcopies as [_ Hcopies].
  apply Forall_cons in Hcopies as [Hchunk Hcopies].
  destruct (split_halves_copy chunk (Fin off) Hchunk) as [Hcopy1 Hcopy2].
  apply Forall_app in Hfull as [Hfull0 Hfull1].
  apply Forall_cons in Hfull1 as [_ Hfull1].
  set (c1 := (split_halves chunk (Fin off)).1) in *.
  set (c2 := (split_halves chunk (Fin off)).2) in *.
  eexists. split; [exact Hshape|]. split; [assumption|]. split.
  { apply Forall_app. split; [assumption|].
    repeat (constructor; [by (assumption || apply copy_not_empty_insert)|]).
    assumption. }
  exists ((pre ++ mid) ++ [c1; InsertChunk text (str_length text)]), (c2 :: post0).
  split; [by rewrite <-!app_assoc|]. split; [|split].
  - apply Forall_app. split; [apply Forall_app; by split|].
    constructor; [assumption|]. constructor; [|constructor].
    split; [reflexivity | unfold finite_length; simpl; lia].
  - rewrite !total_length_app. simpl. unfold finite_length at 2. simpl. lia.
  - by constructor.
Qed.

Lemma applyDelete_settled pos chunks_ startIndex endIndex :
  settled pos chunks_ → (pos ≤ startIndex ≤ endIndex)%Z →
  ∃ chunks',
    applyDelete (Fin startIndex) (Fin endIndex) chunks_ = Some chunks' ∧
    settled startIndex chunks'.
Proof.
  intros (Hord & Hfull & pre & post & -> & Hpre & Hle & Hcopies) Hidx.
  pose proof (total_length_nonneg _ Hpre) as Hnn.
  destruct (decide (startIndex = endIndex)) as [<- | Hne].
  { exists (pre ++ post). split; [apply applyDelete_same|].
    split; [assumption|]. split; [assumption|].
    exists pre, post. repeat split; try assumption. lia. }
  destruct (findChunk_after 0 pre post startIndex Hord Hpre ltac:(lia))
    as (mid & chunk & post0 & off & -> & Hfind & Hmid & Hoff & Hsum & Hin).
  rewrite app_assoc in Hfind, Hord, Hfull |- *.
  destruct (ordered_app_inv (pre ++ mid) 0 (chunk :: post0) ltac:(done) Hord)
    as (_ & hi & _ & Hrest & Hctx).
  destruct (split_halves_ordered _ _ _ _ Hrest Hoff Hin)
    as (Hsplit & Hc1 & Hc1len).
  apply Forall_app in Hcopies as [_ Hcopies].
  apply Forall_cons in Hcopies as [Hchunk Hcopies].
  destruct (split_halves_copy chunk (Fin off) Hchunk) as [Hcopy1 Hcopy2].
  apply Forall_app in Hfull as [Hfull0 _].
  set (c1 := (split_halves chunk (Fin off)).1) in *.
  set (c2 := (split_halves chunk (Fin off)).2) in *.
  (* the cut at [endIndex] *)
  assert (Hord1 : ordered 0 (((pre ++ mid) ++ [c1]) ++ c2 :: post0)).
  { rewrite <-(app_assoc (pre ++ mid)). by apply Hctx. }
  assert (Hfin1 : Forall finite_chunk ((pre ++ mid) ++ [c1])).
  { apply Forall_app. split; [apply Forall_app; by split | by constructor]. }
  assert (Htot1 : total_length ((pre ++ mid) ++ [c1]) = startIndex).
  { rewrite !total_length_app. simpl. lia. }
  destruct (findChunk_after 0 _ (c2 :: post0) endIndex Hord1 Hfin1 ltac:(lia))
    as (mid2 & d & post2 & off2 & Hcut & Hfind2 & _).
  rewrite <-(app_assoc (pre ++ mid)) in Hfind2. cbn [app] in Hfind2.
  assert (Hneq : num_eq (Fin startIndex) (Fin endIndex) = false)
    by (simpl; by apply Z.eqb_neq).
  pose proof (applyDelete_cut _ _ _ _ _ _ _ _ _ _ Hneq Hfind Hcut Hfind2) as Happ.
  destruct (applyDelete_ordered 0 _ startIndex endIndex Hord ltac:(lia))
    as (chunks' & Happ' & Hord').
  rewrite Happ in Happ'. injection Happ' as <-.
  assert (Htail : Forall (λ c, is_insert c = false) (mid2 ++ d :: post2)).
  { rewrite <-Hcut. by constructor. }
  apply Forall_app in Htail as [_ Htail].
  apply Forall_cons in Htail as [Hd Hpost2].
  destruct (split_halves_copy d (Fin off2) Hd) as [_ Hcopyd].
  set (d2 := (split_halves d (Fin off2)).2) in *.
  eexists. split; [exact Happ|]. split; [assumption|]. split.
  { apply Forall_app. split; [assumption|].
    constructor; [by apply copy_not_empty_insert|].
    constructor; [by apply copy_not_empty_insert|].
    eapply Forall_impl; [exact Hpost2|]. apply copy_not_empty_insert. }
  exists ((pre ++ mid) ++ [c1]), (d2 :: post2).
  split; [by rewrite <-!app_assoc|]. split; [assumption|].
  split; [lia | by constructor].
Qed.

Lemma record_all_settled edits : ∀ pos chunks_,
  settled pos chunks_ → ascending pos edits →
  ∃ chunks' pos', record_all chunks_ edits = Some chunks' ∧ settled pos' chunks'.
Proof.
  induction edits as [|[index text | startIndex endIndex] edits IH];
    intros pos chunks_ Hset Hasc; simpl in *.
  - eauto.
  - destruct Hasc as (Hidx & Htext & Hasc).
    destruct (applyInsert_settled _ _ _ _ Hset Hidx Htext) as (chunks1 & -> & Hset1).
    simpl. by eapply IH.
  - destruct Hasc as (Hidx & Hasc).
    destruct (applyDelete_settled _ _ _ _ Hset Hidx) as (chunks1 & -> & Hset1).
    simpl. by eapply IH.
Qed.

Lemma SimpleDiffer_settled : settled 0 SimpleDiffer.
Proof.
  split; [apply SimpleDiffer_ordered|]. split; [by repeat constructor|].
  exists [], SimpleDiffer. repeat split; try constructor; try done.
Qed.

(** ** What the second loop of [getSimpleDiff] keeps *)

(** What holds of every action of the list, and of the delete that two
    deletes merge into, holds of every action of the list the loop
    returns. *)
Lemma mergeDeletes_loop_preserves (P : Action → Prop) :
  (∀ pstart pend start end_,
     P (DeleteAction pstart pend) → P (DeleteAction start end_) →
     P (DeleteAction pstart end_)) →
  ∀ n simpleDiff prevDelete out,
    Forall P simpleDiff →
    mergeDeletes_loop n simpleDiff prevDelete = Some out → Forall P out.
Proof.
  intros Hmerge. induction n as [|i IH]; intros diff prev out HP Hloop;
    simpl in Hloop; [by injection Hloop as <-|].
  destruct (diff !! i) as [[start end_ | start text]|] eqn:Hi;
    try discriminate; [|by eapply IH].
  destruct prev as [p|]; [|by eapply IH].
  destruct (diff !! p) as [[pstart pend | pstart ptext]|] eqn:Hp;
    try discriminate; [|by eapply IH].
  destruct (num_eq pend start); [|by eapply IH].
  eapply IH; [|exact Hloop]. unfold splice. simpl.
  assert (Hnew : Forall P (<[p:=DeleteAction pstart end_]> diff)).
  { apply Forall_insert; [assumption|].
    rewrite Forall_forall in HP. eapply Hmerge; apply HP.
    - by eapply list_elem_of_lookup_2.
    - by eapply list_elem_of_lookup_2. }
  apply Forall_app. split; [by apply Forall_take | by apply Forall_drop].
Qed.

(** The first loop on a sound sequence: every action is inside the
    original document, at or after [lastCopyCharIndex]. *)
Lemma diff_state_within size lo chunks_ :
  ordered lo chunks_ → (0 ≤ lo)%Z → Forall (sound size) chunks_ →
  ∃ last simpleDiff,
    diff_state chunks_ = (Fin last, simpleDiff) ∧ (lo ≤ last ≤ size)%Z ∧
    Forall (within_document size) simpleDiff.
Proof.
  induction 1 as [lo start Hlo | lo start len rest Hlo Hlen Hrest IH
                  | lo text rest Hrest IH]; intros Hpos Hsound;
    apply Forall_cons in Hsound as [Hchunk Hsound]; simpl in Hchunk.
  - exists start, []. split; [reflexivity|]. split; [lia | constructor].
  - destruct (IH ltac:(lia) Hsound) as (last & diff & Hst & Hlast & Hin).
    rewrite diff_state_cons, Hst. simpl.
    destruct (Z.ltb_spec 0 (last + - (start + len))) as [Hgap | Hgap].
    + eexists start, _. split; [reflexivity|]. split; [lia|].
      apply Forall_app. split; [assumption|].
      constructor; [simpl; lia | constructor].
    + exists start, diff. split; [reflexivity|]. split; [lia | assumption].
  - destruct (IH Hpos Hsound) as (last & diff & Hst & Hlast & Hin).
    rewrite diff_state_cons, Hst. simpl.
    eexists last, _. split; [reflexivity|]. split; [lia|].
    apply Forall_app. split; [assumption|].
    constructor; [simpl; lia | constructor].
Qed.

(** A merge happens only where one delete ends and the other starts, so
    the merged delete is inside the document as well. *)
Lemma mergeDeletes_loop_within size : ∀ n simpleDiff prevDelete out,
  Forall (within_document size) simpleDiff →
  mergeDeletes_loop n simpleDiff prevDelete = Some out →
  Forall (within_document size) out.
Proof.
  induction n as [|i IH]; intros diff prev out HP Hloop;
    simpl in Hloop; [by injection Hloop as <-|].
  destruct (diff !! i) as [[start end_ | start text]|] eqn:Hi;
    try discriminate; [|by eapply IH].
  destruct prev as [p|]; [|by eapply IH].
  destruct (diff !! p) as [[pstart pend | pstart ptext]|] eqn:Hp;
    try discriminate; [|by eapply IH].
  destruct (num_eq pend start) eqn:Heq; [|by eapply IH].
  eapply IH; [|exact Hloop]. unfold splice. simpl.
  assert (Hnew : Forall (within_document size)
                   (<[p:=DeleteAction pstart end_]> diff)).
  { apply Forall_insert; [assumption|].
    rewrite Forall_forall in HP.
    pose proof (HP _ (list_elem_of_lookup_2 _ _ _ Hi)) as Ha.
    pose proof (HP _ (list_elem_of_lookup_2 _ _ _ Hp)) as Hb.
    destruct pstart, pend, start, end_; simpl in *; try tauto.
    apply Z.eqb_eq in Heq. lia. }
  apply Forall_app. split; [by apply Forall_take | by apply Forall_drop].
Qed.

(** Every offset of the diff of the state of a recorder lies inside the
    original document: a delete has [0 <= start < end <= size], an insert
    [0 <= start <= size]. *)
Lemma getSimpleDiff_within base chunks_ :
  consistent base chunks_ →
  ∃ chunks' simpleDiff,
    getSimpleDiff chunks_ = Some (chunks', simpleDiff) ∧
    Forall (within_document (Z.of_nat (String.length base))) simpleDiff.
Proof.
  intros Hcons.
  destruct (getSimpleDiff_replay base chunks_ Hcons)
    as (chunks1 & diff & Hdiff & Hmerge & Hcons1 & _).
  exists chunks1, diff. split; [assumption|].
  unfold getSimpleDiff in Hdiff. rewrite Hmerge in Hdiff. simpl in Hdiff.
  destruct (mergeDeletes_loop _ _ None) as [out|] eqn:Hloop; [|discriminate].
  injection Hdiff as <-.
  pose proof (consistent_sound _ _ Hcons1) as Hsound.
  rewrite length_chars in Hsound.
  destruct (diff_state_within _ 0 chunks1 ltac:(apply Hcons1) ltac:(lia) Hsound)
    as (last & diff0 & Hst & _ & Hin).
  unfold diff_chunks in Hloop. rewrite Hst in Hloop. simpl in Hloop.
  by eapply mergeDeletes_loop_within.
Qed.

(** The offsets of the diff of a series of edits, each within the text as
    it is when the edit is made, lie inside the original document. *)
Lemma diff_of_within base edits :
  all_in_range base edits = true →
  ∃ simpleDiff,
    diff_of edits = Some simpleDiff ∧
    Forall (within_document (Z.of_nat (String.length base))) simpleDiff.
Proof.
  intros Hrange.
  destruct (record_all_render base edits Hrange) as (chunks_ & Hrec & Hcons & _).
  destruct (getSimpleDiff_within base chunks_ Hcons) as (chunks' & diff & Hdiff & Hin).
  exists diff. unfold diff_of. rewrite Hrec. simpl. rewrite Hdiff. by split.
Qed.

(** ** Insert actions with an empty text *)

Lemma diff_state_no_empty_insert chunks_ :
  Forall (λ c, empty_insert c = false) chunks_ →
  Forall (λ a, empty_insert_action a = false) (diff_state chunks_).2.
Proof.
  induction 1 as [|chunk chunks_ Hchunk _ IH]; [constructor|].
  rewrite diff_state_cons. destruct (diff_state chunks_) as [last diff].
  destruct chunk as [start len | text len]; simpl in *.
  - destruct (num_gt _ _); [|assumption].
    apply Forall_app. split; [assumption | by repeat constructor].
  - apply Forall_app. split; [assumption | by repeat constructor].
Qed.

(** When no insert chunk of the sequence is empty, no action that
    [getSimpleDiff] returns is an insert with an empty text. *)
Lemma getSimpleDiff_texts chunks_ :
  Forall (λ c, empty_insert c = false) chunks_ →
  ∃ chunks' simpleDiff,
    getSimpleDiff chunks_ = Some (chunks', simpleDiff) ∧
    Forall (λ a, empty_insert_action a = false) simpleDiff.
Proof.
  intros Hfull.
  destruct (mergeInserts_render "" chunks_ Hfull) as (chunks1 & Hmerge & _ & Hfull1 & _).
  destruct (getSimpleDiff_total chunks_) as [[chunks' diff] Hdiff].
  exists chunks', diff. split; [assumption|].
  unfold getSimpleDiff in Hdiff. rewrite Hmerge in Hdiff. simpl in Hdiff.
  destruct (mergeDeletes_loop _ _ None) as [out|] eqn:Hloop; [|discriminate].
  injection Hdiff as <- <-.
  eapply (mergeDeletes_loop_preserves (λ a, empty_insert_action a = false));
    [done | | exact Hloop].
  by apply diff_state_no_empty_insert.
Qed.

(** ** The number of chunks *)

Lemma splice_insert_length {A} (l : list A) n x :
  length (splice l n 0 [x]) = length l + 1.
Proof.
  unfold splice. rewrite Nat.add_0_r, !length_app, length_take, length_drop.
  simpl. lia.
Qed.

(** [applyInsert], when it returns, has added two chunks: the second half
    of the chunk it has cut, and the insert chunk. *)
Lemma applyInsert_adds_two index text chunks_ chunks' :
  applyInsert index text chunks_ = Some chunks' →
  length chunks' = length chunks_ + 2.
Proof.
  unfold applyInsert, splitChunk_.
  destruct (findChunk_ chunks_ index) as [[i off]|]; [|discriminate]. simpl.
  destruct (chunks_ !! i) as [chunk|]; [|discriminate]. simpl.
  destruct (split_halves chunk off) as [c1 c2]. simpl.
  intros [= <-]. rewrite !splice_insert_length, length_insert. lia.
Qed.

Lemma applyDelete_length lo chunks_ startIndex endIndex chunks' :
  ordered lo chunks_ → (0 ≤ startIndex ≤ endIndex)%Z →
  applyDelete (Fin startIndex) (Fin endIndex) chunks_ = Some chunks' →
  length chunks' ≤ length chunks_ + 1.
Proof.
  intros Hord Hidx Happ.
  destruct (decide (startIndex = endIndex)) as [<- | Hne].
  { rewrite applyDelete_same in Happ. injection Happ as <-. lia. }
  destruct (applyDelete_shape lo chunks_ startIndex endIndex Hord ltac:(lia))
    as (pre & chunk & post & off & mid & d & post2 & off2 & -> & _ & _ & _ & _
        & Hcut & _ & _ & _ & _ & Hshape).
  rewrite Hshape in Happ. injection Happ as <-.
  apply (f_equal length) in Hcut. rewrite length_app in Hcut. simpl in Hcut.
  rewrite !length_app. simpl. lia.
Qed.

(** ** Offsets that are no offsets *)

Lemma findChunk_loop_none rest : ∀ i cur target,
  target = NaN ∨ target = PInf → findChunk_loop rest i cur target = None.
Proof.
  induction rest as [|chunk rest IH]; intros i cur target Htarget; simpl;
    [reflexivity|].
  assert (num_gt (num_add cur (chunk_length chunk)) target = false) as ->.
  { destruct Htarget as [-> | ->]; by destruct (num_add _ _). }
  by apply IH.
Qed.

(** ** [getBrOffsets_] *)

Lemma last_newline_before_found text n :
  last_newline_before text n = (-1)%Z ∨
  ∃ k : nat, last_newline_before text n = Z.of_nat k ∧ k < n ∧
             String.get k text = Some newline.
Proof.
  induction n as [|n IH]; simpl; [by left|].
  destruct (String.get n text) as [c|] eqn:Hget.
  - destruct (Ascii.eqb c newline) eqn:Heq.
    + apply Ascii.eqb_eq in Heq as ->.
      right. exists n. split; [reflexivity|]. split; [lia | assumption].
    + destruct IH as [IH | (k & Hk & Hlt & Hnl)]; [by left|].
      right. exists k. split; [assumption|]. split; [lia | assumption].
  - destruct IH as [IH | (k & Hk & Hlt & Hnl)]; [by left|].
    right. exists k. split; [assumption|]. split; [lia | assumption].
Qed.

Lemma last_newline_before_last text n (k : nat) :
  (last_newline_before text n < Z.of_nat k)%Z → k < n →
  String.get k text ≠ Some newline.
Proof.
  induction n as [|n IH]; simpl; [lia|]. intros Hlt Hk.
  destruct (decide (k = n)) as [-> | Hne].
  - destruct (String.get n text) as [c|]; [|discriminate].
    destruct (Ascii.eqb c newline) eqn:Heq; [lia|].
    apply Ascii.eqb_neq in Heq. congruence.
  - apply IH; [|lia].
    destruct (String.get n text) as [c|]; [|assumption].
    destruct (Ascii.eqb c newline); [lia | assumption].
Qed.

Lemma last_newline_before_unique text n r :
  (r = (-1)%Z ∨ ∃ k : nat, r = Z.of_nat k ∧ String.get k text = Some newline) →
  (r < Z.of_nat n)%Z →
  (∀ k : nat, (r < Z.of_nat k)%Z → k < n → String.get k text ≠ Some newline) →
  last_newline_before text n = r.
Proof.
  induction n as [|n IH]; intros Hr Hlt Hnone; simpl.
  - destruct Hr as [-> | (k & -> & _)]; [reflexivity | lia].
  - assert (Hcase : String.get n text = Some newline ∧ r = Z.of_nat n ∨
                    String.get n text ≠ Some newline ∧ (r < Z.of_nat n)%Z).
    { destruct (decide (String.get n text = Some newline)) as [Hn | Hn].
      - left. split; [assumption|].
        destruct (decide (r = Z.of_nat n)); [assumption|].
        exfalso. apply (Hnone n); [lia | lia | assumption].
      - right. split; [assumption|].
        destruct Hr as [-> | (k & -> & Hk)]; [lia|].
        destruct (decide (k = n)) as [-> | ?]; [contradiction | lia]. }
    destruct Hcase as [[Hn ->] | [Hn Hlt']].
    + rewrite Hn. by rewrite Ascii.eqb_refl.
    + assert (IH' : last_newline_before text n = r).
      { apply IH; [assumption | assumption |]. intros k ? ?. apply Hnone; lia. }
      destruct (String.get n text) as [c|]; [|assumption].
      destruct (Ascii.eqb c newline) eqn:Heq; [|assumption].
      apply Ascii.eqb_eq in Heq as ->. congruence.
Qed.

(** [lastIndexOf] searches the positions from 0 up to the clamped one. *)
Lemma lastIndexOf_newline_bound text position :
  (position + 1 ≤ Z.of_nat (String.length text))%Z →
  ∃ n : nat,
    lastIndexOf_newline text position = last_newline_before text n ∧
    (position + 1 ≤ Z.of_nat n ≤ Z.of_nat (String.length text))%Z.
Proof.
  intros Hle. unfold lastIndexOf_newline. eexists. split; [reflexivity|]. lia.
Qed.

Lemma no_newline_past_end text (k : nat) :
  String.length text ≤ k → String.get k text ≠ Some newline.
Proof.
  revert k. induction text as [|c text IH]; intros k Hk; simpl; [done|].
  destruct k as [|k]; simpl in *; [lia|]. apply IH. lia.
Qed.

(** The newlines before a position, counted from the last one. *)
Lemma count_newlines_last text n :
  (last_newline_before text n = (-1)%Z → count_newlines text n = 0) ∧
  (∀ k : nat, last_newline_before text n = Z.of_nat k →
     count_newlines text n = S (count_newlines text k)).
Proof.
  induction n as [|n [IH1 IH2]]; simpl.
  - split; [done | lia].
  - destruct (String.get n text) as [c|] eqn:Hget.
    + destruct (Ascii.eqb c newline) eqn:Heq.
      * apply Ascii.eqb_eq in Heq as ->. rewrite decide_True by done.
        split; [lia|]. intros k Hk. by assert (k = n) as -> by lia.
      * apply Ascii.eqb_neq in Heq. rewrite decide_False by congruence. done.
    + rewrite decide_False by done. done.
Qed.

Lemma count_newlines_between text (a b : nat) :
  a ≤ b → (∀ k, a ≤ k < b → String.get k text ≠ Some newline) →
  count_newlines text b = count_newlines text a.
Proof.
  induction b as [|b IH]; intros Hab Hnone.
  - by replace a with 0 by lia.
  - destruct (decide (a = S b)) as [-> | Hne]; [done|].
    simpl. rewrite decide_False by (apply Hnone; lia).
    apply IH; [lia|]. intros k Hk. apply Hnone. lia.
Qed.

Lemma lastIndexOf_newline_inside text position :
  (0 ≤ position < Z.of_nat (String.length text))%Z →
  lastIndexOf_newline text position
  = last_newline_before text (Z.to_nat (position + 1)).
Proof. intros H. unfold lastIndexOf_newline. f_equal. lia. Qed.

Lemma lastIndexOf_newline_le text position :
  (-1 ≤ lastIndexOf_newline text position ≤ Z.max position 0)%Z.
Proof.
  unfold lastIndexOf_newline.
  match goal with
  | |- context [last_newline_before text ?n] =>
      destruct (last_newline_before_found text n) as [-> | (k & -> & Hk & _)]
  end; lia.
Qed.

(** The sorted array of character indexes, seen from its end. *)
Lemma sorted_stack (charIndexes : list Z) :
  StronglySorted (flip Z.le) (reverse (merge_sort Z.le charIndexes)) ∧
  ∀ c, c ∈ reverse (merge_sort Z.le charIndexes) ↔ c ∈ charIndexes.
Proof.
  split.
  - apply Sorted_StronglySorted; [intros x y z; unfold flip; lia|].
    apply Sorted_reverse, Sorted_merge_sort.
    intros x y. lia.
  - intros c. by rewrite elem_of_reverse, merge_sort_Permutation.
Qed.

Section getBrOffsets.
Context {Node : Type}.
Implicit Types (brOffsets : gmap Z (BrOffset Node)) (stack : list Z).

(** The inner loop takes from the end of the array what is greater than
    [newlineCharIndex], and gives each an entry. *)
Lemma pop_loop_inv (P : Z → BrOffset Node → Prop) nl (br : option Node) :
  ∀ stack brOffsets stack' brOffsets',
  pop_loop nl br stack brOffsets = (stack', brOffsets') →
  StronglySorted (flip Z.le) stack →
  (∀ c, c ∈ stack → (nl < c)%Z →
        P c (br, match br with Some _ => (c - nl - 1)%Z | None => c end)) →
  map_Forall P brOffsets →
  StronglySorted (flip Z.le) stack' ∧ Forall (λ c, (c ≤ nl)%Z) stack' ∧
  map_Forall P brOffsets' ∧
  (∀ c, c ∈ stack → c ∈ stack' ∨ is_Some (brOffsets' !! c)) ∧
  (∀ c, is_Some (brOffsets !! c) → is_Some (brOffsets' !! c)) ∧
  (∀ c, c ∈ stack' → c ∈ stack).
Proof.
  induction stack as [|c stack IH]; intros m stack' m' Hloop Hsort Hnl Hok;
    simpl in Hloop.
  { injection Hloop as <- <-. split; [constructor|]. split; [constructor|].
    split; [assumption|]. split; [|done].
    intros c Hc. by apply elem_of_nil in Hc. }
  apply StronglySorted_cons in Hsort as [Hc Hsort].
  destruct (Z.ltb_spec nl c) as [Hlt | Hge].
  - destruct (IH _ _ _ Hloop Hsort)
      as (Hsort' & Hle & Hok' & Hcover & Hkeep & Hsub).
    + intros c' Hc'. apply Hnl. by right.
    + apply map_Forall_insert_2; [|assumption]. apply Hnl; [by left | assumption].
    + repeat split; try assumption.
      * intros c' [-> | Hc']%elem_of_cons; [|by apply Hcover].
        right. apply Hkeep. rewrite lookup_insert_eq. by eexists.
      * intros c' Hc'. apply Hkeep. rewrite lookup_insert_is_Some.
        destruct (decide (c = c')); [by left | by right].
      * intros c' Hc'. right. by apply Hsub.
  - injection Hloop as <- <-. repeat split; try assumption.
    + by apply StronglySorted_cons.
    + constructor; [assumption|].
      eapply Forall_impl; [exact Hc|]. unfold flip. simpl. intros; lia.
    + intros c' Hc'. by left.
    + done.
    + done.
Qed.

(** What is taken has [newlineCharIndex] as the last newline before it,
    when no newline lies between the place the search for
    [newlineCharIndex] started and what is in the array. *)
Lemma popped_after_newline text nlprev stack c :
  (nlprev ≤ Z.of_nat (String.length text))%Z →
  (∀ c, c ∈ stack → no_newline_between text nlprev c) →
  c ∈ stack → (lastIndexOf_newline text (nlprev - 1) < c)%Z →
  last_newline_before text (Z.to_nat c) = lastIndexOf_newline text (nlprev - 1).
Proof.
  intros Hprev Hbetween Hc Hlt.
  destruct (lastIndexOf_newline_bound text (nlprev - 1) ltac:(lia))
    as (n0 & Hnl & Hn0).
  apply last_newline_before_unique.
  - rewrite Hnl.
    destruct (last_newline_before_found text n0) as [-> | (k & -> & _ & Hk)];
      [by left | right; by exists k].
  - lia.
  - intros k Hk1 Hk2. destruct (decide (k < n0)) as [Hin | Hout].
    + apply (last_newline_before_last text n0); [rewrite <-Hnl; lia | lia].
    + apply (Hbetween c Hc). lia.
Qed.

(** The outer loop: every entry it makes has the right offset, and every
    index it is given is either still in the array or has an entry. *)
Lemma br_loop_inv text (brElements : list Node) remaining :
  ∀ nlprev stack brOffsets stack' brOffsets',
  br_loop text brElements remaining nlprev stack brOffsets = (stack', brOffsets') →
  StronglySorted (flip Z.le) stack →
  (nlprev ≤ Z.of_nat (String.length text))%Z →
  (∀ c, c ∈ stack → no_newline_between text nlprev c) →
  map_Forall (entry_ok text) brOffsets →
  StronglySorted (flip Z.le) stack' ∧
  map_Forall (entry_ok text) brOffsets' ∧
  (∀ c, c ∈ stack → c ∈ stack' ∨ is_Some (brOffsets' !! c)) ∧
  (∀ c, is_Some (brOffsets !! c) → is_Some (brOffsets' !! c)) ∧
  (∀ c, c ∈ stack' → c ∈ stack).
Proof.
  induction remaining as [|brIndex IH];
    intros nlprev stack m stack' m' Hloop Hsort Hprev Hbetween Hok;
    cbn [br_loop] in Hloop;
    pose proof (popped_after_newline text nlprev stack) as Hpopped;
    destruct (lastIndexOf_newline_bound text (nlprev - 1) ltac:(lia))
      as (n0 & Hnl & Hn0);
    set (nl := lastIndexOf_newline text (nlprev - 1)) in *;
    match type of Hloop with
    | context [pop_loop nl ?br stack m] =>
        assert (∀ c, c ∈ stack → (nl < c)%Z →
                entry_ok text c
                  (br, match br with Some _ => (c - nl - 1)%Z | None => c end))
          as Hentry
          by (intros c Hc Hlt; unfold entry_ok, column; simpl;
              destruct br; simpl;
              first [reflexivity | rewrite Hpopped by assumption; lia]);
        destruct (pop_loop nl br stack m) as [stack1 m1] eqn:Hpop;
        destruct (pop_loop_inv (entry_ok text) nl br stack m stack1 m1
                    Hpop Hsort Hentry Hok)
          as (Hsort1 & Hle1 & Hok1 & Hcover1 & Hkeep1 & Hsub1)
    end.
  - (* no [br] element is left: the loop ends *)
    destruct (0 <=? nl)%Z; injection Hloop as <- <-; by repeat split.
  - destruct (Z.leb_spec 0 nl) as [Hpos | Hneg];
      [|injection Hloop as <- <-; by repeat split].
    destruct (IH _ _ _ _ _ Hloop Hsort1)
      as (Hsort' & Hok' & Hcover' & Hkeep' & Hsub').
    + pose proof (last_newline_before_found text n0) as Hfound.
      rewrite <-Hnl in Hfound. destruct Hfound as [? | (k & ? & ? & _)]; lia.
    + intros c Hc k Hk. rewrite Forall_forall in Hle1.
      specialize (Hle1 c Hc). lia.
    + assumption.
    + repeat split; try assumption.
      * intros c Hc. destruct (Hcover1 c Hc) as [Hc1 | Hc1];
          [by apply Hcover' | right; by apply Hkeep'].
      * intros c Hc. by apply Hkeep', Hkeep1.
      * intros c Hc. by apply Hsub1, Hsub'.
Qed.

(** What is taken from the array lies on the line that ends where the search
    for [newlineCharIndex] started: as many newlines before the one as
    before the other. *)
Lemma popped_count text nlprev stack c :
  (0 ≤ nlprev ≤ Z.of_nat (String.length text))%Z →
  (∀ c, c ∈ stack → no_newline_between text nlprev c) →
  c ∈ stack → (lastIndexOf_newline text (nlprev - 1) < c)%Z →
  count_newlines text (Z.to_nat c) = count_newlines text (Z.to_nat nlprev).
Proof.
  intros Hprev Hbetween Hc Hlt.
  destruct (Z.le_gt_cases nlprev c) as [Hle | Hgt].
  - apply count_newlines_between; [lia|]. intros k Hk.
    apply (Hbetween c Hc). lia.
  - symmetry. apply count_newlines_between; [lia|]. intros k Hk.
    destruct (lastIndexOf_newline_bound text (nlprev - 1) ltac:(lia))
      as (n0 & Hnl & Hn0).
    apply (last_newline_before_last text n0); [rewrite <-Hnl; lia | lia].
Qed.

(** The outer loop when [brIndex + 1] is the number of newlines before
    [newlineCharIndex]: every entry has the [br] element of its line, and
    what is left in the array is not positive. *)
Lemma br_loop_counted text (brElements : list Node) remaining :
  ∀ nlprev stack brOffsets stack' brOffsets',
  br_loop text brElements remaining nlprev stack brOffsets = (stack', brOffsets') →
  StronglySorted (flip Z.le) stack →
  (0 ≤ nlprev ≤ Z.of_nat (String.length text))%Z →
  (∀ c, c ∈ stack → no_newline_between text nlprev c) →
  remaining = count_newlines text (Z.to_nat nlprev) →
  map_Forall (node_ok brElements text) brOffsets →
  map_Forall (node_ok brElements text) brOffsets' ∧
  Forall (λ c, (c ≤ 0)%Z) stack'.
Proof.
  induction remaining as [|brIndex IH];
    intros nlprev stack m stack' m' Hloop Hsort Hprev Hbetween Hcount Hok;
    cbn [br_loop] in Hloop;
    pose proof (popped_count text nlprev stack) as Hpopped;
    pose proof (lastIndexOf_newline_le text (nlprev - 1)) as Hnlle;
    pose proof (lastIndexOf_newline_inside text (nlprev - 1)) as Hinside;
    set (nl := lastIndexOf_newline text (nlprev - 1)) in *;
    match type of Hloop with
    | context [pop_loop nl ?br stack m] =>
        assert (∀ c, c ∈ stack → (nl < c)%Z →
                node_ok brElements text c
                  (br, match br with Some _ => (c - nl - 1)%Z | None => c end))
          as Hentry
          by (intros c Hc Hlt; unfold node_ok, line_break; simpl;
              rewrite (Hpopped c Hprev Hbetween Hc Hlt), <-Hcount; reflexivity);
        destruct (pop_loop nl br stack m) as [stack1 m1] eqn:Hpop;
        destruct (pop_loop_inv (node_ok brElements text) nl br stack m stack1 m1
                    Hpop Hsort Hentry Hok)
          as (Hsort1 & Hle1 & Hok1 & _ & _ & _)
    end.
  - (* no [br] element is left: the loop ends *)
    assert (Hnl0 : (nl ≤ 0)%Z).
    { destruct (decide (nlprev ≤ 1)%Z) as [? | Hgt]; [lia|].
      rewrite Hinside in * by lia.
      replace (Z.to_nat (nlprev - 1 + 1)) with (Z.to_nat nlprev) in * by lia.
      destruct (last_newline_before_found text (Z.to_nat nlprev))
        as [Hnone | (k & Hk & _ & _)]; [unfold nl; lia|].
      apply (proj2 (count_newlines_last text (Z.to_nat nlprev))) in Hk. lia. }
    assert (stack' = stack1 ∧ m' = m1) as [-> ->]
      by (destruct (0 <=? nl)%Z; by injection Hloop as <- <-).
    split; [assumption|].
    eapply Forall_impl; [exact Hle1|]. simpl. intros; lia.
  - destruct (Z.leb_spec 0 nl) as [Hpos | Hneg].
    + apply (IH _ _ _ _ _ Hloop Hsort1).
      * lia.
      * intros c Hc k Hk. rewrite Forall_forall in Hle1.
        specialize (Hle1 c Hc). lia.
      * assert (1 ≤ nlprev)%Z as Hp.
        { destruct (decide (1 ≤ nlprev)%Z); [assumption|].
          replace (Z.to_nat nlprev) with 0 in Hcount by lia. discriminate. }
        unfold nl in *. rewrite Hinside in * by lia.
        replace (Z.to_nat (nlprev - 1 + 1)) with (Z.to_nat nlprev) in * by lia.
        destruct (last_newline_before_found text (Z.to_nat nlprev))
          as [Hnone | (k & Hk & _ & _)]; [lia|].
        rewrite Hk, Nat2Z.id.
        apply (proj2 (count_newlines_last text (Z.to_nat nlprev))) in Hk. lia.
      * assumption.
    + injection Hloop as <- <-. split; [assumption|].
      eapply Forall_impl; [exact Hle1|]. simpl. intros; lia.
Qed.

(** The state of [getBrOffsets_] when its loop starts. *)
Lemma getBrOffsets_start text (charIndexes : list Z) :
  (0 ≤ Z.of_nat (String.length text) ≤ Z.of_nat (String.length text))%Z ∧
  ∀ c, c ∈ reverse (merge_sort Z.le charIndexes) →
       no_newline_between text (Z.of_nat (String.length text)) c.
Proof.
  split; [lia|]. intros c _ k Hk. apply no_newline_past_end. lia.
Qed.

(** Every offset of the table is right: the column, with a [br] element,
    and the character index itself with none. *)
Lemma getBrOffsets_entry_ok (brElements : list Node) text charIndexes brOffsets :
  getBrOffsets_ brElements text charIndexes = Some brOffsets →
  map_Forall (entry_ok text) brOffsets.
Proof.
  unfold getBrOffsets_. intros Hget.
  destruct (br_loop _ _ _ _ _ _) as [stack m] eqn:Hloop.
  destruct (sorted_stack charIndexes) as [Hsort _].
  destruct (getBrOffsets_start text charIndexes) as [Hlen Hbetween].
  destruct (br_loop_inv _ _ _ _ _ _ _ _ Hloop Hsort ltac:(lia) Hbetween
              (map_Forall_empty _)) as (_ & Hok & _).
  destruct stack as [|last stack]; [by injection Hget as <-|].
  destruct (last =? 0)%Z; [|discriminate]. injection Hget as <-.
  by apply map_Forall_insert_2.
Qed.

(** Every character index that was asked for has an entry. *)
Lemma getBrOffsets_covers_all (brElements : list Node) text charIndexes brOffsets :
  Forall (λ c, (0 ≤ c)%Z) charIndexes →
  getBrOffsets_ brElements text charIndexes = Some brOffsets →
  ∀ c, c ∈ charIndexes → is_Some (brOffsets !! c).
Proof.
  unfold getBrOffsets_. intros Hpos Hget c Hc.
  destruct (br_loop _ _ _ _ _ _) as [stack m] eqn:Hloop.
  destruct (sorted_stack charIndexes) as [Hsort Hperm].
  destruct (getBrOffsets_start text charIndexes) as [Hlen Hbetween].
  destruct (br_loop_inv _ _ _ _ _ _ _ _ Hloop Hsort ltac:(lia) Hbetween
              (map_Forall_empty _)) as (Hsort' & _ & Hcover & _ & Hsub).
  rewrite Forall_forall in Hpos.
  destruct (Hcover c (proj2 (Hperm c) Hc)) as [Hleft | Hsome].
  - destruct stack as [|last stack]; [by apply elem_of_nil in Hleft|].
    destruct (Z.eqb_spec last 0) as [-> | ?]; [|discriminate].
    injection Hget as <-.
    assert (c = 0%Z) as ->.
    { specialize (Hpos c Hc).
      apply StronglySorted_cons in Hsort' as [Hall _].
      apply elem_of_cons in Hleft as [-> | Hin]; [reflexivity|].
      rewrite Forall_forall in Hall. specialize (Hall c Hin).
      unfold flip in Hall. lia. }
    rewrite lookup_insert_eq. by eexists.
  - destruct stack as [|last stack]; [by injection Hget as <-|].
    destruct (last =? 0)%Z; [|discriminate]. injection Hget as <-.
    rewrite lookup_insert_is_Some.
    destruct (decide (0%Z = c)); [by left | by right].
Qed.

(** With one [br] element for every newline of the text, every entry has
    the [br] element of its line. *)
Lemma getBrOffsets_node_ok (brElements : list Node) text charIndexes brOffsets :
  length brElements = count_newlines text (String.length text) →
  getBrOffsets_ brElements text charIndexes = Some brOffsets →
  map_Forall (node_ok brElements text) brOffsets.
Proof.
  unfold getBrOffsets_. intros Hbr Hget.
  destruct (br_loop _ _ _ _ _ _) as [stack m] eqn:Hloop.
  destruct (sorted_stack charIndexes) as [Hsort _].
  destruct (getBrOffsets_start text charIndexes) as [Hlen Hbetween].
  destruct (br_loop_counted _ _ _ _ _ _ _ _ Hloop Hsort Hlen Hbetween)
    as [Hok _]; [by rewrite Nat2Z.id | apply map_Forall_empty |].
  destruct stack as [|last stack]; [by injection Hget as <-|].
  destruct (last =? 0)%Z; [|discriminate]. injection Hget as <-.
  by apply map_Forall_insert_2.
Qed.

(** With one [br] element for every newline of the text and no negative
    character index, nothing is thrown. *)
Lemma getBrOffsets_no_throw (brElements : list Node) text charIndexes :
  length brElements = count_newlines text (String.length text) →
  Forall (λ c, (0 ≤ c)%Z) charIndexes →
  is_Some (getBrOffsets_ brElements text charIndexes).
Proof.
  unfold getBrOffsets_. intros Hbr Hpos.
  destruct (br_loop _ _ _ _ _ _) as [stack m] eqn:Hloop.
  destruct (sorted_stack charIndexes) as [Hsort Hperm].
  destruct (getBrOffsets_start text charIndexes) as [Hlen Hbetween].
  destruct (br_loop_counted _ _ _ _ _ _ _ _ Hloop Hsort Hlen Hbetween)
    as [_ Hle]; [by rewrite Nat2Z.id | apply map_Forall_empty |].
  destruct (br_loop_inv _ _ _ _ _ _ _ _ Hloop Hsort ltac:(lia) Hbetween
              (map_Forall_empty _)) as (_ & _ & _ & _ & Hsub).
  destruct stack as [|last stack]; [by eexists|].
  apply Forall_cons in Hle as [Hlast _].
  rewrite Forall_forall in Hpos.
  specialize (Hpos last (proj1 (Hperm last) (Hsub last ltac:(by left)))).
  destruct (Z.eqb_spec last 0); [by eexists | lia].
Qed.

(** The keys of the table come from the array. *)
Lemma pop_loop_dom nl (br : option Node) :
  ∀ stack brOffsets stack' brOffsets',
  pop_loop nl br stack brOffsets = (stack', brOffsets') →
  (∀ c, c ∈ stack' → c ∈ stack) ∧
  (∀ c, is_Some (brOffsets' !! c) → is_Some (brOffsets !! c) ∨ c ∈ stack).
Proof.
  induction stack as [|c stack IH]; intros m stack' m' Hloop; simpl in Hloop.
  { injection Hloop as <- <-. split; [done | by left]. }
  destruct (nl <? c)%Z; [|injection Hloop as <- <-; split; [done | by left]].
  destruct (IH _ _ _ Hloop) as [Hsub Hdom]. split.
  - intros c' Hc'. right. by apply Hsub.
  - intros c' Hc'. destruct (Hdom c' Hc') as [Hin | Hin]; [|right; by right].
    apply lookup_insert_is_Some in Hin as [-> | [_ Hin]];
      [right; by left | by left].
Qed.

Lemma br_loop_dom text (brElements : list Node) remaining :
  ∀ nlprev stack brOffsets stack' brOffsets',
  br_loop text brElements remaining nlprev stack brOffsets = (stack', brOffsets') →
  (∀ c, c ∈ stack' → c ∈ stack) ∧
  (∀ c, is_Some (brOffsets' !! c) → is_Some (brOffsets !! c) ∨ c ∈ stack).
Proof.
  induction remaining as [|brIndex IH];
    intros nlprev stack m stack' m' Hloop; cbn [br_loop] in Hloop;
    match type of Hloop with
    | context [pop_loop ?nl ?br stack m] =>
        destruct (pop_loop nl br stack m) as [stack1 m1] eqn:Hpop;
        destruct (pop_loop_dom _ _ _ _ _ _ Hpop) as [Hsub1 Hdom1];
        destruct (0 <=? nl)%Z
    end;
    try (injection Hloop as <- <-; by split).
  destruct (IH _ _ _ _ _ Hloop) as [Hsub Hdom]. split.
  - intros c Hc. by apply Hsub1, Hsub.
  - intros c Hc. destruct (Hdom c Hc) as [Hin | Hin];
      [by apply Hdom1 | right; by apply Hsub1].
Qed.

(** The table has an entry for nothing but the character indexes that were
    asked for. *)
Lemma getBrOffsets_keys (brElements : list Node) text charIndexes brOffsets :
  getBrOffsets_ brElements text charIndexes = Some brOffsets →
  ∀ c, is_Some (brOffsets !! c) → c ∈ charIndexes.
Proof.
  unfold getBrOffsets_. intros Hget c Hc.
  destruct (br_loop _ _ _ _ _ _) as [stack m] eqn:Hloop.
  destruct (sorted_stack charIndexes) as [_ Hperm].
  destruct (br_loop_dom _ _ _ _ _ _ _ _ Hloop) as [Hsub Hdom].
  assert (Hm : is_Some (m !! c) → c ∈ charIndexes).
  { intros Hin. destruct (Hdom c Hin) as [Hempty | Hstack];
      [|by apply Hperm].
    rewrite lookup_empty in Hempty. by destruct Hempty. }
  destruct stack as [|last stack]; [injection Hget as <-; by apply Hm|].
  destruct (Z.eqb_spec last 0) as [-> | ?]; [|discriminate].
  injection Hget as <-.
  apply lookup_insert_is_Some in Hc as [<- | [_ Hin]]; [|by apply Hm].
  apply Hperm, Hsub. by left.
Qed.

(** The offsets of a simple diff that lie inside the document are finite
    and not negative, and the second loop of [patchClientText] looks up
    nothing else. *)
Lemma within_document_indexes size simpleDiff :
  Forall (within_document size) simpleDiff →
  ∃ charIndexes,
    finite_indexes (offsetsNeeded simpleDiff) = Some charIndexes ∧
    Forall (λ c, (0 ≤ c)%Z) charIndexes ∧
    ∀ brOffsets : gmap Z (BrOffset Node),
      (∀ c, c ∈ charIndexes → is_Some (brOffsets !! c)) →
      Forall (positions_found brOffsets) simpleDiff.
Proof.
  induction 1 as [|action simpleDiff Haction _ (charIndexes & Hfin & Hpos & Hfound)].
  { exists []. split; [reflexivity|]. split; constructor. }
  unfold finite_indexes in *.
  destruct action as [[start| | |] [end_| | |] | [start| | |] text];
    simpl in Haction; try done.
  - exists (start :: end_ :: charIndexes).
    change (offsetsNeeded (DeleteAction (Fin start) (Fin end_) :: simpleDiff))
      with (Fin start :: Fin end_ :: offsetsNeeded simpleDiff).
    cbn [mapM mbind option_bind mret option_ret]. rewrite Hfin. cbn.
    split; [reflexivity|]. split; [repeat constructor; [lia | lia | assumption]|].
    intros m Hm. constructor.
    + split; apply Hm; [by left | right; by left].
    + apply Hfound. intros c Hc. apply Hm. right. by right.
  - exists (start :: charIndexes).
    change (offsetsNeeded (InsertAction (Fin start) text :: simpleDiff))
      with (Fin start :: offsetsNeeded simpleDiff).
    cbn [mapM mbind option_bind mret option_ret]. rewrite Hfin. cbn.
    split; [reflexivity|]. split; [constructor; [lia | assumption]|].
    intros m Hm. constructor.
    + apply Hm. by left.
    + apply Hfound. intros c Hc. apply Hm. by right.
Qed.

Lemma count_newlines_le text n :
  count_newlines text n ≤ count_newlines text (String.length text).
Proof.
  destruct (decide (n ≤ String.length text)) as [Hle | Hgt].
  - induction Hle as [|m _ IH]; [done|]. simpl. lia.
  - rewrite (count_newlines_between text (String.length text) n); [done | lia |].
    intros k Hk. apply no_newline_past_end. lia.
Qed.

(** With one [br] element for every newline of the text, the entry of a
    character index is its place in the editor: the [br] element of its
    line and its column. *)
Lemma getBrOffsets_place (brElements : list Node) text charIndexes brOffsets :
  length brElements = count_newlines text (String.length text) →
  getBrOffsets_ brElements text charIndexes = Some brOffsets →
  ∀ c entry, brOffsets !! c = Some entry →
    entry = (line_break brElements text c, column text c).
Proof.
  intros Hbr Hget c [node offset] Hc.
  pose proof (getBrOffsets_node_ok _ _ _ _ Hbr Hget c _ Hc) as Hnode.
  pose proof (getBrOffsets_entry_ok _ _ _ _ Hget c _ Hc) as Hoffset.
  unfold node_ok, entry_ok in *. simpl in *. subst node. f_equal.
  rewrite Hoffset. unfold line_break, column.
  pose proof (count_newlines_le text (Z.to_nat c)) as Hle.
  destruct (count_newlines text (Z.to_nat c)) as [|j] eqn:Hcount.
  - destruct (last_newline_before_found text (Z.to_nat c))
      as [-> | (k & Hk & _ & _)]; [lia|].
    apply (proj2 (count_newlines_last text (Z.to_nat c))) in Hk. lia.
  - destruct (lookup_lt_is_Some_2 brElements j ltac:(lia)) as [br ->].
    reflexivity.
Qed.
End getBrOffsets.

(** * The recorder, the diff and the editor *)

(** X1: [applyInsert] on the state of a recorder, at an offset within the
    text the state stands for, returns, and afterwards the state stands for
    that text with the new text put in at the offset, the way [patch_apply_]
    edits its own copy of the text. *)
Theorem applyInsert_text base chunks_ index text :
  consistent base chunks_ →
  (0 ≤ index ≤ Z.of_nat (String.length (render base chunks_)))%Z →
  ∃ chunks',
    applyInsert (Fin index) text chunks_ = Some chunks' ∧
    consistent base chunks' ∧
    render base chunks' = edit_text (render base chunks_) (InsertEdit index text).
Proof. apply applyInsert_render. Qed.

Lemma applyInsert_text_witness :
  consistent "abcdef" recorded_chunks ∧
  ∃ chunks',
    applyInsert (Fin 4) "Z" recorded_chunks = Some chunks' ∧
    consistent "abcdef" chunks' ∧
    render "abcdef" chunks'
    = edit_text (render "abcdef" recorded_chunks) (InsertEdit 4 "Z").
Proof.
  assert (H : consistent "abcdef" recorded_chunks).
  { split; [|split; [repeat constructor; simpl; lia | by eexists _, _]].
    apply ordered_copy; [lia | lia |].
    apply (ordered_insert _ "XY"). apply ordered_tail. simpl. lia. }
  split; [exact H|].
  apply (applyInsert_text "abcdef" recorded_chunks 4 "Z" H).
  vm_compute. split; discriminate.
Defined.

(** X2: [applyDelete] on the state of a recorder, for a span within the
    text the state stands for, returns, and afterwards the state stands for
    that text without the span. *)
Theorem applyDelete_text base chunks_ startIndex endIndex :
  consistent base chunks_ →
  (0 ≤ startIndex ≤ endIndex)%Z →
  (endIndex ≤ Z.of_nat (String.length (render base chunks_)))%Z →
  ∃ chunks',
    applyDelete (Fin startIndex) (Fin endIndex) chunks_ = Some chunks' ∧
    consistent base chunks' ∧
    render base chunks'
    = edit_text (render base chunks_) (DeleteEdit startIndex endIndex).
Proof. apply applyDelete_render. Qed.

Lemma applyDelete_text_witness :
  consistent "abcdef" recorded_chunks ∧
  ∃ chunks',
    applyDelete (Fin 2) (Fin 6) recorded_chunks = Some chunks' ∧
    consistent "abcdef" chunks' ∧
    render "abcdef" chunks'
    = edit_text (render "abcdef" recorded_chunks) (DeleteEdit 2 6).
Proof.
  assert (H : consistent "abcdef" recorded_chunks).
  { split; [|split; [repeat constructor; simpl; lia | by eexists _, _]].
    apply ordered_copy; [lia | lia |].
    apply (ordered_insert _ "XY"). apply ordered_tail. simpl. lia. }
  split; [exact H|].
  apply (applyDelete_text "abcdef" recorded_chunks 2 6 H); [lia|].
  vm_compute. discriminate.
Defined.

(** X3: the edits of a series, each within the text as it is when the edit
    is made, recorded on a fresh recorder: every call returns, and the state
    stands for the text the edits make of the original document. *)
Theorem record_all_text base edits :
  all_in_range base edits = true →
  ∃ chunks_,
    record_all SimpleDiffer edits = Some chunks_ ∧ consistent base chunks_ ∧
    render base chunks_ = edit_all base edits.
Proof. apply record_all_render. Qed.

Lemma record_all_text_witness :
  all_in_range "abcdef" skipping_edits = true ∧
  ∃ chunks_,
    record_all SimpleDiffer skipping_edits = Some chunks_ ∧
    consistent "abcdef" chunks_ ∧
    render "abcdef" chunks_ = edit_all "abcdef" skipping_edits.
Proof.
  split; [reflexivity|].
  exact (record_all_text "abcdef" skipping_edits eq_refl).
Defined.

(** X4: [getSimpleDiff] on the state of a recorder returns, and the diff it
    returns, replayed on the original document, gives the text of the
    sequence [mergeInserts_] has left: the two loops after [mergeInserts_]
    lose nothing. *)
Theorem getSimpleDiff_text base chunks_ :
  consistent base chunks_ →
  ∃ chunks' simpleDiff,
    getSimpleDiff chunks_ = Some (chunks', simpleDiff) ∧
    mergeInserts_ chunks_ = Some chunks' ∧
    consistent base chunks' ∧
    replay base simpleDiff = render base chunks'.
Proof. apply getSimpleDiff_replay. Qed.

Lemma getSimpleDiff_text_witness :
  consistent "abcdef" recorded_chunks ∧
  ∃ chunks' simpleDiff,
    getSimpleDiff recorded_chunks = Some (chunks', simpleDiff) ∧
    mergeInserts_ recorded_chunks = Some chunks' ∧
    consistent "abcdef" chunks' ∧
    replay "abcdef" simpleDiff = render "abcdef" chunks'.
Proof.
  assert (H : consistent "abcdef" recorded_chunks).
  { split; [|split; [repeat constructor; simpl; lia | by eexists _, _]].
    apply ordered_copy; [lia | lia |].
    apply (ordered_insert _ "XY"). apply ordered_tail. simpl. lia. }
  split; [exact H | exact (getSimpleDiff_text "abcdef" recorded_chunks H)].
Defined.

(** X5: [mergeInserts_] on a sequence without empty insert chunks returns a
    sequence with the same text, in which no insert chunk is empty and no
    two insert chunks are neighbours. *)
Theorem mergeInserts_merges base chunks_ :
  Forall (λ c, empty_insert c = false) chunks_ →
  ∃ chunks',
    mergeInserts_ chunks_ = Some chunks' ∧
    render base chunks' = render base chunks_ ∧
    Forall (λ c, empty_insert c = false) chunks' ∧
    no_insert_neighbours chunks'.
Proof. apply mergeInserts_render. Qed.

Lemma mergeInserts_merges_witness :
  Forall (λ c, empty_insert c = false) unmerged_chunks ∧
  ∃ chunks',
    mergeInserts_ unmerged_chunks = Some chunks' ∧
    render "xy" chunks' = render "xy" unmerged_chunks ∧
    Forall (λ c, empty_insert c = false) chunks' ∧
    no_insert_neighbours chunks'.
Proof.
  assert (H : Forall (λ c, empty_insert c = false) unmerged_chunks)
    by (repeat constructor).
  split; [exact H | exact (mergeInserts_merges "xy" unmerged_chunks H)].
Defined.

(** X6: [mergeInserts_] leaves the copy chunks of the sequence as they are, in
    the order they are in. *)
Theorem mergeInserts_copies chunks_ chunks' :
  mergeInserts_ chunks_ = Some chunks' →
  filter (λ c, is_insert c = false) chunks'
  = filter (λ c, is_insert c = false) chunks_.
Proof.
  unfold mergeInserts_.
  apply (mergeInserts_loop_preserves
           (λ l, filter (λ c, is_insert c = false) l
                 = filter (λ c, is_insert c = false) chunks_)); [| |reflexivity].
  - intros cs i text len Hi <-.
    rewrite <-(take_drop_middle cs i _ Hi) at 2.
    unfold splice. simpl. rewrite Nat.add_1_r.
    rewrite !filter_app, filter_cons_False; [done|].
    simpl. discriminate.
  - intros cs p text len text' len' Hp <-.
    rewrite <-(take_drop_middle cs p _ Hp) at 2.
    rewrite <-(take_drop_middle (<[p:=InsertChunk text' len']> cs) p
                 (InsertChunk text' len')).
    + rewrite take_insert_ge, drop_insert_lt by lia.
      rewrite !filter_app, !filter_cons_False by (simpl; discriminate). done.
    + apply list_lookup_insert_eq. by eapply lookup_lt_Some.
Qed.

Lemma mergeInserts_copies_witness :
  mergeInserts_ unmerged_chunks
  = Some [CopyChunk (Fin 0) (Fin 1); InsertChunk "ab" (Fin 2);
          CopyChunk (Fin 1) PInf] ∧
  filter (λ c, is_insert c = false)
    [CopyChunk (Fin 0) (Fin 1); InsertChunk "ab" (Fin 2); CopyChunk (Fin 1) PInf]
  = filter (λ c, is_insert c = false) unmerged_chunks.
Proof.
  split; [reflexivity|].
  exact (mergeInserts_copies unmerged_chunks _ eq_refl).
Defined.

(** X7: replaying the diff on the original document gives the text the
    edits make of it, whenever the sequence the edits have left holds no
    empty insert chunk. *)
Theorem round_trip_without_empty_inserts base edits chunks_ :
  all_in_range base edits = true →
  record_all SimpleDiffer edits = Some chunks_ →
  Forall (λ c, empty_insert c = false) chunks_ →
  ∃ simpleDiff,
    diff_of edits = Some simpleDiff ∧
    replay base simpleDiff = edit_all base edits.
Proof. apply round_trip_from_chunks. Qed.

Lemma round_trip_without_empty_inserts_witness :
  all_in_range "abcdef" meeting_edits = true ∧
  record_all SimpleDiffer meeting_edits
  = Some [CopyChunk (Fin 0) (Fin 2); CopyChunk (Fin 3) (Fin 0);
          InsertChunk "X" (Fin 1); CopyChunk (Fin 3) (Fin 0);
          CopyChunk (Fin 5) PInf] ∧
  ∃ simpleDiff,
    diff_of meeting_edits = Some simpleDiff ∧
    replay "abcdef" simpleDiff = edit_all "abcdef" meeting_edits.
Proof.
  split; [reflexivity|]. split; [reflexivity|].
  apply (round_trip_without_empty_inserts "abcdef" meeting_edits _ eq_refl eq_refl).
  repeat constructor.
Defined.

(** X8: the round trip holds for every ascending series of edits that are
    within the text: replaying the diff on the original document gives the
    text the edits make of it. *)
Theorem round_trip_ascending base edits :
  ascending 0 edits → all_in_range base edits = true →
  ∃ simpleDiff,
    diff_of edits = Some simpleDiff ∧
    replay base simpleDiff = edit_all base edits.
Proof.
  intros Hasc Hrange.
  destruct (record_all_settled edits 0 SimpleDiffer SimpleDiffer_settled Hasc)
    as (chunks_ & pos & Hrec & _ & Hfull & _).
  by apply (round_trip_from_chunks base edits chunks_).
Qed.

Lemma round_trip_ascending_witness :
  ascending 0 ascending_edits ∧
  all_in_range "abcdefgh" ascending_edits = true ∧
  ∃ simpleDiff,
    diff_of ascending_edits = Some simpleDiff ∧
    replay "abcdefgh" simpleDiff = edit_all "abcdefgh" ascending_edits.
Proof.
  assert (H : ascending 0 ascending_edits) by (simpl; repeat split; lia).
  split; [exact H|]. split; [reflexivity|].
  exact (round_trip_ascending "abcdefgh" ascending_edits H eq_refl).
Defined.

(** X9: the offsets of the diff of a series of edits, each within the text
    as it is when the edit is made, lie inside the original document: a
    delete has [0 <= start < end <= size], an insert [0 <= start <= size]. *)
Theorem diff_within_document base edits :
  all_in_range base edits = true →
  ∃ simpleDiff,
    diff_of edits = Some simpleDiff ∧
    Forall (within_document (Z.of_nat (String.length base))) simpleDiff.
Proof. apply diff_of_within. Qed.

Lemma diff_within_document_witness :
  all_in_range "abcdef" meeting_edits = true ∧
  ∃ simpleDiff,
    diff_of meeting_edits = Some simpleDiff ∧
    Forall (within_document (Z.of_nat (String.length "abcdef"))) simpleDiff.
Proof.
  split; [reflexivity|].
  exact (diff_within_document "abcdef" meeting_edits eq_refl).
Defined.

(** X10: when no insert chunk of the sequence is empty, [getSimpleDiff]
    returns, and no action of the diff is an insert with an empty text. *)
Theorem getSimpleDiff_no_empty_insert chunks_ :
  Forall (λ c, empty_insert c = false) chunks_ →
  ∃ chunks' simpleDiff,
    getSimpleDiff chunks_ = Some (chunks', simpleDiff) ∧
    Forall (λ a, empty_insert_action a = false) simpleDiff.
Proof. apply getSimpleDiff_texts. Qed.

Lemma getSimpleDiff_no_empty_insert_witness :
  Forall (λ c, empty_insert c = false) unmerged_chunks ∧
  ∃ chunks' simpleDiff,
    getSimpleDiff unmerged_chunks = Some (chunks', simpleDiff) ∧
    Forall (λ a, empty_insert_action a = false) simpleDiff.
Proof.
  assert (H : Forall (λ c, empty_insert c = false) unmerged_chunks)
    by (repeat constructor).
  split; [exact H | exact (getSimpleDiff_no_empty_insert unmerged_chunks H)].
Defined.

(** X11: the diff of an ascending series of edits holds no insert with an empty
    text. *)
Theorem ascending_no_empty_insert edits :
  ascending 0 edits →
  ∃ simpleDiff,
    diff_of edits = Some simpleDiff ∧
    Forall (λ a, empty_insert_action a = false) simpleDiff.
Proof.
  intros Hasc.
  destruct (record_all_settled edits 0 SimpleDiffer SimpleDiffer_settled Hasc)
    as (chunks_ & pos & Hrec & _ & Hfull & _).
  destruct (getSimpleDiff_texts chunks_ Hfull)
    as (chunks' & diff & Hdiff & Hout).
  exists diff. unfold diff_of. rewrite Hrec. simpl. rewrite Hdiff. by split.
Qed.

Lemma ascending_no_empty_insert_witness :
  ascending 0 ascending_edits ∧
  ∃ simpleDiff,
    diff_of ascending_edits = Some simpleDiff ∧
    Forall (λ a, empty_insert_action a = false) simpleDiff.
Proof.
  assert (H : ascending 0 ascending_edits) by (simpl; repeat split; lia).
  split; [exact H | exact (ascending_no_empty_insert ascending_edits H)].
Defined.

(** X12: [applyInsert], when it returns, has added two chunks: the second
    half of the chunk it has cut, and the insert chunk. *)
Theorem applyInsert_length index text chunks_ chunks' :
  applyInsert index text chunks_ = Some chunks' →
  length chunks' = length chunks_ + 2.
Proof. apply applyInsert_adds_two. Qed.

Lemma applyInsert_length_witness :
  applyInsert (Fin 1) "Z" recorded_chunks
  = Some [CopyChunk (Fin 0) (Fin 1); InsertChunk "Z" (Fin 1);
          CopyChunk (Fin 1) (Fin 2); InsertChunk "XY" (Fin 2);
          CopyChunk (Fin 3) PInf] ∧
  length [CopyChunk (Fin 0) (Fin 1); InsertChunk "Z" (Fin 1);
          CopyChunk (Fin 1) (Fin 2); InsertChunk "XY" (Fin 2);
          CopyChunk (Fin 3) PInf]
  = length recorded_chunks + 2.
Proof.
  split; [reflexivity|].
  exact (applyInsert_length (Fin 1) "Z" recorded_chunks _ eq_refl).
Defined.

(** X13: after [n] well-formed calls the sequence has at most [2 n + 1]
    chunks. *)
Theorem record_all_length edits chunks_ :
  Forall well_formed edits →
  record_all SimpleDiffer edits = Some chunks_ →
  length chunks_ ≤ 2 * length edits + 1.
Proof.
  intros Hwf Hrec.
  assert (Hgen : ∀ edits lo chunks0 chunks1,
            ordered lo chunks0 → Forall well_formed edits →
            record_all chunks0 edits = Some chunks1 →
            length chunks1 ≤ 2 * length edits + length chunks0).
  { clear. induction edits as [|edit edits IH];
      intros lo chunks0 chunks1 Hord Hwf Hrec; simpl in *.
    - injection Hrec as <-. lia.
    - apply Forall_cons in Hwf as [Hedit Hwf].
      destruct (record_ordered _ _ _ Hord Hedit) as (chunks' & Hstep & Hord').
      rewrite Hstep in Hrec. simpl in Hrec.
      specialize (IH _ _ _ Hord' Hwf Hrec).
      destruct edit as [index text | startIndex endIndex]; simpl in *.
      + apply applyInsert_adds_two in Hstep. lia.
      + eapply applyDelete_length in Hstep; [|eassumption..]. lia. }
  specialize (Hgen _ _ _ _ SimpleDiffer_ordered Hwf Hrec). simpl in Hgen. lia.
Qed.

Lemma record_all_length_witness :
  Forall well_formed meeting_edits ∧
  record_all SimpleDiffer meeting_edits
  = Some [CopyChunk (Fin 0) (Fin 2); CopyChunk (Fin 3) (Fin 0);
          InsertChunk "X" (Fin 1); CopyChunk (Fin 3) (Fin 0);
          CopyChunk (Fin 5) PInf] ∧
  length [CopyChunk (Fin 0) (Fin 2); CopyChunk (Fin 3) (Fin 0);
          InsertChunk "X" (Fin 1); CopyChunk (Fin 3) (Fin 0);
          CopyChunk (Fin 5) PInf]
  ≤ 2 * length meeting_edits + 1.
Proof.
  assert (Hwf : Forall well_formed meeting_edits)
    by (repeat constructor; simpl; lia).
  split; [exact Hwf|]. split; [reflexivity|].
  exact (record_all_length meeting_edits _ Hwf eq_refl).
Defined.

(** X14: [findChunk_] finds no chunk for the targets [NaN] and [Infinity],
    whatever the sequence, and [applyInsert] at such an index throws. *)
Theorem applyInsert_not_a_number index text chunks_ :
  index = NaN ∨ index = PInf →
  findChunk_ chunks_ index = None ∧ applyInsert index text chunks_ = None.
Proof.
  intros Hidx. unfold applyInsert, findChunk_.
  by rewrite findChunk_loop_none.
Qed.

Lemma applyInsert_not_a_number_witness :
  findChunk_ recorded_chunks NaN = None ∧
  applyInsert NaN "Z" recorded_chunks = None.
Proof.
  apply (applyInsert_not_a_number NaN "Z" recorded_chunks). left. reflexivity.
Defined.

(** X15: every entry of the table that [getBrOffsets_] returns for a
    character index up to [Number.MAX_SAFE_INTEGER] has the offset the code
    means it to have: with a [br] element the column of the character
    index, the number of characters after the last newline before it; with
    none the character index itself. *)
Theorem getBrOffsets_offsets {Node} (brElements : list Node) editorText
    charIndexes brOffsets targetCharIndex node offset :
  (targetCharIndex ≤ MAX_SAFE_INTEGER)%Z →
  getBrOffsets_ brElements editorText charIndexes = Some brOffsets →
  brOffsets !! targetCharIndex = Some (node, offset) →
  offset = match node with
           | Some _ => column editorText targetCharIndex
           | None => targetCharIndex
           end.
Proof.
  intros _ Hget Hentry.
  exact (getBrOffsets_entry_ok _ _ _ _ Hget _ _ Hentry).
Qed.

Lemma getBrOffsets_offsets_witness :
  (4 ≤ MAX_SAFE_INTEGER)%Z ∧
  getBrOffsets_ [7] two_lines [4; 0; 3]%Z
  = Some (<[0%Z := (None, 0%Z)]>
            (<[3%Z := (Some 7, 0%Z)]> (<[4%Z := (Some 7, 1%Z)]> ∅))) ∧
  1%Z = column two_lines 4.
Proof.
  assert (Hsafe : (4 ≤ MAX_SAFE_INTEGER)%Z) by (vm_compute; discriminate).
  split; [exact Hsafe|]. split; [vm_compute; reflexivity|].
  apply (getBrOffsets_offsets [7] two_lines [4; 0; 3]%Z
           (<[0%Z := (None, 0%Z)]>
              (<[3%Z := (Some 7, 0%Z)]> (<[4%Z := (Some 7, 1%Z)]> ∅)))
           4%Z (Some 7) 1%Z Hsafe);
    vm_compute; reflexivity.
Defined.

(** X16: with one [br] element for every newline of the text, the entry of
    a character index up to [Number.MAX_SAFE_INTEGER] is its place in the
    editor: the [br] element of the line it is in ([null] on the first
    line) and its column. *)
Theorem getBrOffsets_places {Node} (brElements : list Node) editorText
    charIndexes brOffsets targetCharIndex entry :
  (targetCharIndex ≤ MAX_SAFE_INTEGER)%Z →
  length brElements = count_newlines editorText (String.length editorText) →
  getBrOffsets_ brElements editorText charIndexes = Some brOffsets →
  brOffsets !! targetCharIndex = Some entry →
  entry = (line_break brElements editorText targetCharIndex,
           column editorText targetCharIndex).
Proof.
  intros _ Hbr Hget Hentry.
  exact (getBrOffsets_place _ _ _ _ Hbr Hget _ _ Hentry).
Qed.

Lemma getBrOffsets_places_witness :
  (3 ≤ MAX_SAFE_INTEGER)%Z ∧
  length [7] = count_newlines two_lines (String.length two_lines) ∧
  getBrOffsets_ [7] two_lines [4; 0; 3]%Z
  = Some (<[0%Z := (None, 0%Z)]>
            (<[3%Z := (Some 7, 0%Z)]> (<[4%Z := (Some 7, 1%Z)]> ∅))) ∧
  (Some 7, 0%Z) = (line_break [7] two_lines 3, column two_lines 3).
Proof.
  assert (Hsafe : (3 ≤ MAX_SAFE_INTEGER)%Z) by (vm_compute; discriminate).
  split; [exact Hsafe|]. split; [reflexivity|].
  split; [vm_compute; reflexivity|].
  apply (getBrOffsets_places [7] two_lines [4; 0; 3]%Z
           (<[0%Z := (None, 0%Z)]>
              (<[3%Z := (Some 7, 0%Z)]> (<[4%Z := (Some 7, 1%Z)]> ∅)))
           3%Z (Some 7, 0%Z) Hsafe);
    vm_compute; reflexivity.
Defined.

(** X17: when no character index is negative and [getBrOffsets_] returns,
    the table has an entry for every character index that was asked for,
    and for nothing else. *)
Theorem getBrOffsets_covers {Node} (brElements : list Node) editorText
    charIndexes brOffsets targetCharIndex :
  Forall (λ c, (0 ≤ c)%Z) charIndexes →
  getBrOffsets_ brElements editorText charIndexes = Some brOffsets →
  targetCharIndex ∈ charIndexes ↔ is_Some (brOffsets !! targetCharIndex).
Proof.
  intros Hpos Hget. split.
  - by apply (getBrOffsets_covers_all brElements editorText).
  - by apply (getBrOffsets_keys brElements editorText).
Qed.

Lemma getBrOffsets_covers_witness :
  Forall (λ c, (0 ≤ c)%Z) [4; 0; 3]%Z ∧
  getBrOffsets_ [7] two_lines [4; 0; 3]%Z
  = Some (<[0%Z := (None, 0%Z)]>
            (<[3%Z := (Some 7, 0%Z)]> (<[4%Z := (Some 7, 1%Z)]> ∅))) ∧
  (3%Z ∈ [4; 0; 3]%Z ↔
   is_Some ((<[0%Z := (None, 0%Z)]>
               (<[3%Z := (Some 7, 0%Z)]> (<[4%Z := (Some 7, 1%Z)]> ∅))
             : gmap Z (BrOffset nat)) !! 3%Z)).
Proof.
  assert (Hpos : Forall (λ c, (0 ≤ c)%Z) [4; 0; 3]%Z)
    by (repeat constructor; lia).
  split; [exact Hpos|]. split; [vm_compute; reflexivity|].
  apply (getBrOffsets_covers [7] two_lines [4; 0; 3]%Z _ 3%Z Hpos).
  vm_compute; reflexivity.
Defined.

(** X18: with one [br] element for every newline of the text and no
    negative character index, [getBrOffsets_] throws nothing. *)
Theorem getBrOffsets_returns {Node} (brElements : list Node) editorText
    charIndexes :
  length brElements = count_newlines editorText (String.length editorText) →
  Forall (λ c, (0 ≤ c)%Z) charIndexes →
  is_Some (getBrOffsets_ brElements editorText charIndexes).
Proof. apply getBrOffsets_no_throw. Qed.

Lemma getBrOffsets_returns_witness :
  length [7] = count_newlines two_lines (String.length two_lines) ∧
  Forall (λ c, (0 ≤ c)%Z) [4; 0; 3]%Z ∧
  is_Some (getBrOffsets_ [7] two_lines [4; 0; 3]%Z).
Proof.
  assert (Hpos : Forall (λ c, (0 ≤ c)%Z) [4; 0; 3]%Z)
    by (repeat constructor; lia).
  split; [reflexivity|]. split; [exact Hpos|].
  exact (getBrOffsets_returns [7] two_lines [4; 0; 3]%Z eq_refl Hpos).
Defined.

(** X19: [patchClientText] after [patch_apply_] has recorded a series of
    edits, each within the text as it is when the edit is made, in an
    editor with one [br] element for every newline of the old text:
    [getSimpleDiff] returns, the offsets it asks [getBrOffsets_] for are
    finite, [getBrOffsets_] throws nothing, and every [brOffsets[...]] of
    the second loop finds an entry. *)
Theorem patchClientText_positions {Node} (brElements : list Node)
    oldClientText edits :
  all_in_range oldClientText edits = true →
  length brElements
  = count_newlines oldClientText (String.length oldClientText) →
  ∃ simpleDiff charIndexes brOffsets,
    diff_of edits = Some simpleDiff ∧
    finite_indexes (offsetsNeeded simpleDiff) = Some charIndexes ∧
    getBrOffsets_ brElements oldClientText charIndexes = Some brOffsets ∧
    Forall (positions_found brOffsets) simpleDiff.
Proof.
  intros Hrange Hbr.
  destruct (diff_of_within oldClientText edits Hrange)
    as (simpleDiff & Hdiff & Hwithin).
  destruct (within_document_indexes (Node := Node) _ _ Hwithin)
    as (charIndexes & Hfin & Hpos & Hfound).
  destruct (getBrOffsets_no_throw brElements oldClientText charIndexes Hbr Hpos)
    as [brOffsets Hget].
  exists simpleDiff, charIndexes, brOffsets.
  repeat split; try assumption.
  apply Hfound. by apply (getBrOffsets_covers_all brElements oldClientText).
Qed.

Lemma patchClientText_positions_witness :
  all_in_range two_lines [InsertEdit 3 "X"; DeleteEdit 0 1] = true ∧
  length [7] = count_newlines two_lines (String.length two_lines) ∧
  ∃ simpleDiff charIndexes brOffsets,
    diff_of [InsertEdit 3 "X"; DeleteEdit 0 1] = Some simpleDiff ∧
    finite_indexes (offsetsNeeded simpleDiff) = Some charIndexes ∧
    getBrOffsets_ [7] two_lines charIndexes = Some brOffsets ∧
    Forall (positions_found brOffsets) simpleDiff.
Proof.
  split; [reflexivity|]. split; [reflexivity|].
  exact (patchClientText_positions [7] two_lines
           [InsertEdit 3 "X"; DeleteEdit 0 1] eq_refl eq_refl).
Defined.
